(** * random-data-load: the row generation and batched insertion engine

    A shallow embedding of [generate/generate.go]: the batch planner
    ([run], [insert]), the per-chunk query builder ([genQuery],
    [generateFieldsRow], [sampleFieldsTable]), the relationship policy
    ([relationship], [createSamplerFromForeignkeyLinks]) and the progress
    channel ([NotifyChan], [notify]).

    Go's [int64] is [Z] with the two's-complement wrap-around written out,
    Go maps are [gmap]s read with the zero value as default, slices are
    windows into a shared row buffer, and everything the code does to the
    outside (the writer, the database, the samplers, the clock, the
    progress channel) goes through a world that is threaded explicitly. *)

From Stdlib Require Import ZArith String List Lia.
From stdpp Require Import gmap strings list.

(** ** 64-bit signed integers *)

Module Int64.

Definition min_int : Z := - 2 ^ 63.
Definition max_int : Z := 2 ^ 63 - 1.

Definition in_range (z : Z) : Prop := (min_int ≤ z ≤ max_int)%Z.

(** Two's-complement reduction of a mathematical integer. *)
Definition wrap (z : Z) : Z := ((z + 2 ^ 63) `mod` 2 ^ 64 - 2 ^ 63)%Z.

Definition add (a b : Z) : Z := wrap (a + b).
Definition sub (a b : Z) : Z := wrap (a - b).
Definition mul (a b : Z) : Z := wrap (a * b).

(** Go's [/] truncates towards zero and panics on a zero divisor; the
    only overflowing case, [min_int / -1], wraps. *)
Definition div (a b : Z) : option Z :=
  if decide (b = 0%Z) then None else Some (wrap (a ÷ b)).

End Int64.

(** ** Errors

    [errors.Wrap(err, msg)] of pkg/errors keeps the cause and adds the
    message; a nil error stays nil. *)

Inductive error : Type :=
| ErrNew (msg : string)
| ErrWrap (cause : error) (msg : string).

Definition errors_Wrap (err : option error) (msg : string) : option error :=
  match err with
  | None => None
  | Some e => Some (ErrWrap e msg)
  end.

(** ** The schema, as package [db] hands it over *)

Record NullInt64 := mkNullInt64 { Int64 : Z; Valid : bool }.

Record Field := mkField {
  ColumnName : string;
  DataType : string;
  IsNullable : bool;
  NumericPrecision : NullInt64;
  NumericScale : NullInt64;
  CharacterMaximumLength : NullInt64;
  SetEnumVals : list string;
}.

Record Constraint := mkConstraint {
  ReferencedTableSchema : string;
  ReferencedTableName : string;
  ReferencedFields : list Field;
}.

Record Table := mkTable {
  Schema : string;
  Name : string;
  Fields : list Field;
  Constraints : list Constraint;
}.

(** ** Values

    A [Getter] is kept as the constructor call that built it; a nil
    interface value is [None].  The constructors themselves live in other
    files of the package. *)

Inductive Getter : Type :=
| NewRandomIntRange (name : string) (min max : Z) (allowNull : bool)
| NewRandomInt (name : string) (mask : Z) (allowNull : bool)
| NewRandomDecimal (name : string) (precision scale : Z) (allowNull : bool)
| NewRandomString (name : string) (maxSize : Z) (allowNull : bool)
| NewRandomDate (name : string) (allowNull : bool)
| NewRandomDateTime (name : string) (allowNull : bool)
| NewRandomTime (allowNull : bool)
| NewRandomEnum (allowedValues : list string) (allowNull : bool)
| NewRandomBinary (name : string) (maxSize : Z) (allowNull : bool)
| SampledValue (text : string).

(** [type InsertValues []Getter] *)
Abbreviation InsertValues := (list (option Getter)).

(** ** Relationship policy *)

Record ForeignKeyLinks := mkForeignKeyLinks {
  DefaultRelationship : string;
  DBRandomOneToMany : gmap string string;
  OneToOne : gmap string string;
}.

(** Reading a Go [map[string]string]: an absent key reads as [""]. *)
Definition map_index (m : gmap string string) (k : string) : string :=
  default "" (m !! k).

Definition relationship (r : ForeignKeyLinks) (tableName refTableName : string)
  : string :=
  if decide (map_index (OneToOne r) tableName = refTableName) then "1-1"
  else if decide (map_index (DBRandomOneToMany r) tableName = refTableName)
       then "db-random-1-n"
       else DefaultRelationship r.

(** A slice of the row buffer: row [sl_row], columns
    [sl_off .. sl_off + sl_len), with room up to [sl_off + sl_cap). *)
Record Slice := mkSlice {
  sl_row : nat;
  sl_off : nat;
  sl_len : nat;
  sl_cap : nat;
}.

(** [s[lo:hi]]: Go panics unless [lo <= hi <= cap(s)]. *)
Definition reslice (s : Slice) (lo hi : nat) : option Slice :=
  if decide (lo ≤ hi ∧ hi ≤ sl_cap s)
  then Some {| sl_row := sl_row s; sl_off := sl_off s + lo;
               sl_len := hi - lo; sl_cap := sl_cap s - lo |}
  else None.

Inductive Sampler : Type :=
| NewUniformSample (fields : list Field) (schema table : string)
    (values : list Slice)
| NewDBRandomSample (fields : list Field) (schema table : string)
    (values : list Slice).

Definition createSamplerFromForeignkeyLinks (fklink : string)
    (constraint : Constraint) (subSlice : list Slice) : Sampler :=
  if decide (fklink = "1-1") then
    NewUniformSample (ReferencedFields constraint)
      (ReferencedTableSchema constraint) (ReferencedTableName constraint)
      subSlice
  else if decide (fklink = "db-random-1-n") then
    NewDBRandomSample (ReferencedFields constraint)
      (ReferencedTableSchema constraint) (ReferencedTableName constraint)
      subSlice
  else
    NewDBRandomSample (ReferencedFields constraint)
      (ReferencedTableSchema constraint) (ReferencedTableName constraint)
      subSlice.

(** ** Type ceilings *)

Definition maxValues : gmap string Z :=
  list_to_map
    [ ("tinyint", 0xF); ("smallint", 0xFF); ("mediumint", 0x7FFFF);
      ("int", 0x7FFFFFFF); ("integer", 0x7FFFFFFF); ("float", 0x7FFFFFFF);
      ("decimal", 0x7FFFFFFF); ("double", 0x7FFFFFFF);
      ("bigint", 0x7FFFFFFFFFFFFFFF) ]%Z.

(** [maxValue := maxValues["bigint"]; if m, ok := maxValues[dt]; ok { maxValue = m }] *)
Definition maxValueOf (dataType : string) : Z :=
  let maxValue := default 0%Z (maxValues !! "bigint") in
  match maxValues !! dataType with
  | Some m => m
  | None => maxValue
  end.

(** ** The outside world

    Everything [generate.go] takes from elsewhere: the pure helpers of
    package [db] and of the value types, and the answers of the
    environment, indexed by the number of calls made to it so far. *)

Inductive Writer : Type :=
| Stdout
| CustomWriter (id : nat).

Record Env := mkEnv {
  db_Escape : string → string;
  db_InsertTemplate : string;
  db_EscapedNamesListFromFields : list Field → string;
  fmt_Sprintf : string → list string → string;
  FieldsToGenerate : Table → list Field;
  FieldsToSample : Table → list Field;
  InsertValues_String : InsertValues → string;
  time_Now_Year : nat → Z;
  writer_Write : nat → Writer → string → option error;
  db_Exec : nat → string → error + Z;
  sampler_Sample : nat → Sampler → list (list Getter) * option error;
  receiver_ready : nat → nat → bool;
}.

Inductive LogEvent : Type :=
| LogError (msg : string) (err : option error) (fields : list (string * string))
| LogDebug (msg : string) (fields : list (string * string)).

(** A statement that left the process, with the answer it got.
    [st_rows] is the chunk size its text was rendered for. *)
Inductive Call : Type :=
| CallWrite (w : Writer) (data : string) (res : option error)
| CallExec (query : string) (res : error + Z).

Record Stmt := mkStmt { st_rows : Z; st_call : Call }.

Inductive ChanEvent : Type :=
| ChMake (c : nat)
| ChClose (c : nat)
| ChSend (c : nat) (n : Z) (delivered : bool).

Record World := mkWorld {
  w_clock : nat;              (* calls made to the environment *)
  w_log : list LogEvent;      (* zerolog output *)
  w_stmts : list Stmt;        (* statements written or executed *)
  w_sampled : list (Sampler * option error);  (* sampler runs and their errors *)
  w_chans : list bool;        (* channels made so far; [true] = open *)
  w_notes : list ChanEvent;   (* channel operations, oldest first *)
}.

(** What [insert] reports for a statement, and the error it returns. *)
Definition committed (s : Stmt) : Z :=
  match st_call s with
  | CallWrite _ _ None => st_rows s
  | CallWrite _ _ (Some _) => 0
  | CallExec _ (inr ra) => ra
  | CallExec _ (inl _) => 0
  end.

Definition failure (s : Stmt) : option error :=
  match st_call s with
  | CallWrite _ _ r => r
  | CallExec _ (inl e) => Some e
  | CallExec _ (inr _) => None
  end.

(** [type Insert struct]; [notifyChan] is nil or the number of a channel
    of the world. *)
Record Insert := mkInsert {
  table : Table;
  writer : Writer;
  notifyChan : option nat;
  fklinks : ForeignKeyLinks;
}.

(** ** Computations: world passing with panics *)

Inductive Res (A : Type) : Type :=
| Ok (a : A) (w : World)
| Panic (msg : string) (w : World).
Arguments Ok {A} a w.
Arguments Panic {A} msg w.

Definition M (A : Type) : Type := World → Res A.

Definition ret {A} (a : A) : M A := fun w => Ok a w.

Definition bind {A B} (m : M A) (k : A → M B) : M B :=
  fun w => match m w with
           | Ok a w' => k a w'
           | Panic msg w' => Panic msg w'
           end.

Definition panic {A} (msg : string) : M A := fun w => Panic msg w.

Notation "x <- m ;; k" := (bind m (fun x => k))
  (at level 100, m at next level, right associativity).
Notation "m ;; k" := (bind m (fun _ => k))
  (at level 100, right associativity).

(** A bounds check that failed is a run-time panic. *)
Definition checked {A} (msg : string) (o : option A) : M A :=
  match o with
  | Some a => ret a
  | None => panic msg
  end.

Fixpoint foldM {A B} (f : A → B → M A) (l : list B) (a : A) : M A :=
  match l with
  | [] => ret a
  | b :: l' => a' <- f a b ;; foldM f l' a'
  end.

Definition tick (w : World) : World :=
  {| w_clock := S (w_clock w); w_log := w_log w; w_stmts := w_stmts w;
     w_sampled := w_sampled w; w_chans := w_chans w; w_notes := w_notes w |}.

Definition logged (ev : LogEvent) (w : World) : World :=
  {| w_clock := w_clock w; w_log := w_log w ++ [ev]; w_stmts := w_stmts w;
     w_sampled := w_sampled w; w_chans := w_chans w; w_notes := w_notes w |}.

Definition log (ev : LogEvent) : M unit := fun w => Ok tt (logged ev w).

Definition issued (s : Stmt) (w : World) : World :=
  {| w_clock := w_clock w; w_log := w_log w; w_stmts := w_stmts w ++ [s];
     w_sampled := w_sampled w; w_chans := w_chans w; w_notes := w_notes w |}.

Definition sampled (s : Sampler) (err : option error) (w : World) : World :=
  {| w_clock := w_clock w; w_log := w_log w; w_stmts := w_stmts w;
     w_sampled := w_sampled w ++ [(s, err)]; w_chans := w_chans w;
     w_notes := w_notes w |}.

Definition noted (chans : list bool) (ev : ChanEvent) (w : World) : World :=
  {| w_clock := w_clock w; w_log := w_log w; w_stmts := w_stmts w;
     w_sampled := w_sampled w; w_chans := chans;
     w_notes := w_notes w ++ [ev] |}.

(** ** The row buffer of a chunk

    [values] is the two-layer slice of [genQuery]; [writes] records who
    stored into which cell, in order. *)

Inductive Phase : Type :=
| Generation
| Sampling (constraintIdx : nat).

Record CellWrite := mkCellWrite {
  cw_by : Phase;
  cw_row : nat;
  cw_col : nat;
  cw_val : option Getter;
}.

Record Chunk := mkChunk {
  values : list InsertValues;
  writes : list CellWrite;
}.

(** [s[j] = v] for [j < len(s)]: the store lands in the backing row. *)
Definition store (who : Phase) (s : Slice) (j : nat) (v : option Getter)
    (ch : Chunk) : Chunk :=
  {| values := alter (fun r : InsertValues => <[sl_off s + j := v]> r) (sl_row s) (values ch);
     writes := writes ch ++ [mkCellWrite who (sl_row s) (sl_off s + j) v] |}.

(** The slice [values[i]] of a buffer whose rows have [width] cells. *)
Definition row_slice (width i : nat) : Slice :=
  {| sl_row := i; sl_off := 0; sl_len := width; sl_cap := width |}.

Section Engine.

Variable E : Env.

Definition now_year : M Z := fun w => Ok (time_Now_Year E (w_clock w)) (tick w).

(** The [switch field.DataType] of [generateFieldsRow]: the value for
    one column, nil for a type that no case names. *)
Definition generateValue (field : Field) : M (option Getter) :=
  let dt := DataType field in
  if decide (dt ∈ ["tinyint"; "bit"; "bool"; "boolean"]) then
    ret (Some (NewRandomIntRange (ColumnName field) 0 1 (IsNullable field)))
  else if decide (dt ∈ ["smallint"; "mediumint"; "int"; "integer"; "bigint"]) then
    ret (Some (NewRandomInt (ColumnName field) (maxValueOf dt) (IsNullable field)))
  else if decide (dt ∈ ["float"; "decimal"; "double"; "numeric"]) then
    ret (Some (NewRandomDecimal (ColumnName field)
                 (Int64 (NumericPrecision field)) (Int64 (NumericScale field))
                 (IsNullable field)))
  else if decide (dt ∈ ["char"; "varchar"]) then
    ret (Some (NewRandomString (ColumnName field)
                 (Int64 (CharacterMaximumLength field)) (IsNullable field)))
  else if decide (dt = "date") then
    ret (Some (NewRandomDate (ColumnName field) (IsNullable field)))
  else if decide (dt ∈ ["datetime"; "timestamp"]) then
    ret (Some (NewRandomDateTime (ColumnName field) (IsNullable field)))
  else if decide (dt ∈ ["tinyblob"; "tinytext"; "blob"; "text"; "mediumtext";
                        "mediumblob"; "longblob"; "longtext"]) then
    ret (Some (NewRandomString (ColumnName field)
                 (Int64 (CharacterMaximumLength field)) (IsNullable field)))
  else if decide (dt = "time") then
    ret (Some (NewRandomTime (IsNullable field)))
  else if decide (dt = "year") then
    y1 <- now_year ;;
    y2 <- now_year ;;
    ret (Some (NewRandomIntRange (ColumnName field) (y1 - 1) y2 (IsNullable field)))
  else if decide (dt ∈ ["enum"; "set"]) then
    ret (Some (NewRandomEnum (SetEnumVals field) (IsNullable field)))
  else if decide (dt ∈ ["binary"; "varbinary"]) then
    ret (Some (NewRandomBinary (ColumnName field)
                 (Int64 (CharacterMaximumLength field)) (IsNullable field)))
  else
    log (LogError "unsupported datatypes when generating fields" None
           [("type", dt); ("field", ColumnName field)]) ;;
    ret None.

(** [for colIndex := range insertValues { ... insertValues[colIndex] = value }] *)
Definition generateFieldsRow (fields : list Field) (insertValues : Slice)
    (ch : Chunk) : M Chunk :=
  foldM (fun ch colIndex =>
           field <- checked "index out of range" (fields !! colIndex) ;;
           value <- generateValue field ;;
           ret (store Generation insertValues colIndex value ch))
        (seq 0 (sl_len insertValues)) ch.

(** ** Sampling *)

Definition Sample (sampler : Sampler) : M (list (list Getter) * option error) :=
  fun w =>
    let r := sampler_Sample E (w_clock w) sampler in
    Ok r (sampled sampler r.2 (tick w)).

(** What a sampler stores through its sub-view: cell [j] of row [i] of
    its answer goes to [subSlice[i][j]], for [j < len(subSlice[i])]. *)
Definition store_row (who : Phase) (s : Slice) (cells : list Getter)
    (ch : Chunk) : Chunk :=
  foldl (fun ch jv => store who s jv.1 (Some jv.2) ch) ch
        (imap (fun j v => (j, v)) (take (sl_len s) cells)).

Definition store_sample (who : Phase) (subSlice : list Slice)
    (cells : list (list Getter)) (ch : Chunk) : Chunk :=
  foldl (fun ch sc => store_row who sc.1 sc.2 ch) ch (zip subSlice cells).

(** The loop of [sampleFieldsTable] over [in.table.Constraints], with
    [colIdx] as it stands on entry and [k] the position of the
    constraint. *)
Fixpoint sampleConstraints (i : Insert) (values : list Slice)
    (constraints : list Constraint) (k colIdx : nat) (ch : Chunk)
    : M (option error * Chunk) :=
  match constraints with
  | [] => ret (None, ch)
  | constraint :: rest =>
      let hi := colIdx + length (ReferencedFields constraint) in
      subSlice <- checked "slice bounds out of range"
                    (mapM (fun v => reslice v colIdx hi) values) ;;
      let fklink := relationship (fklinks i) (Name (table i))
                      (ReferencedTableName constraint) in
      let sampler := createSamplerFromForeignkeyLinks fklink constraint subSlice in
      r <- Sample sampler ;;
      let ch' := store_sample (Sampling k) subSlice r.1 ch in
      match r.2 with
      | Some err => ret (errors_Wrap (Some err) "sampleFieldsTable", ch')
      | None => sampleConstraints i values rest (S k) hi ch'
      end
  end.

Definition sampleFieldsTable (i : Insert) (fields : list Field)
    (values : list Slice) (ch : Chunk) : M (option error * Chunk) :=
  sampleConstraints i values (Constraints (table i)) 0 0 ch.

(** ** Building a chunk *)

Definition insertHeader (i : Insert) : string :=
  fmt_Sprintf E (db_InsertTemplate E)
    [ db_Escape E (Schema (table i));
      db_Escape E (Name (table i));
      db_EscapedNamesListFromFields E
        (FieldsToGenerate E (table i) ++ FieldsToSample E (table i)) ].

(** [values := make([]InsertValues, count)], each row
    [make(InsertValues, width)]: all cells nil. *)
Definition make_values (count : Z) (width : nat) : list InsertValues :=
  replicate (Z.to_nat count) (replicate width None).

(** The first goroutine: [generateFieldsRow(fieldsToGen, values[i][:len(fieldsToGen)])]
    for every row. *)
Definition generationPhase (fieldsToGen : list Field) (count : Z)
    (width : nat) (ch : Chunk) : M Chunk :=
  foldM (fun ch i =>
           s <- checked "slice bounds out of range"
                  (reslice (row_slice width i) 0 (length fieldsToGen)) ;;
           generateFieldsRow fieldsToGen s ch)
        (seq 0 (Z.to_nat count)) ch.

(** The second goroutine: [sampledValues[i] = values[i][len(fieldsToGen):]],
    then [sampleFieldsTable]; its error is logged. *)
Definition samplingPhase (i : Insert) (fieldsToGen fieldsToSample : list Field)
    (count : Z) (width : nat) (ch : Chunk) : M Chunk :=
  sampledValues <- checked "slice bounds out of range"
                     (mapM (fun r => reslice (row_slice width r)
                                       (length fieldsToGen) width)
                           (seq 0 (Z.to_nat count))) ;;
  r <- sampleFieldsTable i fieldsToSample sampledValues ch ;;
  match r.1 with
  | Some err => log (LogError "error when sampling field" (Some err) []) ;; ret r.2
  | None => ret r.2
  end.

(** Both goroutines and the [wg.Wait()].  Their stores never meet, and
    the buffer is the same for every interleaving of the two
    ([stores_interleave]), so the generation phase is run first. *)
Definition fillChunk (i : Insert) (count : Z) : M Chunk :=
  let fieldsToGen := FieldsToGenerate E (table i) in
  let fieldsToSample := FieldsToSample E (table i) in
  let width := length fieldsToGen + length fieldsToSample in
  let ch0 := {| values := make_values count width; writes := [] |} in
  ch1 <- (if decide (length fieldsToGen ≠ 0)
          then generationPhase fieldsToGen count width ch0 else ret ch0) ;;
  if decide (length fieldsToSample ≠ 0)
  then samplingPhase i fieldsToGen fieldsToSample count width ch1
  else ret ch1.

(** The rendering loop: [row] is the index of the head of [rows] in
    the buffer of [len] rows; a nil row is passed over. *)
Fixpoint renderRows (len : nat) (row : nat) (rows : list (option InsertValues))
    (insertQuery : string) : string :=
  match rows with
  | [] => insertQuery
  | None :: rest => renderRows len (S row) rest insertQuery
  | Some v :: rest =>
      let q := insertQuery +:+ InsertValues_String E v in
      let q := if decide (Z.of_nat row ≠ (Z.of_nat len - 1)%Z)
               then q +:+ "," else q in
      renderRows len (S row) rest q
  end.

(** Rows made by [make] are never nil slices. *)
Definition renderValues (i : Insert) (vs : list InsertValues) : string :=
  renderRows (length vs) 0 (Some <$> vs) (insertHeader i).

(** [genQuery]; nil for a count below one.  [WriteString] of a
    [strings.Builder] never returns an error, so the log line of that
    branch is never written. *)
Definition genQuery (i : Insert) (count : Z) : M (option string) :=
  if decide (count < 1)%Z then ret None
  else
    log (LogDebug "genQuery init"
           [ ("fieldsToGen",
              db_EscapedNamesListFromFields E (FieldsToGenerate E (table i)));
             ("fieldsToSample",
              db_EscapedNamesListFromFields E (FieldsToSample E (table i)));
             ("table", Name (table i)); ("schema", Schema (table i)) ]) ;;
    ch <- fillChunk i count ;;
    ret (Some (renderValues i (values ch))).

(** ** Issuing a statement *)

(** [in.writer.Write] and [db.DB.Exec] with [RowsAffected]: the
    environment answers, and the call is recorded; [rows] only labels
    the record with the size of the chunk. *)
Definition Write (wr : Writer) (rows : Z) (data : string) : M (option error) :=
  fun w =>
    let res := writer_Write E (w_clock w) wr data in
    Ok res (issued (mkStmt rows (CallWrite wr data res)) (tick w)).

Definition Exec (rows : Z) (query : string) : M (error + Z) :=
  fun w =>
    let res := db_Exec E (w_clock w) query in
    Ok res (issued (mkStmt rows (CallExec query res)) (tick w)).

Definition newline : string := String (Ascii.ascii_of_nat 10) EmptyString.

Definition insert (i : Insert) (count : Z) (dryRun : bool)
    : M (Z * option error) :=
  if decide (count < 1)%Z then ret (0%Z, None)
  else
    insertQuery <- genQuery i count ;;
    q <- checked "nil pointer dereference" insertQuery ;;
    if dryRun then
      r <- Write (writer i) count (q +:+ newline) ;;
      match r with
      | Some err => ret (0%Z, Some err)
      | None => ret (count, None)
      end
    else
      r <- Exec count q ;;
      match r with
      | inl err =>
          log (LogError "failed to insert" (Some err) [("query", q)]) ;;
          ret (0%Z, Some err)
      | inr ra => ret (ra, None)
      end.

(** ** The progress channel *)

Definition make_chan : M nat := fun w =>
  let c := length (w_chans w) in
  Ok c (noted (w_chans w ++ [true]) (ChMake c) w).

(** Closing a closed channel panics. *)
Definition close_chan (c : nat) : M unit := fun w =>
  match w_chans w !! c with
  | Some true => Ok tt (noted (<[c := false]> (w_chans w)) (ChClose c) w)
  | _ => Panic "close of closed channel" w
  end.

(** [select { case ch <- n: default: }] on an unbuffered channel: the
    value goes through if a receiver is waiting and is dropped
    otherwise; on a closed channel the send panics. *)
Definition try_send (c : nat) (n : Z) : M unit := fun w =>
  match w_chans w !! c with
  | Some true =>
      let delivered := receiver_ready E (w_clock w) c in
      Ok tt (noted (w_chans w) (ChSend c n delivered) (tick w))
  | _ => Panic "send on closed channel" w
  end.

Definition NotifyChan (i : Insert) : M (Insert * nat) :=
  (match notifyChan i with
   | Some old => close_chan old
   | None => ret tt
   end) ;;
  c <- make_chan ;;
  ret ({| table := table i; writer := writer i; notifyChan := Some c;
          fklinks := fklinks i |}, c).

Definition notify (i : Insert) (n : Z) : M unit :=
  match notifyChan i with
  | Some c => try_send c n
  | None => ret tt
  end.

(** ** The batch planner *)

(** [for i := int64(0); i < completeInserts; i++]: [todo] iterations
    are left, [okCount] is the sum so far.  The result is the pair
    [run] returns, early or after the remainder. *)
Fixpoint runLoop (i : Insert) (todo : nat) (bulksize remainder : Z)
    (dryRun : bool) (okCount : Z) : M (Z * option error) :=
  match todo with
  | O =>
      r <- insert i remainder dryRun ;;
      let okCount := Int64.add okCount r.1 in
      notify i r.1 ;;
      ret (okCount, r.2)
  | S todo' =>
      r <- insert i bulksize dryRun ;;
      let okCount := Int64.add okCount r.1 in
      match r.2 with
      | Some err => ret (okCount, Some err)
      | None =>
          notify i r.1 ;;
          runLoop i todo' bulksize remainder dryRun okCount
      end
  end.

Definition runBody (i : Insert) (count bulksize : Z) (dryRun : bool)
    : M (Z * option error) :=
  completeInserts <- checked "integer divide by zero" (Int64.div count bulksize) ;;
  let remainder := Int64.sub count (Int64.mul completeInserts bulksize) in
  runLoop i (Z.to_nat completeInserts) bulksize remainder dryRun 0%Z.

(** [defer close(in.notifyChan)]: runs when the body returns and also
    when it panics. *)
Definition deferred {A} (d : M unit) (body : M A) : M A := fun w =>
  match body w with
  | Ok a w' =>
      match d w' with
      | Ok _ w'' => Ok a w''
      | Panic msg w'' => Panic msg w''
      end
  | Panic msg w' =>
      match d w' with
      | Ok _ w'' => Panic msg w''
      | Panic msg' w'' => Panic msg' w''
      end
  end.

Definition run (i : Insert) (count bulksize : Z) (dryRun : bool)
    : M (Z * option error) :=
  match notifyChan i with
  | Some c => deferred (close_chan c) (runBody i count bulksize dryRun)
  | None => runBody i count bulksize dryRun
  end.

Definition Run (i : Insert) (count bulksize : Z) := run i count bulksize false.
Definition DryRun (i : Insert) (count bulksize : Z) := run i count bulksize true.

End Engine.

Definition New (t : Table) (fk : ForeignKeyLinks) : Insert :=
  {| table := t; writer := Stdout; notifyChan := None; fklinks := fk |}.

Definition SetWriter (i : Insert) (w : Writer) : Insert :=
  {| table := table i; writer := w; notifyChan := notifyChan i;
     fklinks := fklinks i |}.

(** ** A small schema and environments to run the engine on *)

Module Shop.

Definition null0 : NullInt64 := mkNullInt64 0 false.

Definition column (name dataType : string) : Field :=
  {| ColumnName := name; DataType := dataType; IsNullable := false;
     NumericPrecision := null0; NumericScale := null0;
     CharacterMaximumLength := null0; SetEnumVals := [] |}.

(** [orders(area geometry, amount int, customer_id -> customers.id)] *)
Definition orders : Table :=
  {| Schema := "shop"; Name := "orders";
     Fields := [column "area" "geometry"; column "amount" "int";
                column "customer_id" "int"];
     Constraints :=
       [ {| ReferencedTableSchema := "shop";
            ReferencedTableName := "customers";
            ReferencedFields := [column "id" "int"] |} ] |}.

Definition policy : ForeignKeyLinks :=
  {| DefaultRelationship := "db-random-1-n";
     DBRandomOneToMany := ∅; OneToOne := ∅ |}.

Definition show (g : option Getter) : string :=
  match g with
  | None => "NULL"
  | Some (SampledValue t) => t
  | Some _ => "?"
  end.

(** An environment whose writer answers [write] at each call, whose
    database takes every statement, and whose samplers all end with
    [sampleErr]. *)
Definition env (write : nat → option error) (sampleErr : option error) : Env :=
  {| db_Escape := fun s => s;
     db_InsertTemplate := "INSERT INTO";
     db_EscapedNamesListFromFields := fun fs => String.concat "," (ColumnName <$> fs);
     fmt_Sprintf := fun t args => String.concat " " (t :: args) +:+ " VALUES ";
     FieldsToGenerate := fun t => take 2 (Fields t);
     FieldsToSample := fun t => drop 2 (Fields t);
     InsertValues_String := fun vs => "(" +:+ String.concat "," (show <$> vs) +:+ ")";
     time_Now_Year := fun _ => 2024%Z;
     writer_Write := fun t _ _ => write t;
     db_Exec := fun _ _ => inr 1%Z;
     sampler_Sample := fun _ _ => (replicate 4 [SampledValue "7"], sampleErr);
     receiver_ready := fun _ _ => false |}.

Definition calm : Env := env (fun _ => None) None.

(** The writer fails at the fourth call to the outside, which is the
    write of the second statement. *)
Definition failing_writer : Env :=
  env (fun t => if decide (t = 3) then Some (ErrNew "disk full") else None) None.

Definition failing_sampler : Env :=
  env (fun _ => None) (Some (ErrNew "connection refused")).

Definition world0 : World :=
  {| w_clock := 0; w_log := []; w_stmts := []; w_sampled := [];
     w_chans := []; w_notes := [] |}.

Definition ins : Insert := New orders policy.

(** The same [Insert] after [NotifyChan], and the world in which its
    channel is open. *)
Definition listening : Insert :=
  {| table := orders; writer := Stdout; notifyChan := Some 0;
     fklinks := policy |}.

Definition world1 : World :=
  {| w_clock := 0; w_log := []; w_stmts := []; w_sampled := [];
     w_chans := [true]; w_notes := [ChMake 0] |}.

(** A table whose only constraint references two columns although one
    column is left to sample. *)
Definition wide : Table :=
  {| Schema := "shop"; Name := "orders";
     Fields := [column "area" "geometry"; column "amount" "int";
                column "customer_id" "int"];
     Constraints :=
       [ {| ReferencedTableSchema := "shop";
            ReferencedTableName := "customers";
            ReferencedFields := [column "id" "int"; column "region" "int"] |} ] |}.

End Shop.

(** ** Vocabulary of the statements below *)

(** Worlds that differ by log lines, sampler runs and clock ticks only:
    no statement was issued and no channel was touched. *)
Record quiet (w w' : World) : Prop := mkQuiet {
  quiet_log : w_log w `prefix_of` w_log w';
  quiet_sampled : w_sampled w `prefix_of` w_sampled w';
  quiet_stmts : w_stmts w' = w_stmts w;
  quiet_chans : w_chans w' = w_chans w;
  quiet_notes : w_notes w' = w_notes w;
}.

(** The type names some case of the switch lists. *)
Definition recognized (dt : string) : Prop :=
  dt ∈ [ "tinyint"; "bit"; "bool"; "boolean";
         "smallint"; "mediumint"; "int"; "integer"; "bigint";
         "float"; "decimal"; "double"; "numeric";
         "char"; "varchar"; "date"; "datetime"; "timestamp";
         "tinyblob"; "tinytext"; "blob"; "text"; "mediumtext"; "mediumblob";
         "longblob"; "longtext"; "time"; "year"; "enum"; "set";
         "binary"; "varbinary" ].

Definition unsupported_log (field : Field) : LogEvent :=
  LogError "unsupported datatypes when generating fields" None
    [("type", DataType field); ("field", ColumnName field)].

(** The cell at row [r], column [c] of the buffer, if there is one. *)
Definition cell (ch : Chunk) (r c : nat) : option (option Getter) :=
  values ch !! r ≫= (fun row : InsertValues => row !! c).

Definition cell_of (vs : list InsertValues) (r c : nat)
    : option (option Getter) :=
  vs !! r ≫= (fun row : InsertValues => row !! c).

(** The buffer after a list of stores, oldest first. *)
Definition replay (ws : list CellWrite) (vs : list InsertValues)
    : list InsertValues :=
  foldl (fun vs cw =>
           alter (fun r : InsertValues => <[cw_col cw := cw_val cw]> r)
                 (cw_row cw) vs) vs ws.

(** The buffer of a chunk is what its recorded stores make of [vs0]. *)
Definition recorded (vs0 : list InsertValues) (ch : Chunk) : Prop :=
  values ch = replay (writes ch) vs0.

#[global] Instance Phase_eq_dec : EqDecision Phase.
Proof. solve_decision. Defined.

(** The row lengths of the buffer. *)
Definition shape (ch : Chunk) : list nat := length <$> values ch.

(** The number of columns a constraint samples, and the first column of
    the [k]-th constraint within the sampled part of a row. *)
Definition width (c : Constraint) : nat := length (ReferencedFields c).

Definition colStart (cs : list Constraint) (k : nat) : nat :=
  sum_list (width <$> take k cs).

(** The columns each phase may store into: the generation phase the
    first [nGen], the sampler of constraint [k] its own run of columns
    behind them. *)
Definition owned (nGen : nat) (cs : list Constraint) (cw : CellWrite) : Prop :=
  match cw_by cw with
  | Generation => cw_col cw < nGen
  | Sampling k =>
      k < length cs ∧
      nGen + colStart cs k ≤ cw_col cw < nGen + colStart cs (S k)
  end.

(** The constraints fit into the sample columns (nothing is asked when
    there is no sample column: the sampling phase is not started). *)
Definition table_wf (E : Env) (t : Table) : Prop :=
  length (FieldsToSample E t) = 0 ∨
  sum_list (width <$> Constraints t) ≤ length (FieldsToSample E t).

Definition sampling_log (e : error) : LogEvent :=
  LogError "error when sampling field"
    (Some (ErrWrap e "sampleFieldsTable")) [].

(** How the sampler runs of one chunk can end: all without error, or
    with one failing run, the last one, whose wrapped error is in the
    log. *)
Definition sampling_outcome (calls : list (Sampler * option error))
    (w' : World) : Prop :=
  Forall (fun c => c.2 = None) calls ∨
  ∃ pre s e, calls = pre ++ [(s, Some e)] ∧
             Forall (fun c => c.2 = None) pre ∧
             sampling_log e ∈ w_log w'.

(** The text of a statement is the header followed by the rows of a
    buffer of [st_rows] rows, sent where the mode says. *)
Definition rendered (E : Env) (i : Insert) (s : Stmt) : Prop :=
  ∃ vs : list InsertValues,
    length vs = Z.to_nat (st_rows s) ∧
    match st_call s with
    | CallWrite wr data _ => wr = writer i ∧ data = renderValues E i vs +:+ newline
    | CallExec q _ => q = renderValues E i vs
    end.

Definition is_dry (s : Stmt) : bool :=
  match st_call s with
  | CallWrite _ _ _ => true
  | CallExec _ _ => false
  end.

Definition sumZ (l : list Z) : Z := foldr Z.add 0%Z l.

(** The sizes [run] hands to [insert] that lead to a statement: the
    complete inserts and the remainder, without those below one row. *)
Definition chunks (todo : nat) (bulksize remainder : Z) : list Z :=
  filter (fun n => (1 ≤ n)%Z) (replicate todo bulksize ++ [remainder]).

Definition planned (count bulksize : Z) : list Z :=
  chunks (Z.to_nat (count ÷ bulksize)) bulksize
         (count - count ÷ bulksize * bulksize).

(** How a run ends: every statement of the plan was issued and none
    failed, or the statements issued are the plan up to the first one
    that failed, whose error is returned. *)
Definition run_outcome (ss : list Stmt) (err : option error) (plan : list Z)
    : Prop :=
  (Forall (fun s => failure s = None) ss ∧ err = None ∧ st_rows <$> ss = plan) ∨
  (∃ pre s e, ss = pre ++ [s] ∧ Forall (fun s => failure s = None) pre ∧
              failure s = Some e ∧ err = Some e ∧
              (st_rows <$> ss) `prefix_of` plan).

(** The progress channel, if one was requested, is still open. *)
Definition chan_ready (i : Insert) (w : World) : Prop :=
  match notifyChan i with
  | Some c => w_chans w !! c = Some true
  | None => True
  end.

Definition debug_log (E : Env) (i : Insert) : LogEvent :=
  LogDebug "genQuery init"
    [ ("fieldsToGen",
       db_EscapedNamesListFromFields E (FieldsToGenerate E (table i)));
      ("fieldsToSample",
       db_EscapedNamesListFromFields E (FieldsToSample E (table i)));
      ("table", Name (table i)); ("schema", Schema (table i)) ].

(** What [notify] adds to the channel operations. *)
Definition notification (E : Env) (i : Insert) (n : Z) (w : World)
    : list ChanEvent :=
  match notifyChan i with
  | Some c => [ChSend c n (receiver_ready E (w_clock w) c)]
  | None => []
  end.

(** Modelled from the spec: the value types ([RandomInt],
    [RandomIntRange]) are not in [generate.go].  The spec gives the
    integer of such a value as "uniform integer in [0, typeMax]" and, for
    the range form, in [min, max]; [r] is the random draw, and a draw
    that runs over all integers reaches every value of the range. *)
Definition int_value (g : Getter) (r : Z) : option Z :=
  match g with
  | NewRandomIntRange _ min max _ => Some (min + r `mod` (max - min + 1))%Z
  | NewRandomInt _ mask _ => Some (r `mod` (mask + 1))%Z
  | _ => None
  end.

(** The ceiling the dispatch gives an integer column. *)
Definition typeMax (dt : string) : Z :=
  if decide (dt ∈ ["tinyint"; "bit"; "bool"; "boolean"]) then 1%Z
  else maxValueOf dt.

(** Membership in a list of literals, settled by cases. *)
Ltac mem_cases H :=
  repeat (apply elem_of_cons in H as [H|H]; [subst|]);
  try (apply elem_of_nil in H; destruct H).

Ltac mem_lit := apply (bool_decide_unpack _); vm_compute; reflexivity.

(** The world a computation ends in, whether it returns or panics. *)
Definition world_of {A} (r : Res A) : World :=
  match r with
  | Ok _ w => w
  | Panic _ w => w
  end.

(** A computation that makes, closes and reopens no channel, whatever
    its outcome. *)
Definition keeps_chans {A} (m : M A) : Prop :=
  ∀ w, w_chans (world_of (m w)) = w_chans w.

(** ** Vocabulary of the further properties *)

(** The answer recorded with a statement is an answer of the
    environment to that very call. *)
Definition answered (E : Env) (s : Stmt) : Prop :=
  match st_call s with
  | CallWrite wr data res => ∃ t, res = writer_Write E t wr data
  | CallExec q res => ∃ t, res = db_Exec E t q
  end.

(** The channel operations [evs] are sends of the values [ns], in
    order, on the channel of the [Insert]; none without a channel. *)
Definition sent (i : Insert) (evs : list ChanEvent) (ns : list Z) : Prop :=
  match notifyChan i with
  | None => evs = []
  | Some c => ∃ ds, length ds = length ns ∧ evs = zip_with (ChSend c) ns ds
  end.

(** The values [run] notifies, against the statements it issued: one
    per statement and a last zero for a remainder that was skipped; a
    statement of the loop that fails is not notified, a failing
    remainder is, with zero. *)
Definition notified (todo : nat) (remainder : Z) (ss : list Stmt)
    (err : option error) (ns : list Z) : Prop :=
  (Forall (fun s => failure s = None) ss ∧ err = None ∧
   ns = (committed <$> ss)
        ++ (if decide (1 ≤ remainder)%Z then [] else [0%Z]))
  ∨ (∃ pre s e, ss = pre ++ [s] ∧ Forall (fun s => failure s = None) pre ∧
       failure s = Some e ∧ err = Some e ∧ length pre < todo ∧
       ns = committed <$> pre)
  ∨ (∃ pre s e, ss = pre ++ [s] ∧ Forall (fun s => failure s = None) pre ∧
       failure s = Some e ∧ err = Some e ∧ length pre = todo ∧
       ns = (committed <$> pre) ++ [0%Z]).

(** The view of row [r] the sampler of a constraint is given: the
    cells of its referenced fields, [colIdx] columns into the sampled
    part of the row, with the rest of the row as spare capacity. *)
Definition sub_view (nGen nSample colIdx : nat) (c : Constraint) (r : nat)
    : Slice :=
  {| sl_row := r; sl_off := nGen + colIdx; sl_len := width c;
     sl_cap := nSample - colIdx |}.

(** What [insert] adds to the log behind the lines of [genQuery]. *)
Definition exec_log (s : Stmt) : list LogEvent :=
  match st_call s with
  | CallExec q (inl e) => [LogError "failed to insert" (Some e) [("query", q)]]
  | _ => []
  end.

(** * Properties *)

(** ** Arithmetic on [int64] *)

Lemma wrap_id z : Int64.in_range z → Int64.wrap z = z.
Proof.
  unfold Int64.in_range, Int64.min_int, Int64.max_int, Int64.wrap. intros Hz.
  rewrite Z.mod_small; lia.
Qed.

Lemma wrap_add_l a b : Int64.wrap (Int64.wrap a + b) = Int64.wrap (a + b).
Proof.
  unfold Int64.wrap.
  replace ((a + 2 ^ 63) `mod` 2 ^ 64 - 2 ^ 63 + b + 2 ^ 63)%Z
    with ((a + 2 ^ 63) `mod` 2 ^ 64 + b)%Z by lia.
  rewrite Zplus_mod_idemp_l. do 2 f_equal. lia.
Qed.

Lemma quot_nonneg_bounds a b :
  (0 ≤ a)%Z → (1 ≤ b)%Z →
  (a ÷ b = a `div` b ∧ 0 ≤ a ÷ b ≤ a ∧ 0 ≤ a - a ÷ b * b < b)%Z.
Proof.
  intros Ha Hb. rewrite Z.quot_div_nonneg by lia.
  pose proof (Z.div_mod a b ltac:(lia)) as Hdm.
  pose proof (Z.mod_pos_bound a b ltac:(lia)) as Hm.
  assert (0 ≤ a `div` b)%Z by (apply Z.div_pos; lia).
  split; [done|]. split; nia.
Qed.

Lemma quot_nonpos_bounds a b :
  (a ≤ 0)%Z → (1 ≤ b)%Z →
  (a ≤ a ÷ b ≤ 0 ∧ - b < a - a ÷ b * b ≤ 0)%Z.
Proof.
  intros Ha Hb.
  destruct (quot_nonneg_bounds (- a) b) as (_ & Hq & Hr); [lia..|].
  rewrite Z.quot_opp_l in Hq, Hr by lia. lia.
Qed.

(** With a positive divisor nothing in the chunk plan overflows: the
    quotient is the truncated one and the remainder is what is left. *)
Lemma plan_arith count bulksize :
  Int64.in_range count → Int64.in_range bulksize → (1 ≤ bulksize)%Z →
  Int64.div count bulksize = Some (count ÷ bulksize)%Z ∧
  Int64.sub count (Int64.mul (count ÷ bulksize) bulksize)
  = (count - count ÷ bulksize * bulksize)%Z.
Proof.
  intros Hc Hb H1. unfold Int64.div, Int64.sub, Int64.mul.
  assert (Hq : Int64.in_range (count ÷ bulksize) ∧
               Int64.in_range (count ÷ bulksize * bulksize) ∧
               Int64.in_range (count - count ÷ bulksize * bulksize)).
  { unfold Int64.in_range, Int64.min_int, Int64.max_int in *.
    destruct (Z.le_ge_cases 0 count) as [Hpos|Hneg].
    - destruct (quot_nonneg_bounds count bulksize) as (_ & ? & ?); lia.
    - destruct (quot_nonpos_bounds count bulksize) as (? & ?); lia. }
  destruct Hq as (Hq1 & Hq2 & Hq3).
  case_decide; [lia|].
  rewrite !wrap_id; auto. rewrite wrap_id; auto.
Qed.

(** ** Stepping through a computation *)

Lemma bind_ok {A B} (m : M A) (k : A → M B) w a w' :
  m w = Ok a w' → bind m k w = k a w'.
Proof. unfold bind. by intros ->. Qed.

Lemma bind_panic {A B} (m : M A) (k : A → M B) w msg w' :
  m w = Panic msg w' → bind m k w = Panic msg w'.
Proof. unfold bind. by intros ->. Qed.

Lemma checked_ok {A} msg (o : option A) a w :
  o = Some a → checked msg o w = Ok a w.
Proof. by intros ->. Qed.

(** ** Quiet steps *)

Lemma quiet_refl w : quiet w w.
Proof. by split. Qed.

Lemma quiet_trans w1 w2 w3 : quiet w1 w2 → quiet w2 w3 → quiet w1 w3.
Proof.
  intros [] []. split; [by etrans | by etrans | congruence..].
Qed.

Lemma quiet_tick w : quiet w (tick w).
Proof. by split. Qed.

Lemma quiet_logged_step ev w : quiet w (logged ev w).
Proof. split; simpl; try done. by apply prefix_app_r. Qed.

Lemma quiet_sampled_step s err w : quiet w (sampled s err w).
Proof. split; simpl; try done. by apply prefix_app_r. Qed.

Lemma quiet_logged ev w w' : ev ∈ w_log w → quiet w w' → ev ∈ w_log w'.
Proof.
  intros Hev [[k Hk] _ _ _ _]. rewrite Hk. apply elem_of_app. by left.
Qed.

(** ** The type dispatch *)

Section Dispatch.

Variable E : Env.

Lemma generateValue_spec field w :
  ∃ v w', generateValue E field w = Ok v w' ∧ quiet w w' ∧
    w_sampled w' = w_sampled w ∧
    (recognized (DataType field) → is_Some v) ∧
    (¬ recognized (DataType field) →
       v = None ∧ w_log w' = w_log w ++ [unsupported_log field]).
Proof.
  unfold generateValue, recognized.
  repeat case_decide;
    try (eexists _, w; split; [reflexivity|];
         split; [apply quiet_refl|]; split; [done|]; split; [eauto|];
         intros Hn; exfalso; apply Hn;
         match goal with
         | H : DataType field ∈ _ |- _ => revert H; generalize (DataType field); intros dt H; clear -H; mem_cases H; mem_lit
         | H : DataType field = _ |- _ => rewrite H; mem_lit
         end).
  - eexists _, _. split; [reflexivity|]. split.
    + eapply quiet_trans; apply quiet_tick.
    + split; [done|]. split; [eauto|]. intros Hn; exfalso; apply Hn.
      match goal with H : DataType field = _ |- _ => rewrite H; mem_lit end.
  - eexists _, _. split; [reflexivity|]. split; [|split; [done|split]].
    + apply quiet_logged_step.
    + intros Hr. exfalso.
      revert Hr. repeat match goal with H : ¬ _ |- _ => revert H end.
      generalize (DataType field). intros dt. intros.
      mem_cases Hr;
        match goal with
        | H : ¬ _ |- _ => apply H; first [reflexivity | mem_lit]
        end.
    + done.
Qed.

End Dispatch.

(** ** Stores into the row buffer *)

Lemma store_shape who s j v ch : shape (store who s j v ch) = shape ch.
Proof.
  unfold shape, store; simpl. apply list_eq. intros r.
  rewrite !list_lookup_fmap.
  destruct (decide (sl_row s = r)) as [<-|Hne].
  - rewrite list_lookup_alter_eq. destruct (values ch !! sl_row s) as [row|]; simpl.
    + by rewrite length_insert.
    + done.
  - by rewrite list_lookup_alter_ne.
Qed.

Lemma store_writes who s j v ch :
  writes (store who s j v ch)
  = writes ch ++ [mkCellWrite who (sl_row s) (sl_off s + j) v].
Proof. done. Qed.

Lemma store_cell_eq who s j v ch :
  is_Some (cell ch (sl_row s) (sl_off s + j)) →
  cell (store who s j v ch) (sl_row s) (sl_off s + j) = Some v.
Proof.
  unfold cell, store; simpl. intros [x Hx].
  rewrite list_lookup_alter_eq.
  destruct (values ch !! sl_row s) as [row|]; simpl in *; [|done].
  apply list_lookup_insert_eq. by eapply lookup_lt_Some.
Qed.

Lemma store_cell_ne who s j v ch r c :
  r ≠ sl_row s ∨ c ≠ sl_off s + j →
  cell (store who s j v ch) r c = cell ch r c.
Proof.
  unfold cell, store; simpl. intros Hne.
  destruct (decide (sl_row s = r)) as [<-|Hr].
  - rewrite list_lookup_alter_eq.
    destruct (values ch !! sl_row s) as [row|]; simpl; [|done].
    apply list_lookup_insert_ne. destruct Hne as [Hr|Hc]; [done|congruence].
  - by rewrite list_lookup_alter_ne.
Qed.

Lemma shape_cell ch ch' r c :
  shape ch' = shape ch → is_Some (cell ch r c) → is_Some (cell ch' r c).
Proof.
  unfold shape, cell. intros Hs [x Hx].
  assert (Hr : (length <$> values ch') !! r = (length <$> values ch) !! r)
    by by rewrite Hs.
  rewrite !list_lookup_fmap in Hr.
  destruct (values ch !! r) as [row|]; simpl in *; [|done].
  destruct (values ch' !! r) as [row'|]; simpl in *; [|done].
  apply lookup_lt_is_Some. apply lookup_lt_Some in Hx.
  injection Hr as ->. done.
Qed.

Section GenerateRow.

Variable E : Env.

(** One pass of [generateFieldsRow] over the column indices [l]. *)
Lemma generateFieldsRow_loop fields s l ch w :
  NoDup l → (∀ j, j ∈ l → j < length fields) →
  ∃ ch' w',
    foldM (fun ch colIndex =>
             field <- checked "index out of range" (fields !! colIndex) ;;
             value <- generateValue E field ;;
             ret (store Generation s colIndex value ch)) l ch w
    = Ok ch' w' ∧
    quiet w w' ∧ w_sampled w' = w_sampled w ∧
    (∃ added, writes ch' = writes ch ++ added ∧
              Forall (fun cw => cw_by cw = Generation ∧
                        ∃ j, j ∈ l ∧ cw_col cw = sl_off s + j) added) ∧
    shape ch' = shape ch ∧
    (∀ r c, (r ≠ sl_row s ∨ ∀ j, j ∈ l → c ≠ sl_off s + j) →
            cell ch' r c = cell ch r c) ∧
    (∀ j field, j ∈ l → fields !! j = Some field →
       is_Some (cell ch (sl_row s) (sl_off s + j)) →
       ∃ v, cell ch' (sl_row s) (sl_off s + j) = Some v ∧
            (recognized (DataType field) → is_Some v) ∧
            (¬ recognized (DataType field) →
               v = None ∧ unsupported_log field ∈ w_log w')).
Proof.
  revert ch w. induction l as [|j0 l IH]; intros ch w Hnd Hlt.
  - exists ch, w. simpl. split; [done|]. split; [apply quiet_refl|].
    split; [done|]. split; [exists []; by rewrite app_nil_r|].
    split; [done|]. split; [done|].
    intros j field Hj. by apply elem_of_nil in Hj.
  - apply NoDup_cons in Hnd as [Hj0 Hnd].
    destruct (lookup_lt_is_Some_2 fields j0) as [f0 Hf0];
      [apply Hlt; left|].
    destruct (generateValue_spec E f0 w) as (v0 & w1 & Hv0 & Hq1 & Hs1 & Hrec & Hunrec).
    destruct (IH (store Generation s j0 v0 ch) w1 Hnd) as
      (ch' & w' & Hrun & Hq2 & Hs2 & (a2 & Hw & HP2) & Hsh & Hframe & Hcells).
    { intros j Hj. apply Hlt. by right. }
    exists ch', w'. split.
    { simpl. unfold bind at 1. unfold bind at 1. rewrite Hf0. simpl.
      unfold bind at 1. rewrite Hv0. simpl. exact Hrun. }
    split; [by eapply quiet_trans|]. split; [congruence|]. split.
    { exists (mkCellWrite Generation (sl_row s) (sl_off s + j0) v0 :: a2).
    split; [by rewrite Hw, store_writes, <- app_assoc|].
    constructor; [split; [done|]; exists j0; split; [left|done]|].
    eapply Forall_impl; [exact HP2|]. intros cw (Hby & j & Hj & Hcol).
    split; [done|]. exists j. split; [by right|done]. }
    split; [by rewrite Hsh, store_shape|]. split.
    { intros r c Hrc. rewrite Hframe.
      - apply store_cell_ne. destruct Hrc as [?|Hc]; [by left|].
        right. apply Hc. left.
      - destruct Hrc as [?|Hc]; [by left|]. right. intros j Hj.
        apply Hc. by right. }
    intros j field Hj Hfield Hsome.
    apply elem_of_cons in Hj as [->|Hj].
    + rewrite Hf0 in Hfield. injection Hfield as <-.
      exists v0. split.
      { rewrite Hframe; [by apply store_cell_eq|].
        right. intros j Hj ->%Nat.add_cancel_l. done. }
      split; [done|]. intros Hn. destruct (Hunrec Hn) as [-> Hlog].
      split; [done|]. eapply quiet_logged; [|done].
      rewrite Hlog. apply elem_of_app. right. left.
    + apply Hcells; [done..|].
      eapply shape_cell; [|done]. apply store_shape.
Qed.

(** [generateFieldsRow] fills its slice from the left: every index of
    the slice gets the value of the switch for its column, a nil for a
    type it does not know, and the loop goes on to the next index. *)
Lemma generateFieldsRow_spec fields s ch w :
  sl_len s ≤ length fields →
  ∃ ch' w',
    generateFieldsRow E fields s ch w = Ok ch' w' ∧
    quiet w w' ∧ w_sampled w' = w_sampled w ∧
    (∃ added, writes ch' = writes ch ++ added ∧
              Forall (fun cw => cw_by cw = Generation ∧
                        sl_off s ≤ cw_col cw < sl_off s + sl_len s) added) ∧
    shape ch' = shape ch ∧
    (∀ j field, j < sl_len s → fields !! j = Some field →
       is_Some (cell ch (sl_row s) (sl_off s + j)) →
       ∃ v, cell ch' (sl_row s) (sl_off s + j) = Some v ∧
            (recognized (DataType field) → is_Some v) ∧
            (¬ recognized (DataType field) →
               v = None ∧ unsupported_log field ∈ w_log w')).
Proof.
  intros Hlen. unfold generateFieldsRow.
  destruct (generateFieldsRow_loop fields s (seq 0 (sl_len s)) ch w)
    as (ch' & w' & Hrun & Hq & Hs & (added & Hw & HP) & Hsh & _ & Hcells).
  { apply NoDup_seq. }
  { intros j Hj%elem_of_seq. lia. }
  exists ch', w'. do 3 (split; [done|]). split.
  { exists added. split; [done|]. eapply Forall_impl; [exact HP|].
    intros cw (Hby & j & Hj%elem_of_seq & ->). split; [done|lia]. }
  split; [done|].
  intros j field Hj. apply Hcells. apply elem_of_seq. lia.
Qed.

End GenerateRow.

(** ** Column ranges of the constraints *)

Lemma sum_list_app (l k : list nat) :
  sum_list (l ++ k) = sum_list l + sum_list k.
Proof. induction l as [|x l IH]; simpl; lia. Qed.

Lemma colStart_S cs k c :
  cs !! k = Some c → colStart cs (S k) = colStart cs k + width c.
Proof.
  unfold colStart. intros Hk.
  rewrite (take_S_r _ _ _ Hk), fmap_app, sum_list_app. simpl. lia.
Qed.

Lemma colStart_mono cs k k' : k ≤ k' → colStart cs k ≤ colStart cs k'.
Proof.
  unfold colStart. intros Hle.
  replace k' with (k + (k' - k)) by lia.
  rewrite <- take_take_drop, fmap_app, sum_list_app. lia.
Qed.

Lemma colStart_cons c cs k :
  colStart (c :: cs) (S k) = width c + colStart cs k.
Proof. done. Qed.

(** Two stores that respect [owned] and hit the same column come from
    the same phase. *)
Lemma owned_disjoint nGen cs cw1 cw2 :
  owned nGen cs cw1 → owned nGen cs cw2 →
  cw_col cw1 = cw_col cw2 → cw_by cw1 = cw_by cw2.
Proof.
  unfold owned. intros H1 H2 Hcol.
  destruct (cw_by cw1) as [|k1], (cw_by cw2) as [|k2]; try done; try lia.
  f_equal. destruct H1 as [_ H1], H2 as [_ H2].
  destruct (Nat.lt_trichotomy k1 k2) as [Hlt|[->|Hlt]]; [|done|].
  - pose proof (colStart_mono cs (S k1) k2 ltac:(lia)). lia.
  - pose proof (colStart_mono cs (S k2) k1 ltac:(lia)). lia.
Qed.

Lemma reslice_row width i n :
  n ≤ width →
  reslice (row_slice width i) 0 n
  = Some {| sl_row := i; sl_off := 0; sl_len := n; sl_cap := width |}.
Proof.
  intros Hn. unfold reslice, row_slice. simpl.
  rewrite decide_True by lia. by rewrite !Nat.sub_0_r.
Qed.

Lemma mapM_row_slices width lo (rows : list nat) :
  lo ≤ width →
  mapM (fun r => reslice (row_slice width r) lo width) rows
  = Some ((fun r => {| sl_row := r; sl_off := lo; sl_len := width - lo;
                       sl_cap := width - lo |}) <$> rows).
Proof.
  intros Hlo. apply mapM_Some_2.
  induction rows as [|r rows IH]; simpl; constructor; [|done].
  unfold reslice, row_slice. simpl. rewrite decide_True; [done|lia].
Qed.

(** ** Stores of a sampler *)

Lemma foldl_stores {B} (f : Chunk → B → Chunk) (P : CellWrite → Prop) (l : list B) :
  (∀ ch b, b ∈ l →
     ∃ added, writes (f ch b) = writes ch ++ added ∧
              shape (f ch b) = shape ch ∧ Forall P added) →
  ∀ ch, ∃ added, writes (foldl f ch l) = writes ch ++ added ∧
                 shape (foldl f ch l) = shape ch ∧ Forall P added.
Proof.
  induction l as [|b l IH]; intros Hf ch; simpl.
  - exists []. by rewrite app_nil_r.
  - destruct (Hf ch b) as (a1 & Hw1 & Hs1 & HP1); [left|].
    destruct (IH (fun ch b Hb => Hf ch b (list_elem_of_further _ _ _ Hb)) (f ch b))
      as (a2 & Hw2 & Hs2 & HP2).
    exists (a1 ++ a2). split; [by rewrite Hw2, Hw1, app_assoc|].
    split; [congruence|]. by apply Forall_app.
Qed.

Section Phases.

Variable E : Env.

Lemma store_row_spec who s cells ch :
  ∃ added,
    writes (store_row who s cells ch) = writes ch ++ added ∧
    shape (store_row who s cells ch) = shape ch ∧
    Forall (fun cw => cw_by cw = who ∧
                      sl_off s ≤ cw_col cw < sl_off s + sl_len s) added.
Proof.
  unfold store_row. apply foldl_stores.
  intros ch' [j v] Hjv. simpl.
  apply elem_of_lookup_imap_1 in Hjv as (j' & v' & [= -> ->] & Hlook).
  apply lookup_lt_Some in Hlook. rewrite length_take in Hlook.
  exists [mkCellWrite who (sl_row s) (sl_off s + j') (Some v')].
  split; [done|]. split; [apply store_shape|].
  apply Forall_singleton. simpl. split; [done|lia].
Qed.

Lemma store_sample_spec who subSlice cells ch lo n :
  Forall (fun s => sl_off s = lo ∧ sl_len s = n) subSlice →
  ∃ added,
    writes (store_sample who subSlice cells ch) = writes ch ++ added ∧
    shape (store_sample who subSlice cells ch) = shape ch ∧
    Forall (fun cw => cw_by cw = who ∧ lo ≤ cw_col cw < lo + n) added.
Proof.
  intros Hsub. unfold store_sample. apply foldl_stores.
  intros ch' [s c] Hsc. simpl.
  apply elem_of_zip_l in Hsc.
  rewrite Forall_forall in Hsub. destruct (Hsub _ Hsc) as [<- <-].
  apply store_row_spec.
Qed.

Lemma mapM_reslice (vals : list Slice) lo hi cap :
  Forall (fun v => sl_cap v = cap) vals → lo ≤ hi → hi ≤ cap →
  mapM (fun v => reslice v lo hi) vals
  = Some ((fun v => {| sl_row := sl_row v; sl_off := sl_off v + lo;
                       sl_len := hi - lo; sl_cap := sl_cap v - lo |}) <$> vals).
Proof.
  intros Hcap Hlo Hhi. apply mapM_Some_2.
  induction Hcap as [|v vals Hv _ IH]; simpl; constructor; [|done].
  unfold reslice. rewrite decide_True; [done|lia].
Qed.

(** The loop of [sampleFieldsTable]: under the bound on the widths it
    does not panic; each sampler stores into its own columns; the
    first sampler that fails ends the loop, and its error comes back
    wrapped. *)
Lemma sampleConstraints_spec i vals base cap cs :
  Forall (fun v => sl_off v = base ∧ sl_cap v = cap) vals →
  ∀ k colIdx ch w,
  colIdx + sum_list (width <$> cs) ≤ cap →
  ∃ r w' added calls,
    sampleConstraints E i vals cs k colIdx ch w = Ok r w' ∧
    quiet w w' ∧ w_sampled w' = w_sampled w ++ calls ∧
    writes r.2 = writes ch ++ added ∧ shape r.2 = shape ch ∧
    Forall (fun cw => ∃ k', cw_by cw = Sampling (k + k') ∧ k' < length cs ∧
              base + colIdx + colStart cs k' ≤ cw_col cw
                               < base + colIdx + colStart cs (S k')) added ∧
    ((r.1 = None ∧ Forall (fun c => c.2 = None) calls) ∨
     (∃ pre s e, calls = pre ++ [(s, Some e)] ∧
                 Forall (fun c => c.2 = None) pre ∧
                 r.1 = Some (ErrWrap e "sampleFieldsTable"))).
Proof.
  intros Hvals. induction cs as [|c cs IH]; intros k colIdx ch w Hfit.
  - exists (None, ch), w, [], []. simpl.
    split; [done|]. split; [apply quiet_refl|].
    rewrite !app_nil_r. do 4 (split; [done|]). left. by split.
  - change (sum_list (width <$> c :: cs))
      with (width c + sum_list (width <$> cs)) in Hfit.
    unfold width at 1 in Hfit.
    simpl. unfold bind at 1.
    rewrite (mapM_reslice vals colIdx (colIdx + length (ReferencedFields c)) cap);
      [|eapply Forall_impl; [exact Hvals|]; by intros v [_ ?]| lia | lia].
    simpl. unfold bind at 1. unfold Sample at 1.
    set (subSlice := (_ <$> vals)).
    set (sampler := createSamplerFromForeignkeyLinks _ c subSlice).
    set (r := sampler_Sample E (w_clock w) sampler). simpl.
    destruct (store_sample_spec (Sampling k) subSlice r.1 ch
                (base + colIdx) (width c)) as (a1 & Hw1 & Hs1 & HP1).
    { unfold subSlice. apply Forall_fmap. eapply Forall_impl; [exact Hvals|].
      intros v [Hoff _]. simpl. unfold width. split; lia. }
    assert (Hq1 : quiet w (sampled sampler r.2 (tick w))).
    { eapply quiet_trans; [apply quiet_tick|apply quiet_sampled_step]. }
    assert (HP1' : Forall (fun cw => ∃ k', cw_by cw = Sampling (k + k') ∧
              k' < length (c :: cs) ∧
              base + colIdx + colStart (c :: cs) k' ≤ cw_col cw
                < base + colIdx + colStart (c :: cs) (S k')) a1).
    { eapply Forall_impl; [exact HP1|]. intros cw [Hby Hcol].
      exists 0. rewrite Nat.add_0_r. split; [done|]. simpl. split; [lia|].
      rewrite colStart_cons. unfold colStart at 1 2. simpl. lia. }
    destruct (r.2) as [e|] eqn:Herr.
    + eexists (_, _), _, a1, [(sampler, Some e)]. simpl.
      split; [reflexivity|]. split; [done|]. split; [done|].
      split; [done|]. split; [done|]. split; [done|].
      right. exists [], sampler, e. by split.
    + destruct (IH (S k) (colIdx + length (ReferencedFields c))
                   (store_sample (Sampling k) subSlice r.1 ch)
                   (sampled sampler None (tick w)))
        as (r' & w' & a2 & calls & Hrun & Hq2 & Hsm & Hw2 & Hs2 & HP2 & Hres).
      { lia. }
      exists r', w', (a1 ++ a2), ((sampler, None) :: calls).
      split; [exact Hrun|]. split; [by eapply quiet_trans|].
      split; [rewrite Hsm; simpl; by rewrite <- app_assoc|].
      split; [by rewrite Hw2, Hw1, app_assoc|]. split; [congruence|].
      split.
      { apply Forall_app. split; [done|].
        eapply Forall_impl; [exact HP2|]. intros cw (k' & Hby & Hk' & Hcol).
        exists (S k'). split; [by rewrite Hby, Nat.add_succ_comm|].
        split; [simpl; lia|]. rewrite !colStart_cons. unfold width. lia. }
      destruct Hres as [[Hnone Hall]|(pre & s & e & -> & Hpre & Hsome)].
      * left. split; [done|]. by constructor.
      * right. exists ((sampler, None) :: pre), s, e.
        split; [done|]. split; [by constructor|done].
Qed.

End Phases.

(** ** The two phases of a chunk *)

Section Chunk.

Variable E : Env.

Lemma generationPhase_rows fieldsToGen width rows ch w :
  length fieldsToGen ≤ width →
  ∃ ch' w' added,
    foldM (fun ch i =>
             s <- checked "slice bounds out of range"
                    (reslice (row_slice width i) 0 (length fieldsToGen)) ;;
             generateFieldsRow E fieldsToGen s ch) rows ch w
    = Ok ch' w' ∧
    quiet w w' ∧ w_sampled w' = w_sampled w ∧
    writes ch' = writes ch ++ added ∧ shape ch' = shape ch ∧
    Forall (fun cw => cw_by cw = Generation ∧
                      cw_col cw < length fieldsToGen) added.
Proof.
  intros Hwidth. revert ch w.
  induction rows as [|i rows IH]; intros ch w.
  - exists ch, w, []. simpl. rewrite app_nil_r.
    split; [done|]. split; [apply quiet_refl|]. done.
  - set (s := {| sl_row := i; sl_off := 0;
                 sl_len := length fieldsToGen; sl_cap := width |}).
    destruct (generateFieldsRow_spec E fieldsToGen s ch w)
      as (ch1 & w1 & Hrun1 & Hq1 & Hsm1 & (a1 & Hw1 & HP1) & Hs1 & _).
    { simpl. lia. }
    cbn [foldM].
    erewrite bind_ok;
      [|erewrite bind_ok;
        [exact Hrun1|apply checked_ok, reslice_row, Hwidth]].
    destruct (IH ch1 w1) as (ch' & w' & a2 & Hrun & Hq2 & Hsm2 & Hw2 & Hs2 & HP2).
    exists ch', w', (a1 ++ a2).
    split; [exact Hrun|]. split; [by eapply quiet_trans|].
    split; [congruence|].
    split; [by rewrite Hw2, Hw1, <- app_assoc|]. split; [congruence|].
    apply Forall_app. split; [|done].
    eapply Forall_impl; [exact HP1|]. intros cw [Hby Hcol].
    subst s. simpl in *. split; [done|lia].
Qed.

Lemma generationPhase_spec fieldsToGen count width ch w :
  length fieldsToGen ≤ width →
  ∃ ch' w' added,
    generationPhase E fieldsToGen count width ch w = Ok ch' w' ∧
    quiet w w' ∧ w_sampled w' = w_sampled w ∧
    writes ch' = writes ch ++ added ∧ shape ch' = shape ch ∧
    Forall (fun cw => cw_by cw = Generation ∧
                      cw_col cw < length fieldsToGen) added.
Proof. apply generationPhase_rows. Qed.

Lemma samplingPhase_spec i fieldsToGen fieldsToSample count ch w :
  sum_list (width <$> Constraints (table i)) ≤ length fieldsToSample →
  ∃ ch' w' added calls,
    samplingPhase E i fieldsToGen fieldsToSample count
      (length fieldsToGen + length fieldsToSample) ch w = Ok ch' w' ∧
    quiet w w' ∧ w_sampled w' = w_sampled w ++ calls ∧
    writes ch' = writes ch ++ added ∧ shape ch' = shape ch ∧
    Forall (owned (length fieldsToGen) (Constraints (table i))) added ∧
    sampling_outcome calls w'.
Proof.
  intros Hfit. unfold samplingPhase, sampleFieldsTable.
  set (nGen := length fieldsToGen). set (nSample := length fieldsToSample).
  unfold bind at 1.
  rewrite (mapM_row_slices (nGen + nSample) nGen) by lia.
  simpl. set (vals := _ <$> _).
  destruct (sampleConstraints_spec E i vals nGen nSample (Constraints (table i)))
    with (k := 0) (colIdx := 0) (ch := ch) (w := w)
    as (r & w1 & added & calls & Hrun & Hq & Hsm & Hw & Hs & HP & Hres).
  { unfold vals. apply Forall_fmap, Forall_forall.
    intros r _. simpl. lia. }
  { lia. }
  unfold bind at 1. rewrite Hrun.
  assert (Hown : Forall (owned nGen (Constraints (table i))) added).
  { eapply Forall_impl; [exact HP|]. intros cw (k' & Hby & Hk' & Hcol).
    unfold owned. rewrite Hby. simpl. split; [done|]. lia. }
  destruct Hres as [[Hnone Hall]|(pre & s & e & -> & Hpre & Hsome)].
  - rewrite Hnone. exists r.2, w1, added, calls.
    do 6 (split; [done|]). by left.
  - rewrite Hsome. eexists r.2, _, added, _.
    split; [reflexivity|].
    split; [eapply quiet_trans; [exact Hq|apply quiet_logged_step]|].
    split; [exact Hsm|]. do 3 (split; [done|]).
    right. exists pre, s, e. do 2 (split; [done|]).
    simpl. apply elem_of_app. right. left.
Qed.

Lemma sampling_outcome_log calls w w' :
  sampling_outcome calls w → w_log w `prefix_of` w_log w' →
  sampling_outcome calls w'.
Proof.
  intros [Hall|(pre & s & e & ? & ? & Hlog)] [k Hk]; [by left|].
  right. exists pre, s, e. do 2 (split; [done|]).
  rewrite Hk. apply elem_of_app. by left.
Qed.

Lemma shape_make count width :
  shape {| values := make_values count width; writes := [] |}
  = replicate (Z.to_nat count) width.
Proof.
  unfold shape, make_values. simpl. rewrite fmap_replicate.
  by rewrite length_replicate.
Qed.

(** Filling a chunk never panics on a table whose constraints fit; it
    issues nothing, keeps the buffer's shape, and every store it makes
    stays in the columns of its phase. *)
Lemma fillChunk_spec i count w :
  table_wf E (table i) →
  ∃ ch w' calls,
    fillChunk E i count w = Ok ch w' ∧
    quiet w w' ∧ w_sampled w' = w_sampled w ++ calls ∧
    shape ch = replicate (Z.to_nat count)
                 (length (FieldsToGenerate E (table i))
                  + length (FieldsToSample E (table i))) ∧
    Forall (owned (length (FieldsToGenerate E (table i)))
                  (Constraints (table i))) (writes ch) ∧
    sampling_outcome calls w'.
Proof.
  intros Hwf. unfold fillChunk.
  set (fg := FieldsToGenerate E (table i)).
  set (fs := FieldsToSample E (table i)).
  set (ch0 := {| values := _; writes := [] |}).
  assert (Hgen : ∃ ch1 w1,
    (if decide (length fg ≠ 0)
     then generationPhase E fg count (length fg + length fs) ch0
     else ret ch0) w = Ok ch1 w1 ∧
    quiet w w1 ∧ w_sampled w1 = w_sampled w ∧ shape ch1 = shape ch0 ∧
    Forall (owned (length fg) (Constraints (table i))) (writes ch1)).
  { case_decide.
    - destruct (generationPhase_spec fg count (length fg + length fs) ch0 w)
        as (ch1 & w1 & added & Hrun & Hq & Hsm & Hw & Hs & HP); [lia|].
      exists ch1, w1. do 4 (split; [done|]).
      rewrite Hw. simpl. eapply Forall_impl; [exact HP|].
      intros cw [Hby Hcol]. unfold owned. by rewrite Hby.
    - exists ch0, w. split; [done|]. split; [apply quiet_refl|].
      do 2 (split; [done|]). constructor. }
  destruct Hgen as (ch1 & w1 & Hrun1 & Hq1 & Hsm1 & Hs1 & HP1).
  unfold bind at 1. rewrite Hrun1. clear Hrun1.
  case_decide as Hfs.
  - destruct Hwf as [Hz|Hfit]; [exfalso; exact (Hfs Hz)|].
    destruct (samplingPhase_spec i fg fs count ch1 w1 Hfit)
      as (ch2 & w2 & added & calls & Hrun & Hq & Hsm & Hw & Hs & HP & Hres).
    exists ch2, w2, calls. split; [exact Hrun|].
    split; [by eapply quiet_trans|]. split; [congruence|].
    split; [rewrite Hs, Hs1; apply shape_make|].
    split; [rewrite Hw; by apply Forall_app|done].
  - exists ch1, w1, []. split; [done|]. split; [done|].
    rewrite app_nil_r. split; [done|].
    split; [rewrite Hs1; apply shape_make|]. split; [done|].
    left. constructor.
Qed.

End Chunk.

(** ** Rendering *)

Lemma append_nil_r (s : string) : s +:+ "" = s.
Proof.
  induction s as [|a s IH]; [done|].
  change (String a (s +:+ "") = String a s). by rewrite IH.
Qed.

Lemma append_assoc (a b c : string) : (a +:+ b) +:+ c = a +:+ (b +:+ c).
Proof.
  induction a as [|x a IH]; [done|].
  change (String x ((a +:+ b) +:+ c) = String x (a +:+ (b +:+ c))).
  by rewrite IH.
Qed.

Lemma concat_cons_cons sep (x y : string) l :
  String.concat sep (x :: y :: l) = x +:+ sep +:+ String.concat sep (y :: l).
Proof. done. Qed.

Section Render.

Variable E : Env.

(** The loop over the rows, for a buffer whose last row is not nil:
    the rows that are not nil, in order, with one comma between two
    of them. *)
Lemma renderRows_spec len rows : ∀ row q,
  row + length rows = len →
  (rows = [] ∨ ∃ v, last rows = Some (Some v)) →
  renderRows E len row rows q
  = q +:+ String.concat "," (InsertValues_String E <$> omap id rows).
Proof.
  induction rows as [|r rows IH]; intros row q Hlen Hlast.
  - change (q = q +:+ ""). by rewrite append_nil_r.
  - destruct Hlast as [|[vl Hlast]]; [done|].
    assert (Hrest : rows = [] ∨ ∃ v, last rows = Some (Some v)).
    { destruct rows as [|r' rows']; [by left|right].
      exists vl. by rewrite last_cons_cons in Hlast. }
    simpl in Hlen.
    destruct r as [v|].
    + cbn [renderRows]. rewrite IH by (done || lia).
      change (omap id (Some v :: rows)) with (v :: omap id rows).
      destruct Hrest as [->|[vl' Hl']].
      * simpl in *. rewrite decide_False by (intros Hne; apply Hne; lia).
        by rewrite !append_nil_r.
      * rewrite decide_True.
        2:{ destruct rows; [done|]. simpl in Hlen. lia. }
        destruct (omap id rows) as [|y ys] eqn:Hom.
        { exfalso. clear -Hl' Hom.
          apply last_Some in Hl' as [l' ->].
          rewrite omap_app in Hom. by destruct (omap id l'). }
        rewrite !fmap_cons, concat_cons_cons.
        by rewrite !append_assoc.
    + cbn [renderRows].
      destruct Hrest as [->|Hrest]; [done|].
      rewrite IH; [done|lia|by right].
Qed.

(** The buffer of [genQuery] has no nil row: all its rows are
    rendered. *)
Lemma renderValues_spec i (vs : list InsertValues) :
  renderValues E i vs
  = insertHeader E i +:+ String.concat "," (InsertValues_String E <$> vs).
Proof.
  assert (Hom : omap id (Some <$> vs) = vs).
  { induction vs as [|v vs IH]; [done|].
    change (v :: omap id (Some <$> vs) = v :: vs). by rewrite IH. }
  unfold renderValues. rewrite renderRows_spec.
  - by rewrite Hom.
  - by rewrite length_fmap.
  - destruct vs as [|v vs] using rev_ind; [by left|right].
    exists v. rewrite fmap_app. apply last_snoc.
Qed.

End Render.

(** ** One chunk, from buffer to statement *)

Lemma failure_committed s e : failure s = Some e → committed s = 0%Z.
Proof.
  unfold failure, committed.
  destruct (st_call s) as [wr d [e'|]|q [e'|ra]]; done.
Qed.

Lemma sumZ_app l k : sumZ (l ++ k) = (sumZ l + sumZ k)%Z.
Proof. induction l as [|x l IH]; simpl; lia. Qed.

Section Statements.

Variable E : Env.

Lemma shape_length ch n width :
  shape ch = replicate n width → length (values ch) = n.
Proof.
  unfold shape. intros Hs.
  rewrite <- (length_fmap length), Hs. apply length_replicate.
Qed.

(** [genQuery] on a chunk of at least one row: never nil, never a
    panic; the text is the rendering of the filled buffer. *)
Lemma genQuery_spec i count w :
  (1 ≤ count)%Z → table_wf E (table i) →
  ∃ ch w' calls,
    fillChunk E i count (logged (debug_log E i) w) = Ok ch w' ∧
    genQuery E i count w = Ok (Some (renderValues E i (values ch))) w' ∧
    quiet w w' ∧ w_sampled w' = w_sampled w ++ calls ∧
    length (values ch) = Z.to_nat count ∧
    Forall (owned (length (FieldsToGenerate E (table i)))
                  (Constraints (table i))) (writes ch) ∧
    sampling_outcome calls w'.
Proof.
  intros Hcount Hwf.
  destruct (fillChunk_spec E i count (logged (debug_log E i) w) Hwf)
    as (ch & w' & calls & Hrun & Hq & Hsm & Hs & HP & Hres).
  exists ch, w', calls. split; [done|]. split.
  { unfold genQuery. rewrite decide_False by lia.
    erewrite bind_ok by reflexivity.
    erewrite bind_ok by exact Hrun. done. }
  split; [eapply quiet_trans; [apply quiet_logged_step|done]|].
  split; [done|]. split; [by eapply shape_length|]. done.
Qed.

Lemma insert_skip i count dryRun w :
  (count < 1)%Z → insert E i count dryRun w = Ok (0%Z, None) w.
Proof. intros Hc. unfold insert. by rewrite decide_True. Qed.

(** [insert] in dry-run mode: one [Write] of the text and a newline
    to the writer of the [Insert]; the count asked for is reported
    when the write succeeds, zero and the error otherwise. *)
Lemma insert_dry_spec i count w :
  (1 ≤ count)%Z → table_wf E (table i) →
  ∃ ch w1,
    genQuery E i count w = Ok (Some (renderValues E i (values ch))) w1 ∧
    quiet w w1 ∧ length (values ch) = Z.to_nat count ∧
    let data := renderValues E i (values ch) +:+ newline in
    let res := writer_Write E (w_clock w1) (writer i) data in
    let s := mkStmt count (CallWrite (writer i) data res) in
    insert E i count true w = Ok (committed s, failure s) (issued s (tick w1)).
Proof.
  intros Hcount Hwf.
  destruct (genQuery_spec i count w Hcount Hwf)
    as (ch & w1 & calls & _ & Hgen & Hq & _ & Hlen & _).
  exists ch, w1. do 3 (split; [done|]). simpl.
  unfold insert. rewrite decide_False by lia.
  erewrite bind_ok by exact Hgen.
  erewrite bind_ok by reflexivity.
  erewrite bind_ok by reflexivity.
  unfold committed, failure. simpl.
  by destruct (writer_Write E (w_clock w1) (writer i) _).
Qed.

(** [insert] against the database: one [Exec] of the text; the rows
    affected are reported, or zero, the error and a log line. *)
Lemma insert_exec_spec i count w :
  (1 ≤ count)%Z → table_wf E (table i) →
  ∃ ch w1 w2,
    genQuery E i count w = Ok (Some (renderValues E i (values ch))) w1 ∧
    quiet w w1 ∧ length (values ch) = Z.to_nat count ∧
    let q := renderValues E i (values ch) in
    let res := db_Exec E (w_clock w1) q in
    let s := mkStmt count (CallExec q res) in
    insert E i count false w = Ok (committed s, failure s) w2 ∧
    quiet (issued s (tick w1)) w2.
Proof.
  intros Hcount Hwf.
  destruct (genQuery_spec i count w Hcount Hwf)
    as (ch & w1 & calls & _ & Hgen & Hq & _ & Hlen & _).
  set (q := renderValues E i (values ch)).
  set (res := db_Exec E (w_clock w1) q).
  set (s := mkStmt count (CallExec q res)).
  exists ch, w1.
  exists (match res with
          | inl err => logged (LogError "failed to insert" (Some err)
                                 [("query", q)]) (issued s (tick w1))
          | inr _ => issued s (tick w1)
          end).
  do 3 (split; [done|]). simpl. split.
  - unfold insert. rewrite decide_False by lia.
    erewrite bind_ok by exact Hgen.
    erewrite bind_ok by reflexivity.
    erewrite bind_ok by reflexivity.
    unfold committed, failure. simpl. fold q. fold res. fold s.
    by destruct res.
  - fold q. fold res. fold s.
    destruct res; [apply quiet_logged_step|apply quiet_refl].
Qed.

(** In either mode, a chunk of at least one row is one statement. *)
Lemma insert_issue i count dryRun w :
  (1 ≤ count)%Z → table_wf E (table i) →
  ∃ s w',
    insert E i count dryRun w = Ok (committed s, failure s) w' ∧
    w_stmts w' = w_stmts w ++ [s] ∧ w_chans w' = w_chans w ∧
    w_notes w' = w_notes w ∧
    st_rows s = count ∧ is_dry s = dryRun ∧ rendered E i s.
Proof.
  intros Hcount Hwf. destruct dryRun.
  - destruct (insert_dry_spec i count w Hcount Hwf)
      as (ch & w1 & _ & Hq & Hlen & Hins).
    simpl in Hins. eexists _, _. split; [exact Hins|].
    destruct Hq as [_ _ Hst Hch Hno]. simpl.
    split; [by rewrite Hst|]. do 4 (split; [done|]).
    exists (values ch). by split.
  - destruct (insert_exec_spec i count w Hcount Hwf)
      as (ch & w1 & w2 & _ & Hq & Hlen & Hins & Hq2).
    simpl in Hins. eexists _, _. split; [exact Hins|].
    destruct Hq as [_ _ Hst Hch Hno]. destruct Hq2 as [_ _ Hst2 Hch2 Hno2].
    simpl in *.
    split; [by rewrite Hst2, Hst|]. split; [congruence|].
    split; [congruence|]. do 2 (split; [done|]).
    exists (values ch). by split.
Qed.

(** The sampler runs of the chunk behind a statement. *)
Lemma insert_sampled i count dryRun w :
  (1 ≤ count)%Z → table_wf E (table i) →
  ∃ s w' calls,
    insert E i count dryRun w = Ok (committed s, failure s) w' ∧
    w_stmts w' = w_stmts w ++ [s] ∧
    w_sampled w' = w_sampled w ++ calls ∧
    sampling_outcome calls w'.
Proof.
  intros Hcount Hwf.
  destruct (genQuery_spec i count w Hcount Hwf)
    as (ch & w1 & calls & _ & Hgen & Hq & Hsm & _ & _ & Hres).
  destruct Hq as [_ _ Hst _ _].
  set (q := renderValues E i (values ch)) in *.
  destruct dryRun.
  - set (res := writer_Write E (w_clock w1) (writer i) (q +:+ newline)).
    set (s := mkStmt count (CallWrite (writer i) (q +:+ newline) res)).
    exists s, (issued s (tick w1)), calls. split.
    { unfold insert. rewrite decide_False by lia.
      erewrite bind_ok by exact Hgen.
      erewrite bind_ok by reflexivity.
      erewrite bind_ok by reflexivity.
      unfold committed, failure. simpl. fold res. by destruct res. }
    simpl. split; [by rewrite Hst|]. split; [done|].
    eapply sampling_outcome_log; [exact Hres|]. done.
  - set (res := db_Exec E (w_clock w1) q).
    set (s := mkStmt count (CallExec q res)).
    exists s,
      (match res with
       | inl err => logged (LogError "failed to insert" (Some err)
                              [("query", q)]) (issued s (tick w1))
       | inr _ => issued s (tick w1)
       end), calls.
    split.
    { unfold insert. rewrite decide_False by lia.
      erewrite bind_ok by exact Hgen.
      erewrite bind_ok by reflexivity.
      erewrite bind_ok by reflexivity.
      unfold committed, failure. simpl. fold q. fold res. fold s.
      by destruct res. }
    split; [destruct res; simpl; by rewrite Hst|].
    split; [by destruct res|].
    eapply sampling_outcome_log; [exact Hres|].
    destruct res; simpl; [by apply prefix_app_r|done].
Qed.

End Statements.

(** ** The loop of [run] *)

Lemma chunks_O bulksize remainder :
  chunks 0 bulksize remainder
  = if decide (1 ≤ remainder)%Z then [remainder] else [].
Proof.
  unfold chunks. simpl. case_decide.
  - by rewrite filter_cons_True.
  - by rewrite filter_cons_False.
Qed.

Lemma chunks_S todo bulksize remainder :
  chunks (S todo) bulksize remainder
  = if decide (1 ≤ bulksize)%Z
    then bulksize :: chunks todo bulksize remainder
    else chunks todo bulksize remainder.
Proof.
  unfold chunks. simpl. case_decide.
  - by rewrite filter_cons_True.
  - by rewrite filter_cons_False.
Qed.

Lemma run_outcome_cons s ss err plan :
  failure s = None → run_outcome ss err plan →
  run_outcome (s :: ss) err (st_rows s :: plan).
Proof.
  intros Hs [(Hall & -> & <-)|(pre & s' & e & -> & Hpre & Hf & -> & Hpfx)].
  - left. split; [by constructor|done].
  - right. exists (s :: pre), s', e. split; [done|].
    split; [by constructor|]. do 2 (split; [done|]).
    rewrite fmap_cons. by apply prefix_cons.
Qed.

Section Loop.

Variable E : Env.

Lemma notify_spec i n w :
  chan_ready i w →
  ∃ w', notify E i n w = Ok tt w' ∧
        w_stmts w' = w_stmts w ∧ w_chans w' = w_chans w ∧
        w_notes w' = w_notes w ++ notification E i n w.
Proof.
  unfold chan_ready, notify, notification, try_send.
  destruct (notifyChan i) as [c|].
  - intros ->. eexists. split; [reflexivity|]. done.
  - intros _. exists w. by rewrite app_nil_r.
Qed.

Lemma chan_ready_chans i w w' :
  w_chans w' = w_chans w → chan_ready i w → chan_ready i w'.
Proof. unfold chan_ready. by intros ->. Qed.

(** The loop and the remainder: the statements issued are the plan,
    cut after the first one that fails; the count returned is the sum
    of what [insert] reported, reduced to 64 bits. *)
Lemma runLoop_spec i bulksize remainder dryRun :
  table_wf E (table i) →
  ∀ todo okCount w, chan_ready i w →
  ∃ res w' ss,
    runLoop E i todo bulksize remainder dryRun okCount w = Ok res w' ∧
    w_stmts w' = w_stmts w ++ ss ∧ w_chans w' = w_chans w ∧
    res.1 = Int64.wrap (okCount + sumZ (committed <$> ss)) ∧
    Forall (rendered E i) ss ∧ Forall (fun s => is_dry s = dryRun) ss ∧
    run_outcome ss res.2 (chunks todo bulksize remainder).
Proof.
  intros Hwf. induction todo as [|todo IH]; intros okCount w Hready.
  - cbn [runLoop]. rewrite chunks_O. case_decide as Hrem.
    + destruct (insert_issue E i remainder dryRun w Hrem Hwf)
        as (s & w1 & Hins & Hst & Hch & Hno & Hrows & Hdry & Hrend).
      destruct (notify_spec i (committed s) w1) as (w2 & Hnot & Hst2 & Hch2 & _).
      { by eapply chan_ready_chans. }
      erewrite bind_ok by exact Hins. cbn [fst snd].
      erewrite bind_ok by exact Hnot.
      eexists (_, _), w2, [s]. split; [reflexivity|].
      split; [congruence|]. split; [congruence|].
      split; [simpl; unfold Int64.add; do 2 f_equal; lia|].
      split; [by constructor|]. split; [by constructor|].
      cbn [snd]. destruct (failure s) as [e|] eqn:Hf.
      * right. exists [], s, e. split; [done|]. split; [constructor|].
        do 2 (split; [done|]). simpl. by rewrite Hrows.
      * left. split; [by constructor|]. split; [done|].
        simpl. by rewrite Hrows.
    + destruct (notify_spec i 0%Z w Hready) as (w2 & Hnot & Hst2 & Hch2 & _).
      erewrite bind_ok by (apply insert_skip; lia). cbn [fst snd].
      erewrite bind_ok by exact Hnot.
      eexists (_, _), w2, []. split; [reflexivity|].
      rewrite app_nil_r. do 2 (split; [done|]).
      split; [done|]. do 2 (split; [constructor|]). by left.
  - cbn [runLoop]. rewrite chunks_S. case_decide as Hbulk.
    + destruct (insert_issue E i bulksize dryRun w Hbulk Hwf)
        as (s & w1 & Hins & Hst & Hch & Hno & Hrows & Hdry & Hrend).
      erewrite bind_ok by exact Hins. cbn [fst snd].
      destruct (failure s) as [e|] eqn:Hf.
      * eexists (_, _), w1, [s]. split; [reflexivity|].
        do 2 (split; [done|]).
        split; [simpl; unfold Int64.add; do 2 f_equal; lia|].
        split; [by constructor|]. split; [by constructor|].
        right. exists [], s, e. split; [done|]. split; [constructor|].
        do 2 (split; [done|]). simpl. rewrite Hrows.
        by apply prefix_cons, prefix_nil.
      * destruct (notify_spec i (committed s) w1) as (w2 & Hnot & Hst2 & Hch2 & _).
        { by eapply chan_ready_chans. }
        erewrite bind_ok by exact Hnot.
        destruct (IH (Int64.add okCount (committed s)) w2)
          as (res & w' & ss & Hrun & Hst3 & Hch3 & Hsum & Hrend' & Hdry' & Hout).
        { eapply chan_ready_chans; [|exact Hready]. congruence. }
        exists res, w', (s :: ss). split; [exact Hrun|].
        split; [rewrite Hst3, Hst2, Hst; by rewrite <- app_assoc|].
        split; [congruence|].
        split.
        { rewrite Hsum. unfold Int64.add. rewrite wrap_add_l.
          f_equal. rewrite fmap_cons. unfold sumZ. simpl. lia. }
        split; [by constructor|]. split; [by constructor|].
        pose proof (run_outcome_cons s ss _ _ Hf Hout) as Hcons.
        by rewrite Hrows in Hcons.
    + erewrite bind_ok by (apply insert_skip; lia). cbn [fst snd].
      destruct (notify_spec i 0%Z w Hready) as (w2 & Hnot & Hst2 & Hch2 & _).
      erewrite bind_ok by exact Hnot.
      destruct (IH (Int64.add okCount 0) w2)
        as (res & w' & ss & Hrun & Hst3 & Hch3 & Hsum & Hrend' & Hdry' & Hout).
      { by eapply chan_ready_chans. }
      exists res, w', ss. split; [exact Hrun|].
      split; [congruence|]. split; [congruence|].
      split; [|done].
      rewrite Hsum. unfold Int64.add. rewrite wrap_add_l. f_equal. lia.
Qed.

End Loop.

(** ** [run] *)

Section Run.

Variable E : Env.

Lemma close_chan_open c w :
  w_chans w !! c = Some true →
  close_chan c w = Ok tt (noted (<[c := false]> (w_chans w)) (ChClose c) w).
Proof. unfold close_chan. by intros ->. Qed.

Lemma close_chan_closed c w :
  w_chans w !! c = Some false →
  close_chan c w = Panic "close of closed channel" w.
Proof. unfold close_chan. by intros ->. Qed.

(** Whatever the quotient, once the division went through [run]
    returns; its channel, if any, is closed after the last statement. *)
Lemma run_quot i count bulksize dryRun w q :
  Int64.div count bulksize = Some q →
  table_wf E (table i) → chan_ready i w →
  ∃ okCount err w' ss,
    run E i count bulksize dryRun w = Ok (okCount, err) w' ∧
    w_stmts w' = w_stmts w ++ ss ∧
    okCount = Int64.wrap (sumZ (committed <$> ss)) ∧
    Forall (rendered E i) ss ∧ Forall (fun s => is_dry s = dryRun) ss ∧
    run_outcome ss err
      (chunks (Z.to_nat q) bulksize
              (Int64.sub count (Int64.mul q bulksize))) ∧
    match notifyChan i with
    | Some c => w_chans w' = <[c := false]> (w_chans w) ∧
                last (w_notes w') = Some (ChClose c)
    | None => w_chans w' = w_chans w
    end.
Proof.
  intros Hdiv Hwf Hready.
  destruct (runLoop_spec E i bulksize
              (Int64.sub count (Int64.mul q bulksize)) dryRun Hwf
              (Z.to_nat q) 0%Z w Hready)
    as ([okCount err] & w1 & ss & Hrun & Hst & Hch & Hsum & Hrend & Hdry & Hout).
  assert (Hbody : runBody E i count bulksize dryRun w = Ok (okCount, err) w1).
  { unfold runBody. erewrite bind_ok; [exact Hrun|]. by rewrite Hdiv. }
  simpl in Hsum, Hout. rewrite Z.add_0_l in Hsum.
  unfold run, chan_ready in *. destruct (notifyChan i) as [c|].
  - exists okCount, err,
      (noted (<[c := false]> (w_chans w1)) (ChClose c) w1), ss.
    split.
    { unfold deferred. rewrite Hbody, close_chan_open; [done|].
      by rewrite Hch. }
    simpl. do 5 (split; [done|]). split; [by rewrite Hch|].
    apply last_snoc.
  - exists okCount, err, w1, ss. by rewrite Hbody.
Qed.

Lemma run_spec i count bulksize dryRun w :
  Int64.in_range count → Int64.in_range bulksize → (1 ≤ bulksize)%Z →
  table_wf E (table i) → chan_ready i w →
  ∃ okCount err w' ss,
    run E i count bulksize dryRun w = Ok (okCount, err) w' ∧
    w_stmts w' = w_stmts w ++ ss ∧
    okCount = Int64.wrap (sumZ (committed <$> ss)) ∧
    Forall (rendered E i) ss ∧ Forall (fun s => is_dry s = dryRun) ss ∧
    run_outcome ss err (planned count bulksize) ∧
    match notifyChan i with
    | Some c => w_chans w' = <[c := false]> (w_chans w) ∧
                last (w_notes w') = Some (ChClose c)
    | None => w_chans w' = w_chans w
    end.
Proof.
  intros Hc Hb H1 Hwf Hready.
  destruct (plan_arith count bulksize Hc Hb H1) as [Hdiv Hrem].
  destruct (run_quot i count bulksize dryRun w _ Hdiv Hwf Hready)
    as (okCount & err & w' & ss & Hrun & Hst & Hsum & Hrend & Hdry & Hout & Hchan).
  rewrite Hrem in Hout. by exists okCount, err, w', ss.
Qed.

(** A division by zero panics, after the deferred close. *)
Lemma run_div_zero i count dryRun w :
  chan_ready i w →
  ∃ w', run E i count 0 dryRun w = Panic "integer divide by zero" w'.
Proof.
  unfold chan_ready, run. intros Hready.
  destruct (notifyChan i) as [c|].
  - eexists. unfold deferred, runBody.
    erewrite bind_panic by reflexivity.
    by rewrite close_chan_open.
  - eexists. unfold runBody. by erewrite bind_panic by reflexivity.
Qed.

(** The plan for a count that is not negative, in the words of the
    comment of [run]: the complete inserts, then the remainder if it
    is not zero. *)
Lemma planned_nonneg count bulksize :
  (0 ≤ count)%Z → (1 ≤ bulksize)%Z →
  planned count bulksize
  = replicate (Z.to_nat (count `div` bulksize)) bulksize
    ++ (if decide (count - count `div` bulksize * bulksize = 0)%Z
        then [] else [count - count `div` bulksize * bulksize])%Z.
Proof.
  intros Hc Hb.
  destruct (quot_nonneg_bounds count bulksize Hc Hb) as (Hq & Hq1 & Hr).
  unfold planned, chunks. rewrite Hq in *.
  rewrite filter_app. f_equal.
  - induction (Z.to_nat (count `div` bulksize)) as [|n IH]; [done|].
    simpl. rewrite filter_cons_True by done. by rewrite IH.
  - case_decide.
    + rewrite filter_cons_False by lia. done.
    + rewrite filter_cons_True by lia. done.
Qed.

Lemma planned_nonpos count bulksize :
  (count < 1)%Z → (1 ≤ bulksize)%Z → planned count bulksize = [].
Proof.
  intros Hc Hb.
  destruct (quot_nonpos_bounds count bulksize ltac:(lia) Hb) as (Hq & Hr).
  unfold planned, chunks.
  replace (Z.to_nat (count ÷ bulksize)) with 0 by lia. simpl.
  by rewrite filter_cons_False by lia.
Qed.

End Run.

(** ** The progress channel *)

(** Asking for a channel while an open one exists: the old one is
    closed first, then a new, open one is made and kept. *)
Lemma NotifyChan_recreates i old w :
  notifyChan i = Some old → w_chans w !! old = Some true →
  ∃ i' c w',
    NotifyChan i w = Ok (i', c) w' ∧
    notifyChan i' = Some c ∧ c = length (w_chans w) ∧
    w_notes w' = w_notes w ++ [ChClose old; ChMake c] ∧
    w_chans w' = <[old := false]> (w_chans w) ++ [true].
Proof.
  intros Hold Hopen. unfold NotifyChan. rewrite Hold.
  eexists _, _, _. split.
  { erewrite bind_ok by (by apply close_chan_open).
    erewrite bind_ok by reflexivity. reflexivity. }
  simpl. rewrite length_insert. split; [done|]. split; [done|].
  by rewrite <- app_assoc.
Qed.

Lemma NotifyChan_first i w :
  notifyChan i = None →
  ∃ i' c w',
    NotifyChan i w = Ok (i', c) w' ∧
    notifyChan i' = Some c ∧ c = length (w_chans w) ∧
    w_notes w' = w_notes w ++ [ChMake c] ∧
    w_chans w' = w_chans w ++ [true].
Proof.
  intros Hnone. unfold NotifyChan. rewrite Hnone.
  eexists _, _, _. split; [reflexivity|]. done.
Qed.

(** [notify] returns at once whether or not somebody listens: the value
    is delivered when a receiver is ready and dropped otherwise. *)
Lemma notify_never_blocks E i c n w :
  notifyChan i = Some c → w_chans w !! c = Some true →
  ∃ w', notify E i n w = Ok tt w' ∧
        w_notes w' = w_notes w ++ [ChSend c n (receiver_ready E (w_clock w) c)] ∧
        w_stmts w' = w_stmts w.
Proof.
  intros Hc Hopen. unfold notify, try_send. rewrite Hc, Hopen.
  eexists. split; [reflexivity|]. done.
Qed.

(** ** The buffer does not depend on how the two phases interleave

    [fillChunk] runs the generation phase before the sampling phase,
    where the code runs them as two goroutines.  The buffer is what the
    recorded stores make of the fresh buffer, and any other order of
    these stores that keeps the order of each writer gives the same
    buffer, because no two writers store into the same column. *)

Lemma replay_app a b vs : replay (a ++ b) vs = replay b (replay a vs).
Proof. unfold replay. apply foldl_app. Qed.

Lemma recorded_store vs0 who s j v ch :
  recorded vs0 ch → recorded vs0 (store who s j v ch).
Proof.
  unfold recorded, store. simpl. intros ->.
  by rewrite replay_app.
Qed.

Lemma recorded_foldl {B} vs0 (f : Chunk → B → Chunk) (l : list B) :
  (∀ ch b, recorded vs0 ch → recorded vs0 (f ch b)) →
  ∀ ch, recorded vs0 ch → recorded vs0 (foldl f ch l).
Proof.
  intros Hf. induction l as [|b l IH]; intros ch Hch; simpl; [done|].
  apply IH, Hf, Hch.
Qed.

Lemma foldM_preserves {A B} (P : A → Prop) (f : A → B → M A) (l : list B) :
  (∀ a b w a' w', f a b w = Ok a' w' → P a → P a') →
  ∀ a w a' w', foldM f l a w = Ok a' w' → P a → P a'.
Proof.
  intros Hf. induction l as [|b l IH]; intros a w a' w' Hrun Ha.
  - by injection Hrun as <- _.
  - cbn [foldM] in Hrun. unfold bind in Hrun.
    destruct (f a b w) as [a1 w1|] eqn:Hstep; [|done].
    eapply IH; [exact Hrun|]. by eapply Hf.
Qed.

Section Recorded.

Variable E : Env.

Lemma recorded_generateFieldsRow vs0 fields s ch w ch' w' :
  generateFieldsRow E fields s ch w = Ok ch' w' →
  recorded vs0 ch → recorded vs0 ch'.
Proof.
  unfold generateFieldsRow. apply foldM_preserves.
  clear. intros a j w a' w' Hstep Ha. unfold bind in Hstep.
  destruct (fields !! j) as [field|]; [|done]. simpl in Hstep.
  destruct (generateValue E field w) as [v w1|]; [|done].
  injection Hstep as <- _. by apply recorded_store.
Qed.

Lemma recorded_generationPhase vs0 fieldsToGen count width ch w ch' w' :
  generationPhase E fieldsToGen count width ch w = Ok ch' w' →
  recorded vs0 ch → recorded vs0 ch'.
Proof.
  unfold generationPhase. apply foldM_preserves.
  clear. intros a r w a' w' Hstep Ha. unfold bind in Hstep.
  destruct (reslice _ _ _) as [s|]; [|done]. simpl in Hstep.
  by eapply recorded_generateFieldsRow.
Qed.

Lemma recorded_store_sample vs0 who subSlice cells ch :
  recorded vs0 ch → recorded vs0 (store_sample who subSlice cells ch).
Proof.
  unfold store_sample. apply recorded_foldl. intros ch' [s c] Hch'.
  unfold store_row. simpl. revert Hch'. apply recorded_foldl.
  intros ch'' [j v] Hch''. by apply recorded_store.
Qed.

Lemma recorded_sampleConstraints vs0 i vals cs :
  ∀ k colIdx ch w r w',
  sampleConstraints E i vals cs k colIdx ch w = Ok r w' →
  recorded vs0 ch → recorded vs0 r.2.
Proof.
  induction cs as [|c cs IH]; intros k colIdx ch w r w' Hrun Hch.
  - by injection Hrun as <- _.
  - cbn [sampleConstraints] in Hrun. unfold bind in Hrun.
    destruct (mapM _ vals) as [subSlice|]; [|done]. simpl in Hrun.
    destruct (sampler_Sample E (w_clock w) _) as [cells err] eqn:Hs.
    simpl in Hrun. destruct err as [e|].
    + injection Hrun as <- _. by apply recorded_store_sample.
    + eapply IH; [exact Hrun|]. by apply recorded_store_sample.
Qed.

(** The buffer [fillChunk] returns is the fresh buffer with the
    recorded stores applied in order. *)
Lemma fillChunk_recorded i count w ch w' :
  fillChunk E i count w = Ok ch w' →
  values ch
  = replay (writes ch)
      (make_values count (length (FieldsToGenerate E (table i))
                          + length (FieldsToSample E (table i)))).
Proof.
  unfold fillChunk.
  set (width := length _ + length _).
  set (ch0 := {| values := make_values count width; writes := [] |}).
  assert (H0 : recorded (make_values count width) ch0) by done.
  intros Hrun. unfold bind in Hrun.
  destruct (decide (length (FieldsToGenerate E (table i)) ≠ 0)).
  - destruct (generationPhase _ _ _ _ _ _) as [ch1 w1|] eqn:Hgen; [|done].
    pose proof (recorded_generationPhase _ _ _ _ _ _ _ _ Hgen H0) as H1.
    destruct (decide (length (FieldsToSample E (table i)) ≠ 0)).
    + unfold samplingPhase, sampleFieldsTable, bind in Hrun.
      destruct (mapM _ _) as [sv|]; [|done]. simpl in Hrun.
      destruct (sampleConstraints _ _ _ _ _ _ _ _) as [r w2|] eqn:Hs; [|done].
      pose proof (recorded_sampleConstraints _ _ _ _ _ _ _ _ _ _ Hs H1) as H2.
      destruct (r.1); simpl in Hrun; injection Hrun as <- _; exact H2.
    + injection Hrun as <- _. exact H1.
  - simpl in Hrun.
    destruct (decide (length (FieldsToSample E (table i)) ≠ 0)).
    + unfold samplingPhase, sampleFieldsTable, bind in Hrun.
      destruct (mapM _ _) as [sv|]; [|done]. simpl in Hrun.
      destruct (sampleConstraints _ _ _ _ _ _ _ _) as [r w2|] eqn:Hs; [|done].
      pose proof (recorded_sampleConstraints _ _ _ _ _ _ _ _ _ _ Hs H0) as H2.
      destruct (r.1); simpl in Hrun; injection Hrun as <- _; exact H2.
    + injection Hrun as <- _. exact H0.
Qed.

End Recorded.

Lemma cell_of_alter_eq (vs : list InsertValues) r c v :
  cell_of (alter (fun row : InsertValues => <[c := v]> row) r vs) r c
  = (fun _ => v) <$> cell_of vs r c.
Proof.
  unfold cell_of. rewrite list_lookup_alter_eq.
  destruct (vs !! r) as [row|]; simpl; [|done].
  destruct (row !! c) as [old|] eqn:Hc; simpl.
  - apply list_lookup_insert_eq. by eapply lookup_lt_Some.
  - apply lookup_ge_None. rewrite length_insert. by apply lookup_ge_None.
Qed.

Lemma cell_of_alter_ne (vs : list InsertValues) r c r' c' v :
  ¬ (r' = r ∧ c' = c) →
  cell_of (alter (fun row : InsertValues => <[c' := v]> row) r' vs) r c
  = cell_of vs r c.
Proof.
  unfold cell_of. intros Hne.
  destruct (decide (r' = r)) as [->|Hr].
  - rewrite list_lookup_alter_eq.
    destruct (vs !! r) as [row|]; simpl; [|done].
    apply list_lookup_insert_ne. intros ->. by apply Hne.
  - by rewrite list_lookup_alter_ne.
Qed.

(** A cell after the stores: the value of the last store into it, or
    what it held before. *)
Lemma cell_of_replay ws vs r c :
  cell_of (replay ws vs) r c
  = (fun old => from_option cw_val old
                  (last (filter (fun cw => cw_row cw = r ∧ cw_col cw = c) ws)))
    <$> cell_of vs r c.
Proof.
  induction ws as [|cw ws IH] using rev_ind.
  - simpl. by destruct (cell_of vs r c).
  - rewrite replay_app, filter_app. simpl.
    destruct (decide (cw_row cw = r ∧ cw_col cw = c)) as [[<- <-]|Hne].
    + rewrite cell_of_alter_eq, IH.
      rewrite filter_cons_True by done. rewrite filter_nil, last_snoc.
      by destruct (cell_of vs (cw_row cw) (cw_col cw)).
    + rewrite cell_of_alter_ne by done. rewrite IH.
      rewrite filter_cons_False by done. by rewrite filter_nil, app_nil_r.
Qed.

Lemma replay_shape ws vs : length <$> replay ws vs = length <$> vs.
Proof.
  induction ws as [|cw ws IH] using rev_ind; [done|].
  rewrite replay_app. simpl. rewrite <- IH.
  apply list_eq. intros r. rewrite !list_lookup_fmap.
  destruct (decide (cw_row cw = r)) as [<-|Hr].
  - rewrite list_lookup_alter_eq.
    destruct (replay ws vs !! cw_row cw) as [row|]; simpl; [|done].
    by rewrite length_insert.
  - by rewrite list_lookup_alter_ne.
Qed.

Lemma cells_ext (a b : list InsertValues) :
  length <$> a = length <$> b →
  (∀ r c, cell_of a r c = cell_of b r c) → a = b.
Proof.
  intros Hshape Hcells. apply list_eq. intros r.
  assert (Hr : (length <$> a) !! r = (length <$> b) !! r) by by rewrite Hshape.
  rewrite !list_lookup_fmap in Hr.
  destruct (a !! r) as [ra|] eqn:Ha, (b !! r) as [rb|] eqn:Hb; try done.
  f_equal. apply list_eq. intros c.
  specialize (Hcells r c). unfold cell_of in Hcells.
  by rewrite Ha, Hb in Hcells.
Qed.

Lemma filter_none {A} (P : A → Prop) `{∀ x, Decision (P x)} (l : list A) :
  Forall (fun x => ¬ P x) l → filter P l = [].
Proof.
  induction 1 as [|x l Hx _ IH]; [done|].
  by rewrite filter_cons_False.
Qed.

Lemma filter_refine {A} (P Q : A → Prop)
    `{∀ x, Decision (P x)} `{∀ x, Decision (Q x)} (l : list A) :
  Forall (fun x => P x → Q x) l → filter P (filter Q l) = filter P l.
Proof.
  induction 1 as [|x l Hx _ IH]; [done|].
  destruct (decide (Q x)) as [HQ|HQ].
  - rewrite (filter_cons_True Q) by done.
    destruct (decide (P x)).
    + rewrite !(filter_cons_True P) by done. by rewrite IH.
    + rewrite !(filter_cons_False P) by done. exact IH.
  - rewrite (filter_cons_False Q) by done.
    rewrite (filter_cons_False P) by (intros HP; by apply HQ, Hx). exact IH.
Qed.

(** Any order of the stores of a chunk that keeps the order of each
    writer gives the buffer of [fillChunk]. *)
Theorem stores_interleave nGen cs (ws ws' : list CellWrite)
    (vs : list InsertValues) :
  Forall (owned nGen cs) ws →
  (∀ p, filter (fun cw => cw_by cw = p) ws'
        = filter (fun cw => cw_by cw = p) ws) →
  replay ws' vs = replay ws vs.
Proof.
  intros Hown Hsame.
  assert (Hsub : ∀ cw, cw ∈ ws' → cw ∈ ws).
  { intros cw Hcw.
    assert (Hin : cw ∈ filter (fun x => cw_by x = cw_by cw) ws').
    { apply list_elem_of_filter. by split. }
    rewrite Hsame in Hin. by apply list_elem_of_filter in Hin as [_ ?]. }
  rewrite Forall_forall in Hown.
  apply cells_ext; [by rewrite !replay_shape|].
  intros r c. rewrite !cell_of_replay. do 3 f_equal.
  destruct (filter (fun cw => cw_col cw = c) ws) as [|cw0 rest] eqn:Hcol.
  - assert (Hno : ∀ l : list CellWrite, (∀ cw, cw ∈ l → cw ∈ ws) →
              filter (fun cw => cw_row cw = r ∧ cw_col cw = c) l = []).
    { intros l Hl. apply filter_none, Forall_forall. intros cw Hcw [_ Hc].
      assert (Hin : cw ∈ filter (fun cw => cw_col cw = c) ws).
      { apply list_elem_of_filter. split; [done|by apply Hl]. }
      rewrite Hcol in Hin. by apply elem_of_nil in Hin. }
    rewrite (Hno ws) by done. by rewrite (Hno ws') by done.
  - assert (H0 : cw0 ∈ ws ∧ cw_col cw0 = c).
    { assert (Hin : cw0 ∈ filter (fun cw => cw_col cw = c) ws)
        by (rewrite Hcol; left).
      apply list_elem_of_filter in Hin. tauto. }
    destruct H0 as [Hin0 Hc0].
    assert (Hone : ∀ l : list CellWrite, (∀ cw, cw ∈ l → cw ∈ ws) →
              filter (fun cw => cw_row cw = r ∧ cw_col cw = c)
                     (filter (fun cw => cw_by cw = cw_by cw0) l)
              = filter (fun cw => cw_row cw = r ∧ cw_col cw = c) l).
    { intros l Hl. apply filter_refine, Forall_forall. intros cw Hcw [_ Hc].
      eapply owned_disjoint; [by apply Hown, Hl|by apply Hown|congruence]. }
    rewrite <- (Hone ws) by done. rewrite <- (Hone ws') by done.
    by rewrite Hsame.
Qed.

(** In particular for the buffer of a chunk. *)
Corollary fillChunk_any_interleaving (E : Env) (i : Insert) (count : Z)
    (w : World) :
  table_wf E (table i) →
  ∃ ch w',
    fillChunk E i count w = Ok ch w' ∧
    ∀ ws', (∀ p, filter (fun cw => cw_by cw = p) ws'
                 = filter (fun cw => cw_by cw = p) (writes ch)) →
           replay ws'
             (make_values count (length (FieldsToGenerate E (table i))
                                 + length (FieldsToSample E (table i))))
           = values ch.
Proof.
  intros Hwf.
  destruct (fillChunk_spec E i count w Hwf)
    as (ch & w' & calls & Hrun & _ & _ & _ & Hown & _).
  exists ch, w'. split; [done|]. intros ws' Hsame.
  rewrite (fillChunk_recorded E i count w ch w' Hrun).
  by eapply stores_interleave.
Qed.

(** ** The channels across a run

    Nothing below [run] and [NotifyChan] makes or closes a channel:
    the body of a run ends, by return or by panic, with the channels
    it started with. *)

Lemma keeps_ret {A} (a : A) : keeps_chans (ret a).
Proof. by intros w. Qed.

Lemma keeps_panic {A} msg : keeps_chans (panic (A := A) msg).
Proof. by intros w. Qed.

Lemma keeps_bind {A B} (m : M A) (k : A → M B) :
  keeps_chans m → (∀ a, keeps_chans (k a)) → keeps_chans (bind m k).
Proof.
  intros Hm Hk w. unfold bind. specialize (Hm w).
  destruct (m w) as [a w'|msg w']; simpl in *; [|done].
  by rewrite Hk.
Qed.

Lemma keeps_checked {A} msg (o : option A) : keeps_chans (checked msg o).
Proof. destruct o; [apply keeps_ret|apply keeps_panic]. Qed.

Lemma keeps_log ev : keeps_chans (log ev).
Proof. by intros w. Qed.

Lemma keeps_foldM {A B} (f : A → B → M A) (l : list B) :
  (∀ a b, keeps_chans (f a b)) → ∀ a, keeps_chans (foldM f l a).
Proof.
  intros Hf. induction l as [|b l IH]; intros a; cbn [foldM].
  - apply keeps_ret.
  - apply keeps_bind; [apply Hf|done].
Qed.

Section Channels.

Variable E : Env.

Lemma keeps_generateValue field : keeps_chans (generateValue E field).
Proof.
  unfold generateValue.
  repeat case_decide; try apply keeps_ret.
  - apply keeps_bind; [by intros w|]. intros y1.
    apply keeps_bind; [by intros w|]. intros y2. apply keeps_ret.
  - apply keeps_bind; [apply keeps_log|]. intros _. apply keeps_ret.
Qed.

Lemma keeps_generateFieldsRow fields s ch :
  keeps_chans (generateFieldsRow E fields s ch).
Proof.
  unfold generateFieldsRow. apply keeps_foldM. intros a j.
  apply keeps_bind; [apply keeps_checked|]. intros field.
  apply keeps_bind; [apply keeps_generateValue|]. intros v. apply keeps_ret.
Qed.

Lemma keeps_generationPhase fieldsToGen count width ch :
  keeps_chans (generationPhase E fieldsToGen count width ch).
Proof.
  unfold generationPhase. apply keeps_foldM. intros a r.
  apply keeps_bind; [apply keeps_checked|]. intros s.
  apply keeps_generateFieldsRow.
Qed.

Lemma keeps_sampleConstraints i vals cs :
  ∀ k colIdx ch, keeps_chans (sampleConstraints E i vals cs k colIdx ch).
Proof.
  induction cs as [|c cs IH]; intros k colIdx ch; cbn [sampleConstraints].
  - apply keeps_ret.
  - apply keeps_bind; [apply keeps_checked|]. intros subSlice.
    apply keeps_bind; [by intros w|]. intros r.
    destruct (r.2); [apply keeps_ret|apply IH].
Qed.

Lemma keeps_fillChunk i count : keeps_chans (fillChunk E i count).
Proof.
  unfold fillChunk. apply keeps_bind.
  - case_decide; [apply keeps_generationPhase|apply keeps_ret].
  - intros ch1. case_decide; [|apply keeps_ret].
    unfold samplingPhase. apply keeps_bind; [apply keeps_checked|].
    intros sampledValues. apply keeps_bind.
    + apply keeps_sampleConstraints.
    + intros r. destruct (r.1); [|apply keeps_ret].
      apply keeps_bind; [apply keeps_log|]. intros _. apply keeps_ret.
Qed.

Lemma keeps_genQuery i count : keeps_chans (genQuery E i count).
Proof.
  unfold genQuery. case_decide; [apply keeps_ret|].
  apply keeps_bind; [apply keeps_log|]. intros _.
  apply keeps_bind; [apply keeps_fillChunk|]. intros ch. apply keeps_ret.
Qed.

Lemma keeps_insert i count dryRun : keeps_chans (insert E i count dryRun).
Proof.
  unfold insert. case_decide; [apply keeps_ret|].
  apply keeps_bind; [apply keeps_genQuery|]. intros insertQuery.
  apply keeps_bind; [apply keeps_checked|]. intros q.
  destruct dryRun.
  - apply keeps_bind; [by intros w|]. intros [err|]; apply keeps_ret.
  - apply keeps_bind; [by intros w|]. intros [err|ra]; [|apply keeps_ret].
    apply keeps_bind; [apply keeps_log|]. intros _. apply keeps_ret.
Qed.

(** A send, delivered, dropped or refused, leaves the channels as
    they are. *)
Lemma keeps_notify i n : keeps_chans (notify E i n).
Proof.
  unfold notify. destruct (notifyChan i) as [c|]; [|apply keeps_ret].
  intros w. unfold try_send. by destruct (w_chans w !! c) as [[]|].
Qed.

Lemma keeps_runLoop i bulksize remainder dryRun :
  ∀ todo okCount,
  keeps_chans (runLoop E i todo bulksize remainder dryRun okCount).
Proof.
  induction todo as [|todo IH]; intros okCount; cbn [runLoop].
  - apply keeps_bind; [apply keeps_insert|]. intros r.
    apply keeps_bind; [apply keeps_notify|]. intros _. apply keeps_ret.
  - apply keeps_bind; [apply keeps_insert|]. intros r.
    destruct (r.2); [apply keeps_ret|].
    apply keeps_bind; [apply keeps_notify|]. intros _. apply IH.
Qed.

Lemma keeps_runBody i count bulksize dryRun :
  keeps_chans (runBody E i count bulksize dryRun).
Proof.
  unfold runBody. apply keeps_bind; [apply keeps_checked|].
  intros completeInserts. apply keeps_runLoop.
Qed.

(** A run on an [Insert] whose channel is closed ends in the panic of
    its deferred [close], whatever the body did before. *)
Lemma run_closed_channel i c count bulksize dryRun w :
  notifyChan i = Some c → w_chans w !! c = Some false →
  ∃ w', run E i count bulksize dryRun w = Panic "close of closed channel" w'.
Proof.
  intros Hc Hclosed. unfold run. rewrite Hc. unfold deferred.
  pose proof (keeps_runBody i count bulksize dryRun w) as Hkeep.
  destruct (runBody E i count bulksize dryRun w) as [a w'|msg w'];
    simpl in Hkeep; rewrite close_chan_closed by (by rewrite Hkeep);
    by eexists.
Qed.

(** A run of no rows on an open channel returns and closes it. *)
Lemma empty_run_closes i c w :
  notifyChan i = Some c → w_chans w !! c = Some true →
  ∃ w', Run E i 0 1 w = Ok (0%Z, None) w' ∧ w_chans w' !! c = Some false.
Proof.
  intros Hc Hopen.
  set (w1 := noted (w_chans w) (ChSend c 0 (receiver_ready E (w_clock w) c))
               (tick w)).
  assert (Hbody : runBody E i 0 1 false w = Ok (0%Z, None) w1).
  { unfold runBody. erewrite bind_ok by reflexivity.
    change (Z.to_nat (Int64.wrap (0 ÷ 1))) with 0. cbn [runLoop].
    erewrite bind_ok by (by apply insert_skip).
    unfold notify at 1. rewrite Hc. cbn [fst snd].
    unfold try_send, bind. by rewrite Hopen. }
  eexists. split.
  - unfold Run, run. rewrite Hc. unfold deferred. rewrite Hbody.
    rewrite close_chan_open; [reflexivity|]. exact Hopen.
  - simpl. apply list_lookup_insert_eq. by eapply lookup_lt_Some.
Qed.

End Channels.

(** * The claims *)

Lemma sumZ_replicate n (b : Z) : sumZ (replicate n b) = (Z.of_nat n * b)%Z.
Proof. induction n as [|n IH]; [done|]. simpl. rewrite IH. lia. Qed.

Lemma sumZ_prefix (l1 l2 : list Z) :
  l1 `prefix_of` l2 → Forall (fun n => 0 ≤ n)%Z l2 →
  (0 ≤ sumZ l1 ≤ sumZ l2)%Z.
Proof.
  intros [k ->] Hall. apply Forall_app in Hall as [H1 H2].
  rewrite sumZ_app.
  assert (Hnn : ∀ l, Forall (fun n => 0 ≤ n)%Z l → (0 ≤ sumZ l)%Z).
  { induction 1; simpl; lia. }
  pose proof (Hnn _ H1). pose proof (Hnn _ H2). lia.
Qed.

Lemma planned_bounds count bulksize :
  Int64.in_range count → (1 ≤ bulksize)%Z →
  Forall (fun n => 0 ≤ n)%Z (planned count bulksize) ∧
  (sumZ (planned count bulksize) ≤ Int64.max_int)%Z.
Proof.
  intros Hc Hb. destruct (Z.le_gt_cases 0 count) as [Hpos|Hneg].
  - rewrite planned_nonneg by done.
    destruct (quot_nonneg_bounds count bulksize Hpos Hb) as (Hq & Hq1 & Hr).
    rewrite Hq in *. split.
    + apply Forall_app. split.
      * apply Forall_replicate. lia.
      * case_decide; constructor; [lia|constructor].
    + rewrite sumZ_app, sumZ_replicate, Z2Nat.id by lia.
      unfold Int64.in_range in Hc. case_decide; simpl; lia.
  - rewrite planned_nonpos by lia. split; [constructor|].
    unfold Int64.max_int. simpl. lia.
Qed.

Lemma committed_dry ss :
  Forall (fun s => is_dry s = true) ss →
  Forall (fun s => failure s = None) ss →
  committed <$> ss = st_rows <$> ss.
Proof.
  induction 1 as [|s ss Hs _ IH]; intros Hok; [done|].
  apply Forall_cons in Hok as [Hf Hok].
  rewrite !fmap_cons, IH by done. f_equal.
  unfold is_dry, failure, committed in *.
  by destruct (st_call s) as [wr d [e|]|q r].
Qed.

(** C1. For every count and every bulksize of at least 1, [run] issues
    floor(count / bulksize) statements of bulksize rows each and then
    one statement of the rows that remain, none when nothing remains;
    for a count below 1 no statement is issued and zero rows are
    reported.  The statements issued are always a prefix of this plan,
    and the whole plan when none of them fails. *)
Theorem C1_run_issues_the_plan (E : Env) (i : Insert) (count bulksize : Z)
    (dryRun : bool) (w : World) :
  Int64.in_range count → Int64.in_range bulksize → (1 ≤ bulksize)%Z →
  table_wf E (table i) → chan_ready i w →
  ∃ okCount err w' ss,
    run E i count bulksize dryRun w = Ok (okCount, err) w' ∧
    w_stmts w' = w_stmts w ++ ss ∧
    Forall (rendered E i) ss ∧
    ((count < 1)%Z → ss = [] ∧ okCount = 0%Z ∧ err = None) ∧
    ((0 ≤ count)%Z →
       let plan :=
         replicate (Z.to_nat (count `div` bulksize)) bulksize
         ++ (if decide (count - count `div` bulksize * bulksize = 0)%Z
             then [] else [count - count `div` bulksize * bulksize])%Z in
       (st_rows <$> ss) `prefix_of` plan ∧
       (Forall (fun s => failure s = None) ss →
          st_rows <$> ss = plan ∧ err = None)).
Proof.
  intros Hc Hb H1 Hwf Hready.
  destruct (run_spec E i count bulksize dryRun w Hc Hb H1 Hwf Hready)
    as (okCount & err & w' & ss & Hrun & Hst & Hsum & Hrend & _ & Hout & _).
  exists okCount, err, w', ss. do 3 (split; [done|]). split.
  - intros Hlt. rewrite planned_nonpos in Hout by done.
    destruct Hout as [(_ & -> & Hnil)|(pre & s & e & -> & _ & _ & _ & Hpfx)].
    + apply fmap_nil_inv in Hnil as ->. by rewrite Hsum.
    + apply prefix_nil_inv in Hpfx. rewrite fmap_app in Hpfx.
      by destruct (st_rows <$> pre).
  - intros Hpos. rewrite planned_nonneg in Hout by done. simpl.
    destruct Hout as [(_ & -> & Hplan)|(pre & s & e & -> & _ & Hf & _ & Hpfx)].
    + split; [by rewrite Hplan|done].
    + split; [done|]. intros Hall.
      apply Forall_app in Hall as [_ Hs]. apply Forall_inv in Hs.
      simpl in Hs. congruence.
Qed.

Lemma C1_witness :
  (Int64.in_range 11 ∧ Int64.in_range 4 ∧ (1 ≤ 4)%Z ∧
   table_wf Shop.calm (table Shop.ins) ∧
   chan_ready Shop.ins Shop.world0) ∧
  ∃ okCount err w' ss,
    run Shop.calm Shop.ins 11 4 true Shop.world0 = Ok (okCount, err) w' ∧
    w_stmts w' = w_stmts Shop.world0 ++ ss ∧
    Forall (rendered Shop.calm Shop.ins) ss ∧
    ((11 < 1)%Z → ss = [] ∧ okCount = 0%Z ∧ err = None) ∧
    ((0 ≤ 11)%Z →
       let plan :=
         replicate (Z.to_nat (11 `div` 4)) 4%Z
         ++ (if decide (11 - 11 `div` 4 * 4 = 0)%Z
             then [] else [11 - 11 `div` 4 * 4])%Z in
       (st_rows <$> ss) `prefix_of` plan ∧
       (Forall (fun s => failure s = None) ss →
          st_rows <$> ss = plan ∧ err = None)).
Proof.
  assert (H1 : Int64.in_range 11) by (vm_compute; split; discriminate).
  assert (H2 : Int64.in_range 4) by (vm_compute; split; discriminate).
  assert (H3 : (1 ≤ 4)%Z) by lia.
  assert (H4 : table_wf Shop.calm (table Shop.ins)) by (right; vm_compute; lia).
  assert (H5 : chan_ready Shop.ins Shop.world0) by exact I.
  split; [done|].
  exact (C1_run_issues_the_plan Shop.calm Shop.ins 11 4 true
           Shop.world0 H1 H2 H3 H4 H5).
Defined.

(** C3. When a statement of the plan fails (a write error in dry-run
    mode as well as an execution error), it is the last statement [run]
    issues; [run] returns that error, and the count it returns is the
    sum of the rows reported for the statements before it, the failing
    one adding zero.  The sum is reduced to 64 bits as [int64] addition
    does; in dry-run mode it is the exact sum. *)
Theorem C3_run_stops_at_first_failure (E : Env) (i : Insert)
    (count bulksize : Z) (dryRun : bool) (w : World) :
  Int64.in_range count → Int64.in_range bulksize → (1 ≤ bulksize)%Z →
  table_wf E (table i) → chan_ready i w →
  ∃ okCount err w' ss,
    run E i count bulksize dryRun w = Ok (okCount, err) w' ∧
    w_stmts w' = w_stmts w ++ ss ∧
    (st_rows <$> ss) `prefix_of` planned count bulksize ∧
    ∀ k s e, ss !! k = Some s → failure s = Some e →
      length ss = S k ∧
      err = Some e ∧
      committed s = 0%Z ∧
      Forall (fun s => failure s = None) (take k ss) ∧
      okCount = Int64.wrap (sumZ (committed <$> take k ss)) ∧
      (dryRun = true → okCount = sumZ (committed <$> take k ss)).
Proof.
  intros Hc Hb H1 Hwf Hready.
  destruct (run_spec E i count bulksize dryRun w Hc Hb H1 Hwf Hready)
    as (okCount & err & w' & ss & Hrun & Hst & Hsum & _ & Hdry & Hout & _).
  exists okCount, err, w', ss. do 2 (split; [done|]).
  destruct Hout as [(Hall & -> & Hplan)|(pre & s' & e' & -> & Hpre & Hf & -> & Hpfx)].
  - split; [by rewrite Hplan|]. intros k s e Hk Hfail.
    rewrite Forall_lookup in Hall. specialize (Hall k s Hk). simpl in Hall.
    congruence.
  - split; [done|]. intros k s e Hk Hfail.
    assert (Hklen : k = length pre).
    { destruct (Nat.lt_trichotomy k (length pre)) as [Hlt|[->|Hgt]]; [|done|].
      - rewrite lookup_app_l in Hk by done.
        rewrite Forall_lookup in Hpre. specialize (Hpre k s Hk). simpl in Hpre.
        congruence.
      - apply lookup_lt_Some in Hk. rewrite length_app in Hk. simpl in Hk. lia. }
    subst k. rewrite list_lookup_middle in Hk by done.
    injection Hk as <-. rewrite Hf in Hfail. injection Hfail as <-.
    rewrite take_app_length.
    assert (Hsum' : okCount = Int64.wrap (sumZ (committed <$> pre))).
    { rewrite Hsum, fmap_app, sumZ_app. simpl.
      rewrite (failure_committed _ _ Hf). f_equal. lia. }
    split; [rewrite length_app; simpl; lia|].
    split; [done|]. split; [by eapply failure_committed|].
    split; [done|]. split; [done|].
    intros ->. rewrite Hsum'. apply wrap_id.
    apply Forall_app in Hdry as [Hdry _].
    rewrite (committed_dry pre Hdry Hpre).
    destruct (planned_bounds count bulksize Hc H1) as [Hnn Hmax].
    assert (Hp : (st_rows <$> pre) `prefix_of` planned count bulksize).
    { etrans; [|exact Hpfx]. rewrite fmap_app. by apply prefix_app_r. }
    pose proof (sumZ_prefix _ _ Hp Hnn).
    unfold Int64.in_range, Int64.min_int, Int64.max_int in *. lia.
Qed.

Lemma C3_witness :
  (Int64.in_range 5 ∧ Int64.in_range 2 ∧ (1 ≤ 2)%Z ∧
   table_wf Shop.failing_writer (table Shop.ins) ∧
   chan_ready Shop.ins Shop.world0) ∧
  ∃ okCount err w' ss,
    run Shop.failing_writer Shop.ins 5 2 true Shop.world0
    = Ok (okCount, err) w' ∧
    w_stmts w' = w_stmts Shop.world0 ++ ss ∧
    (st_rows <$> ss) `prefix_of` planned 5 2 ∧
    ∀ k s e, ss !! k = Some s → failure s = Some e →
      length ss = S k ∧
      err = Some e ∧
      committed s = 0%Z ∧
      Forall (fun s => failure s = None) (take k ss) ∧
      okCount = Int64.wrap (sumZ (committed <$> take k ss)) ∧
      (true = true → okCount = sumZ (committed <$> take k ss)).
Proof.
  assert (H1 : Int64.in_range 5) by (vm_compute; split; discriminate).
  assert (H2 : Int64.in_range 2) by (vm_compute; split; discriminate).
  assert (H3 : (1 ≤ 2)%Z) by lia.
  assert (H4 : table_wf Shop.failing_writer (table Shop.ins))
    by (right; vm_compute; lia).
  assert (H5 : chan_ready Shop.ins Shop.world0) by exact I.
  split; [done|].
  exact (C3_run_stops_at_first_failure Shop.failing_writer Shop.ins 5 2
           true Shop.world0 H1 H2 H3 H4 H5).
Defined.

(** The run of the witness above: the second of the three planned
    statements fails, two statements are issued, and the two rows of
    the first are returned with the error. *)
Example partial_failure_scenario :
  ∃ w' s1 s2,
    DryRun Shop.failing_writer Shop.ins 5 2 Shop.world0
    = Ok (2%Z, Some (ErrNew "disk full")) w' ∧
    planned 5 2 = [2; 2; 1]%Z ∧
    w_stmts w' = [s1; s2] ∧
    failure s1 = None ∧ committed s1 = 2%Z ∧
    failure s2 = Some (ErrNew "disk full").
Proof. eexists _, _, _. vm_compute. repeat split. Qed.

(** C8. A chunk of at least one row in dry-run mode is one [Write] of
    the statement text followed by a newline to the writer of the
    [Insert], and nothing is executed against the database; when the
    write succeeds the count reported is the count asked for (a failed
    write reports zero and its error). *)
Theorem C8_dry_run_writes_statement (E : Env) (i : Insert) (count : Z)
    (w : World) :
  (1 ≤ count)%Z → table_wf E (table i) →
  ∃ text w1 n err w',
    genQuery E i count w = Ok (Some text) w1 ∧
    insert E i count true w = Ok (n, err) w' ∧
    let res := writer_Write E (w_clock w1) (writer i) (text +:+ newline) in
    w_stmts w' = w_stmts w
                 ++ [mkStmt count (CallWrite (writer i) (text +:+ newline) res)] ∧
    (res = None → n = count ∧ err = None) ∧
    (∀ e, res = Some e → n = 0%Z ∧ err = Some e).
Proof.
  intros Hcount Hwf.
  destruct (insert_dry_spec E i count w Hcount Hwf)
    as (ch & w1 & Hgen & Hq & _ & Hins).
  simpl in Hins. eexists _, w1, _, _, _.
  split; [exact Hgen|]. split; [exact Hins|]. simpl.
  destruct Hq as [_ _ Hst _ _]. split; [by rewrite Hst|].
  unfold committed, failure. simpl.
  split; [by intros ->|]. by intros e ->.
Qed.

Lemma C8_witness :
  ((1 ≤ 2)%Z ∧ table_wf Shop.calm (table Shop.ins)) ∧
  ∃ text w1 n err w',
    genQuery Shop.calm Shop.ins 2 Shop.world0 = Ok (Some text) w1 ∧
    insert Shop.calm Shop.ins 2 true Shop.world0 = Ok (n, err) w' ∧
    let res := writer_Write Shop.calm (w_clock w1) (writer Shop.ins)
                 (text +:+ newline) in
    w_stmts w' = w_stmts Shop.world0
                 ++ [mkStmt 2 (CallWrite (writer Shop.ins) (text +:+ newline) res)] ∧
    (res = None → n = 2%Z ∧ err = None) ∧
    (∀ e, res = Some e → n = 0%Z ∧ err = Some e).
Proof.
  assert (H1 : (1 ≤ 2)%Z) by lia.
  assert (H2 : table_wf Shop.calm (table Shop.ins))
    by (right; vm_compute; lia).
  split; [done|].
  exact (C8_dry_run_writes_statement Shop.calm Shop.ins 2 Shop.world0 H1 H2).
Defined.

(** C7. The text [genQuery] returns for a chunk of at least one row is
    the header followed by the rows of the filled buffer in the order
    they were allocated, one comma between two rows and none after the
    last.  The rendering loop passes over a nil row; the buffer of
    [genQuery] has none, and for any buffer whose last row is not nil
    the loop gives the rows that are not nil with the same commas. *)
Theorem C7_rows_rendered_in_order (E : Env) (i : Insert) (count : Z)
    (w : World) :
  (1 ≤ count)%Z → table_wf E (table i) →
  (∃ ch w',
     fillChunk E i count (logged (debug_log E i) w) = Ok ch w' ∧
     length (values ch) = Z.to_nat count ∧
     genQuery E i count w
     = Ok (Some (insertHeader E i
                 +:+ String.concat "," (InsertValues_String E <$> values ch))) w') ∧
  (∀ (rows : list (option InsertValues)) (v : InsertValues) (q : string),
     last rows = Some (Some v) →
     renderRows E (length rows) 0 rows q
     = q +:+ String.concat "," (InsertValues_String E <$> omap id rows)).
Proof.
  intros Hcount Hwf. split.
  - destruct (genQuery_spec E i count w Hcount Hwf)
      as (ch & w' & calls & Hfill & Hgen & _ & _ & Hlen & _).
    exists ch, w'. do 2 (split; [done|]).
    by rewrite <- renderValues_spec.
  - intros rows v q Hlast. apply renderRows_spec; [done|]. right. by exists v.
Qed.

Lemma C7_witness :
  ((1 ≤ 2)%Z ∧ table_wf Shop.calm (table Shop.ins)) ∧
  (∃ ch w',
     fillChunk Shop.calm Shop.ins 2
       (logged (debug_log Shop.calm Shop.ins) Shop.world0) = Ok ch w' ∧
     length (values ch) = Z.to_nat 2 ∧
     genQuery Shop.calm Shop.ins 2 Shop.world0
     = Ok (Some (insertHeader Shop.calm Shop.ins
                 +:+ String.concat ","
                       (InsertValues_String Shop.calm <$> values ch))) w') ∧
  (∀ (rows : list (option InsertValues)) (v : InsertValues) (q : string),
     last rows = Some (Some v) →
     renderRows Shop.calm (length rows) 0 rows q
     = q +:+ String.concat ","
               (InsertValues_String Shop.calm <$> omap id rows)).
Proof.
  assert (H1 : (1 ≤ 2)%Z) by lia.
  assert (H2 : table_wf Shop.calm (table Shop.ins))
    by (right; vm_compute; lia).
  split; [done|].
  exact (C7_rows_rendered_in_order Shop.calm Shop.ins 2 Shop.world0 H1 H2).
Defined.

(** The loop on a buffer whose last row is nil leaves the comma of the
    row before it; [genQuery] never renders such a buffer. *)
Example render_nil_last_row :
  renderRows Shop.calm 2 0 [Some [Some (SampledValue "7")]; None] ""
  = "(7),".
Proof. vm_compute. reflexivity. Qed.

(** C9. The stores of a chunk fall into disjoint column ranges: the
    generation phase stores below the number of generate-columns, the
    sampler of the k-th constraint into the columns from
    [nGen + colStart k] up to [nGen + colStart (k+1)], where each
    constraint advances the start by the number of its referenced
    fields; so no cell is stored into by two writers. *)
Theorem C9_phases_store_disjoint_columns (E : Env) (i : Insert) (count : Z)
    (w : World) :
  table_wf E (table i) →
  let nGen := length (FieldsToGenerate E (table i)) in
  let cs := Constraints (table i) in
  ∃ ch w',
    fillChunk E i count w = Ok ch w' ∧
    (∀ cw, cw ∈ writes ch →
       match cw_by cw with
       | Generation => cw_col cw < nGen
       | Sampling k =>
           k < length cs ∧
           nGen + colStart cs k ≤ cw_col cw < nGen + colStart cs (S k)
       end) ∧
    colStart cs 0 = 0 ∧
    (∀ k c, cs !! k = Some c →
       colStart cs (S k) = colStart cs k + length (ReferencedFields c)) ∧
    (∀ cw1 cw2, cw1 ∈ writes ch → cw2 ∈ writes ch →
       cw_row cw1 = cw_row cw2 → cw_col cw1 = cw_col cw2 →
       cw_by cw1 = cw_by cw2).
Proof.
  intros Hwf nGen cs.
  destruct (fillChunk_spec E i count w Hwf)
    as (ch & w' & calls & Hrun & _ & _ & _ & Hown & _).
  rewrite Forall_forall in Hown.
  exists ch, w'. split; [done|]. split; [exact Hown|]. split; [done|].
  split; [apply colStart_S|].
  intros cw1 cw2 H1 H2 _ Hcol.
  eapply owned_disjoint; [by apply Hown..|done].
Qed.

Lemma C9_witness :
  table_wf Shop.calm (table Shop.ins) ∧
  let nGen := length (FieldsToGenerate Shop.calm (table Shop.ins)) in
  let cs := Constraints (table Shop.ins) in
  ∃ ch w',
    fillChunk Shop.calm Shop.ins 2 Shop.world0 = Ok ch w' ∧
    (∀ cw, cw ∈ writes ch →
       match cw_by cw with
       | Generation => cw_col cw < nGen
       | Sampling k =>
           k < length cs ∧
           nGen + colStart cs k ≤ cw_col cw < nGen + colStart cs (S k)
       end) ∧
    colStart cs 0 = 0 ∧
    (∀ k c, cs !! k = Some c →
       colStart cs (S k) = colStart cs k + length (ReferencedFields c)) ∧
    (∀ cw1 cw2, cw1 ∈ writes ch → cw2 ∈ writes ch →
       cw_row cw1 = cw_row cw2 → cw_col cw1 = cw_col cw2 →
       cw_by cw1 = cw_by cw2).
Proof.
  assert (H1 : table_wf Shop.calm (table Shop.ins))
    by (right; vm_compute; lia).
  split; [done|].
  exact (C9_phases_store_disjoint_columns Shop.calm Shop.ins 2
           Shop.world0 H1).
Defined.

(** The stores of that chunk, as they happen. *)
Example chunk_stores :
  ∃ ch w',
    fillChunk Shop.calm Shop.ins 2 Shop.world0 = Ok ch w' ∧
    writes ch =
      (let amount := Some (NewRandomInt "amount" 0x7FFFFFFF false) in
       let id := Some (SampledValue "7") in
       [ mkCellWrite Generation 0 0 None; mkCellWrite Generation 0 1 amount;
         mkCellWrite Generation 1 0 None; mkCellWrite Generation 1 1 amount;
         mkCellWrite (Sampling 0) 0 2 id; mkCellWrite (Sampling 0) 1 2 id ]) ∧
    values ch =
      [ [None; Some (NewRandomInt "amount" 0x7FFFFFFF false);
         Some (SampledValue "7")];
        [None; Some (NewRandomInt "amount" 0x7FFFFFFF false);
         Some (SampledValue "7")] ].
Proof. eexists _, _. vm_compute. repeat split. Qed.

Lemma sampling_outcome_failure calls w' k smp e :
  sampling_outcome calls w' → calls !! k = Some (smp, Some e) →
  length calls = S k ∧ sampling_log e ∈ w_log w'.
Proof.
  intros [Hall|(pre & s0 & e0 & -> & Hpre & Hlog)] Hk.
  - rewrite Forall_lookup in Hall. by specialize (Hall k _ Hk).
  - destruct (Nat.lt_trichotomy k (length pre)) as [Hlt|[->|Hgt]].
    + rewrite lookup_app_l in Hk by done.
      rewrite Forall_lookup in Hpre. by specialize (Hpre k _ Hk).
    + rewrite list_lookup_middle in Hk by done. injection Hk as -> ->.
      split; [rewrite length_app; simpl; lia|done].
    + apply lookup_lt_Some in Hk. rewrite length_app in Hk. simpl in Hk. lia.
Qed.

(** C2, as the code has it.  A sampler that returns an error ends the
    sampling of its chunk: it is the last sampler run of the chunk, and
    [sampleFieldsTable] returns the error wrapped with its own name.
    [genQuery] writes that error to the log and nothing more: the
    statement of the chunk is still issued, and what [insert] returns is
    what the statement gave, so the run goes on. *)
Theorem C2_sampling_error_is_logged (E : Env) (i : Insert) (count : Z)
    (dryRun : bool) (w : World) (vals : list Slice) (base cap : nat)
    (fields : list Field) (ch : Chunk) :
  (1 ≤ count)%Z → table_wf E (table i) →
  Forall (fun v => sl_off v = base ∧ sl_cap v = cap) vals →
  sum_list (width <$> Constraints (table i)) ≤ cap →
  (∃ r w1 calls,
     sampleFieldsTable E i fields vals ch w = Ok r w1 ∧
     w_sampled w1 = w_sampled w ++ calls ∧
     (Forall (fun c => c.2 = None) calls → r.1 = None) ∧
     (∀ k smp e, calls !! k = Some (smp, Some e) →
        length calls = S k ∧ r.1 = Some (ErrWrap e "sampleFieldsTable"))) ∧
  (∃ s w' calls,
     insert E i count dryRun w = Ok (committed s, failure s) w' ∧
     w_stmts w' = w_stmts w ++ [s] ∧
     w_sampled w' = w_sampled w ++ calls ∧
     (∀ k smp e, calls !! k = Some (smp, Some e) →
        length calls = S k ∧
        LogError "error when sampling field"
          (Some (ErrWrap e "sampleFieldsTable")) [] ∈ w_log w')).
Proof.
  intros Hcount Hwf Hvals Hfit. split.
  - destruct (sampleConstraints_spec E i vals base cap (Constraints (table i))
                Hvals 0 0 ch w Hfit)
      as (r & w1 & added & calls & Hrun & _ & Hsm & _ & _ & _ & Hres).
    exists r, w1, calls. do 2 (split; [done|]).
    destruct Hres as [[Hnone Hall]|(pre & s0 & e0 & -> & Hpre & Hsome)].
    + split; [done|]. intros k smp e Hk.
      rewrite Forall_lookup in Hall. by specialize (Hall k _ Hk).
    + split.
      { intros Hall. apply Forall_app in Hall as [_ Hs].
        by apply Forall_inv in Hs. }
      intros k smp e Hk.
      destruct (Nat.lt_trichotomy k (length pre)) as [Hlt|[->|Hgt]].
      * rewrite lookup_app_l in Hk by done.
        rewrite Forall_lookup in Hpre. by specialize (Hpre k _ Hk).
      * rewrite list_lookup_middle in Hk by done. injection Hk as -> ->.
        split; [rewrite length_app; simpl; lia|done].
      * apply lookup_lt_Some in Hk. rewrite length_app in Hk. simpl in Hk. lia.
  - destruct (insert_sampled E i count dryRun w Hcount Hwf)
      as (s & w' & calls & Hins & Hst & Hsm & Hres).
    exists s, w', calls. do 3 (split; [done|]).
    intros k smp e Hk. by eapply sampling_outcome_failure.
Qed.

Lemma C2_witness :
  ((1 ≤ 1)%Z ∧ table_wf Shop.failing_sampler (table Shop.ins) ∧
   Forall (fun v => sl_off v = 2 ∧ sl_cap v = 1) [mkSlice 0 2 1 1] ∧
   sum_list (width <$> Constraints (table Shop.ins)) ≤ 1) ∧
  (∃ r w1 calls,
     sampleFieldsTable Shop.failing_sampler Shop.ins [] [mkSlice 0 2 1 1]
       (mkChunk [[None; None; None]] []) Shop.world0 = Ok r w1 ∧
     w_sampled w1 = w_sampled Shop.world0 ++ calls ∧
     (Forall (fun c => c.2 = None) calls → r.1 = None) ∧
     (∀ k smp e, calls !! k = Some (smp, Some e) →
        length calls = S k ∧ r.1 = Some (ErrWrap e "sampleFieldsTable"))) ∧
  (∃ s w' calls,
     insert Shop.failing_sampler Shop.ins 1 true Shop.world0
     = Ok (committed s, failure s) w' ∧
     w_stmts w' = w_stmts Shop.world0 ++ [s] ∧
     w_sampled w' = w_sampled Shop.world0 ++ calls ∧
     (∀ k smp e, calls !! k = Some (smp, Some e) →
        length calls = S k ∧
        LogError "error when sampling field"
          (Some (ErrWrap e "sampleFieldsTable")) [] ∈ w_log w')).
Proof.
  assert (H1 : (1 ≤ 1)%Z) by lia.
  assert (H2 : table_wf Shop.failing_sampler (table Shop.ins))
    by (right; vm_compute; lia).
  assert (H3 : Forall (fun v => sl_off v = 2 ∧ sl_cap v = 1) [mkSlice 0 2 1 1])
    by (repeat constructor).
  assert (H4 : sum_list (width <$> Constraints (table Shop.ins)) ≤ 1)
    by (vm_compute; lia).
  split; [done|].
  exact (C2_sampling_error_is_logged Shop.failing_sampler Shop.ins 1 true
           Shop.world0 [mkSlice 0 2 1 1] 2 1 [] (mkChunk [[None; None; None]] [])
           H1 H2 H3 H4).
Defined.

(** C2, as the claim has it, fails: the sampler of the only chunk
    returns an error, and the run returns one row and no error, having
    issued the statement. *)
Lemma C2_counterexample :
  ∃ w' smp e s,
    DryRun Shop.failing_sampler Shop.ins 1 1 Shop.world0
    = Ok (1%Z, None) w' ∧
    w_sampled w' = [(smp, Some e)] ∧
    w_stmts w' = [s] ∧ failure s = None.
Proof. eexists _, _, _, _. vm_compute. repeat split. Qed.

(** C4.  For a table and a referenced table, whose name like every
    table name of a schema is not empty, the sampler is chosen in this
    order: the 1-1 override of the table, if it names the referenced
    table, gives the uniform sampler; else the random-1-N override, if
    it names the referenced table, gives the random sampler; else the
    default kind decides, and every default other than "1-1" gives the
    random sampler. *)
Theorem C4_sampler_resolution (r : ForeignKeyLinks)
    (tableName refTableName : string) (c : Constraint) (subSlice : list Slice) :
  refTableName ≠ "" →
  let fklink := relationship r tableName refTableName in
  let sampler := createSamplerFromForeignkeyLinks fklink c subSlice in
  let uniform := NewUniformSample (ReferencedFields c)
                   (ReferencedTableSchema c) (ReferencedTableName c) subSlice in
  let random := NewDBRandomSample (ReferencedFields c)
                  (ReferencedTableSchema c) (ReferencedTableName c) subSlice in
  (OneToOne r !! tableName = Some refTableName → sampler = uniform) ∧
  (OneToOne r !! tableName ≠ Some refTableName →
   DBRandomOneToMany r !! tableName = Some refTableName → sampler = random) ∧
  (OneToOne r !! tableName ≠ Some refTableName →
   DBRandomOneToMany r !! tableName ≠ Some refTableName →
   fklink = DefaultRelationship r ∧
   (DefaultRelationship r = "1-1" → sampler = uniform) ∧
   (DefaultRelationship r = "db-random-1-n" → sampler = random) ∧
   (DefaultRelationship r ≠ "1-1" → sampler = random)).
Proof.
  intros Hne fklink sampler uniform random.
  assert (Hidx : ∀ m : gmap string string,
            map_index m tableName = refTableName ↔ m !! tableName = Some refTableName).
  { intros m. unfold map_index. destruct (m !! tableName) as [x|]; simpl.
    - split; [by intros ->|by intros [= ->]].
    - split; [by intros <-|done]. }
  assert (Hdef : ∀ k, k ≠ "1-1" → createSamplerFromForeignkeyLinks k c subSlice = random).
  { intros k Hk. unfold createSamplerFromForeignkeyLinks.
    rewrite decide_False by done. by case_decide. }
  subst fklink sampler. unfold relationship. split; [|split].
  - intros H11. rewrite decide_True by by apply Hidx. done.
  - intros Hn11 H1n. rewrite decide_False by by rewrite Hidx.
    rewrite decide_True by by apply Hidx. done.
  - intros Hn11 Hn1n. rewrite !decide_False by by rewrite Hidx.
    split; [done|]. split; [by intros ->|]. split; [|by apply Hdef].
    intros Hd. apply Hdef. by rewrite Hd.
Qed.

Lemma C4_witness :
  "customers" ≠ "" ∧
  let r := Shop.policy in
  let c := mkConstraint "shop" "customers" [Shop.column "id" "int"] in
  let fklink := relationship r "orders" "customers" in
  let sampler := createSamplerFromForeignkeyLinks fklink c [] in
  let uniform := NewUniformSample (ReferencedFields c)
                   (ReferencedTableSchema c) (ReferencedTableName c) [] in
  let random := NewDBRandomSample (ReferencedFields c)
                  (ReferencedTableSchema c) (ReferencedTableName c) [] in
  (OneToOne r !! "orders" = Some "customers" → sampler = uniform) ∧
  (OneToOne r !! "orders" ≠ Some "customers" →
   DBRandomOneToMany r !! "orders" = Some "customers" → sampler = random) ∧
  (OneToOne r !! "orders" ≠ Some "customers" →
   DBRandomOneToMany r !! "orders" ≠ Some "customers" →
   fklink = DefaultRelationship r ∧
   (DefaultRelationship r = "1-1" → sampler = uniform) ∧
   (DefaultRelationship r = "db-random-1-n" → sampler = random) ∧
   (DefaultRelationship r ≠ "1-1" → sampler = random)).
Proof.
  assert (H1 : "customers" ≠ "") by discriminate.
  split; [done|].
  exact (C4_sampler_resolution Shop.policy "orders" "customers"
           (mkConstraint "shop" "customers" [Shop.column "id" "int"]) [] H1).
Defined.

(** Why the name must not be empty: an override map is read as Go
    reads it, a table without an entry as the empty name. *)
Example empty_name_reads_as_override :
  let r := Shop.policy in
  let c := mkConstraint "shop" "" [Shop.column "id" "int"] in
  OneToOne r !! "orders" = None ∧
  DBRandomOneToMany r !! "orders" = None ∧
  DefaultRelationship r = "db-random-1-n" ∧
  relationship r "orders" (ReferencedTableName c) = "1-1" ∧
  createSamplerFromForeignkeyLinks
    (relationship r "orders" (ReferencedTableName c)) c []
  = NewUniformSample [Shop.column "id" "int"] "shop" "" [].
Proof. vm_compute. repeat split. Qed.

(** C5.  An integer column gets a value built with the ceiling of its
    type: [0, 1] for tinyint, bit, bool and boolean, and [0, typeMax]
    for smallint (0xFF), mediumint (0x7FFFF), int and integer
    (0x7FFFFFFF) and bigint (0x7FFFFFFFFFFFFFFF); the table also holds
    0xF for tinyint, and a type the table does not hold gets the
    ceiling of bigint.  The integer of the value lies in that range,
    and every integer of the range is the value for some draw. *)
Theorem C5_integer_ceilings (E : Env) (field : Field) (w : World) :
  DataType field ∈ ["tinyint"; "bit"; "bool"; "boolean"; "smallint";
                    "mediumint"; "int"; "integer"; "bigint"] →
  (∃ g w',
     generateValue E field w = Ok (Some g) w' ∧
     (∀ r, ∃ v, int_value g r = Some v ∧ (0 ≤ v ≤ typeMax (DataType field))%Z) ∧
     (∀ v, (0 ≤ v ≤ typeMax (DataType field))%Z → ∃ r, int_value g r = Some v)) ∧
  (typeMax "tinyint" = 1 ∧ typeMax "bit" = 1 ∧ typeMax "bool" = 1 ∧
   typeMax "boolean" = 1 ∧ typeMax "smallint" = 0xFF ∧
   typeMax "mediumint" = 0x7FFFF ∧ typeMax "int" = 0x7FFFFFFF ∧
   typeMax "integer" = 0x7FFFFFFF ∧ typeMax "bigint" = 0x7FFFFFFFFFFFFFFF)%Z ∧
  maxValues !! "tinyint" = Some 0xF%Z ∧
  (∀ dt, maxValues !! dt = None → maxValueOf dt = 0x7FFFFFFFFFFFFFFF%Z).
Proof.
  intros Hdt. split; [|split; [|split]].
  - assert (Hrange : ∀ m, (0 ≤ m)%Z →
              (∀ r, (0 ≤ r `mod` (m + 1) ≤ m)%Z) ∧
              (∀ v, (0 ≤ v ≤ m)%Z → v `mod` (m + 1) = v)%Z).
    { intros m Hm. split.
      - intros r. pose proof (Z.mod_pos_bound r (m + 1) ltac:(lia)). lia.
      - intros v Hv. apply Z.mod_small. lia. }
    unfold generateValue, typeMax.
    destruct (decide (DataType field ∈ ["tinyint"; "bit"; "bool"; "boolean"]))
      as [H01|H01].
    + eexists _, w. split; [reflexivity|]. cbn [int_value].
      destruct (Hrange 1%Z ltac:(lia)) as [Hb Hs].
      replace (1 - 0 + 1)%Z with (1 + 1)%Z by lia. split.
      * intros r. eexists. split; [reflexivity|]. specialize (Hb r). lia.
      * intros v Hv. exists v. by rewrite Hs.
    + rewrite decide_True.
      2:{ revert Hdt H01. generalize (DataType field). intros dt Hdt H01.
          mem_cases Hdt; try mem_lit; exfalso; apply H01; mem_lit. }
      assert (Hmax : (0 ≤ maxValueOf (DataType field))%Z).
      { revert Hdt. generalize (DataType field). intros dt Hdt.
        mem_cases Hdt; vm_compute; discriminate. }
      eexists _, w. split; [reflexivity|]. cbn [int_value].
      destruct (Hrange _ Hmax) as [Hb Hs]. split.
      * intros r. eexists. split; [reflexivity|]. apply Hb.
      * intros v Hv. exists v. by rewrite Hs.
  - vm_compute. repeat split.
  - vm_compute. reflexivity.
  - intros dt Hnone. unfold maxValueOf. rewrite Hnone. vm_compute. reflexivity.
Qed.

Lemma C5_witness :
  "smallint" ∈ ["tinyint"; "bit"; "bool"; "boolean"; "smallint";
                "mediumint"; "int"; "integer"; "bigint"] ∧
  (∃ g w',
     generateValue Shop.calm (Shop.column "qty" "smallint") Shop.world0
     = Ok (Some g) w' ∧
     (∀ r, ∃ v, int_value g r = Some v ∧ (0 ≤ v ≤ typeMax "smallint")%Z) ∧
     (∀ v, (0 ≤ v ≤ typeMax "smallint")%Z → ∃ r, int_value g r = Some v)) ∧
  (typeMax "tinyint" = 1 ∧ typeMax "bit" = 1 ∧ typeMax "bool" = 1 ∧
   typeMax "boolean" = 1 ∧ typeMax "smallint" = 0xFF ∧
   typeMax "mediumint" = 0x7FFFF ∧ typeMax "int" = 0x7FFFFFFF ∧
   typeMax "integer" = 0x7FFFFFFF ∧ typeMax "bigint" = 0x7FFFFFFFFFFFFFFF)%Z ∧
  maxValues !! "tinyint" = Some 0xF%Z ∧
  (∀ dt, maxValues !! dt = None → maxValueOf dt = 0x7FFFFFFFFFFFFFFF%Z).
Proof.
  assert (H1 : "smallint" ∈ ["tinyint"; "bit"; "bool"; "boolean"; "smallint";
                             "mediumint"; "int"; "integer"; "bigint"])
    by (apply (bool_decide_unpack _); vm_compute; reflexivity).
  split; [done|].
  exact (C5_integer_ceilings Shop.calm (Shop.column "qty" "smallint")
           Shop.world0 H1).
Defined.

(** C6, where the code breaks it.  A channel is requested, a run
    completes and closes it, and the [Insert] still holds the closed
    channel: requesting a channel again closes it a second time, which
    panics instead of making a new one, and so does a second run. *)
Theorem C6_closed_channel_is_kept (E : Env) (t : Table) (fk : ForeignKeyLinks)
    (w : World) :
  ∃ i1 c w1 w2,
    NotifyChan (New t fk) w = Ok (i1, c) w1 ∧
    notifyChan i1 = Some c ∧
    Run E i1 0 1 w1 = Ok (0%Z, None) w2 ∧
    w_chans w2 !! c = Some false ∧
    NotifyChan i1 w2 = Panic "close of closed channel" w2 ∧
    Run E i1 0 1 w2 = Panic "close of closed channel" w2.
Proof.
  set (c := length (w_chans w)).
  set (i1 := {| table := t; writer := Stdout; notifyChan := Some c; fklinks := fk |}).
  set (w1 := noted (w_chans w ++ [true]) (ChMake c) w).
  assert (Hopen : w_chans w1 !! c = Some true).
  { simpl. by apply list_lookup_middle. }
  set (w1' := noted (w_chans w1) (ChSend c 0 (receiver_ready E (w_clock w1) c)) (tick w1)).
  set (w2 := noted (<[c := false]> (w_chans w1')) (ChClose c) w1').
  assert (Hclosed : w_chans w2 !! c = Some false).
  { simpl. apply list_lookup_insert_eq. rewrite length_app. simpl. lia. }
  assert (Hbody1 : runBody E i1 0 1 false w1 = Ok (0%Z, None) w1').
  { unfold runBody. erewrite bind_ok by reflexivity.
    change (Z.to_nat (Int64.wrap (0 ÷ 1))) with 0. cbn [runLoop].
    erewrite bind_ok by (by apply insert_skip).
    unfold notify at 1. cbn [notifyChan i1 fst snd].
    unfold try_send, bind. by rewrite Hopen. }
  assert (Hbody2 : runBody E i1 0 1 false w2 = Panic "send on closed channel" w2).
  { unfold runBody. erewrite bind_ok by reflexivity.
    change (Z.to_nat (Int64.wrap (0 ÷ 1))) with 0. cbn [runLoop].
    erewrite bind_ok by (by apply insert_skip).
    unfold notify at 1. cbn [notifyChan i1 fst snd].
    unfold try_send, bind. by rewrite Hclosed. }
  exists i1, c, w1, w2. split; [done|]. split; [done|]. split.
  { unfold Run, run. cbn [notifyChan i1]. unfold deferred.
    rewrite Hbody1. rewrite close_chan_open; [done|]. exact Hopen. }
  split; [done|]. split.
  - unfold NotifyChan. cbn [notifyChan i1].
    erewrite bind_panic; [done|]. by apply close_chan_closed.
  - unfold Run, run. cbn [notifyChan i1]. unfold deferred.
    rewrite Hbody2. by rewrite close_chan_closed.
Qed.

(** [generateFieldsRow] stores a value at every index of its slice:
    the value of the switch for a column whose type it knows, nil for
    any other type, for which an error line is logged and the loop
    goes on.  Nothing of this reaches [run]: on an [Insert] whose
    channel is nil or open, with a divisor other than zero [run]
    returns, and an error it returns is the failure of a statement it
    issued; with a zero divisor the division panics. *)
Lemma unsupported_type_is_skipped (E : Env) (i : Insert)
    (fields : list Field) (s : Slice) (ch : Chunk)
    (count bulksize : Z) (dryRun : bool) (w : World) :
  sl_len s ≤ length fields → table_wf E (table i) → chan_ready i w →
  (∃ ch' w',
     generateFieldsRow E fields s ch w = Ok ch' w' ∧
     ∀ j field, j < sl_len s → fields !! j = Some field →
       is_Some (cell ch (sl_row s) (sl_off s + j)) →
       ∃ v, cell ch' (sl_row s) (sl_off s + j) = Some v ∧
            (recognized (DataType field) → is_Some v) ∧
            (¬ recognized (DataType field) →
               v = None ∧
               LogError "unsupported datatypes when generating fields" None
                 [("type", DataType field); ("field", ColumnName field)]
               ∈ w_log w')) ∧
  (bulksize ≠ 0%Z →
     ∃ okCount err w' ss,
       run E i count bulksize dryRun w = Ok (okCount, err) w' ∧
       w_stmts w' = w_stmts w ++ ss ∧
       ∀ e, err = Some e → ∃ st, st ∈ ss ∧ failure st = Some e) ∧
  (bulksize = 0%Z →
     ∃ w', run E i count bulksize dryRun w = Panic "integer divide by zero" w').
Proof.
  intros Hlen Hwf Hready. split; [|split].
  - destruct (generateFieldsRow_spec E fields s ch w Hlen)
      as (ch' & w' & Hrun & _ & _ & _ & _ & Hcells).
    exists ch', w'. split; [done|]. exact Hcells.
  - intros Hb.
    assert (Hdiv : Int64.div count bulksize
                   = Some (Int64.wrap (count ÷ bulksize))).
    { unfold Int64.div. by rewrite decide_False. }
    destruct (run_quot E i count bulksize dryRun w _ Hdiv Hwf Hready)
      as (okCount & err & w' & ss & Hrun & Hst & _ & _ & _ & Hout & _).
    exists okCount, err, w', ss. do 2 (split; [done|]).
    intros e ->.
    destruct Hout as [(_ & Hnone & _)|(pre & st & e' & -> & _ & Hf & [= ->] & _)];
      [done|].
    exists st. split; [|done]. apply elem_of_app. right. left.
  - intros ->. by apply run_div_zero.
Qed.

Lemma unsupported_type_is_skipped_witness :
  (sl_len (mkSlice 0 0 2 3) ≤ length (FieldsToGenerate Shop.calm Shop.orders) ∧
   table_wf Shop.calm (table Shop.ins) ∧
   chan_ready Shop.ins Shop.world0) ∧
  let fields := FieldsToGenerate Shop.calm Shop.orders in
  let s := mkSlice 0 0 2 3 in
  let ch := mkChunk [[None; None; None]] [] in
  (∃ ch' w',
     generateFieldsRow Shop.calm fields s ch Shop.world0 = Ok ch' w' ∧
     ∀ j field, j < sl_len s → fields !! j = Some field →
       is_Some (cell ch (sl_row s) (sl_off s + j)) →
       ∃ v, cell ch' (sl_row s) (sl_off s + j) = Some v ∧
            (recognized (DataType field) → is_Some v) ∧
            (¬ recognized (DataType field) →
               v = None ∧
               LogError "unsupported datatypes when generating fields" None
                 [("type", DataType field); ("field", ColumnName field)]
               ∈ w_log w')) ∧
  ((2 ≠ 0)%Z →
     ∃ okCount err w' ss,
       run Shop.calm Shop.ins 3 2 true Shop.world0 = Ok (okCount, err) w' ∧
       w_stmts w' = w_stmts Shop.world0 ++ ss ∧
       ∀ e, err = Some e → ∃ st, st ∈ ss ∧ failure st = Some e) ∧
  ((2 = 0)%Z →
     ∃ w', run Shop.calm Shop.ins 3 2 true Shop.world0
           = Panic "integer divide by zero" w').
Proof.
  assert (H1 : sl_len (mkSlice 0 0 2 3)
               ≤ length (FieldsToGenerate Shop.calm Shop.orders))
    by (vm_compute; lia).
  assert (H2 : table_wf Shop.calm (table Shop.ins))
    by (right; vm_compute; lia).
  assert (H3 : chan_ready Shop.ins Shop.world0) by exact I.
  split; [done|].
  exact (unsupported_type_is_skipped Shop.calm Shop.ins
           (FieldsToGenerate Shop.calm Shop.orders) (mkSlice 0 0 2 3)
           (mkChunk [[None; None; None]] []) 3 2 true Shop.world0 H1 H2 H3).
Defined.

(** The row of the witness: the [geometry] column stays nil, the [int]
    column after it is generated, one error line is logged. *)
Example unsupported_column_row :
  ∃ ch' w',
    generateFieldsRow Shop.calm (FieldsToGenerate Shop.calm Shop.orders)
      (mkSlice 0 0 2 3) (mkChunk [[None; None; None]] []) Shop.world0
    = Ok ch' w' ∧
    values ch' = [[None; Some (NewRandomInt "amount" 0x7FFFFFFF false); None]] ∧
    w_log w' = [unsupported_log (Shop.column "area" "geometry")].
Proof. eexists _, _. vm_compute. repeat split. Qed.

(** A division by zero panics. *)
Example zero_bulksize_panics :
  Run Shop.calm Shop.ins 3 0 Shop.world0
  = Panic "integer divide by zero" Shop.world0.
Proof. reflexivity. Qed.

(** C10, where the code breaks it.  The division is not the only
    operation of [run] that can fail.  A channel is requested and a run
    completes and closes it; from then on every run on that [Insert]
    panics, whatever the count, the mode and the bulk size: also for a
    bulk size of at least one, where the division is defined.  The
    panic is the deferred [close] of the channel that is already
    closed. *)
Theorem C10_run_panics_on_kept_channel (E : Env) (t : Table)
    (fk : ForeignKeyLinks) (count bulksize : Z) (dryRun : bool) (w : World) :
  (1 ≤ bulksize)%Z →
  ∃ i1 c w1 w2 w3,
    NotifyChan (New t fk) w = Ok (i1, c) w1 ∧
    Run E i1 0 1 w1 = Ok (0%Z, None) w2 ∧
    is_Some (Int64.div count bulksize) ∧
    run E i1 count bulksize dryRun w2 = Panic "close of closed channel" w3.
Proof.
  intros Hb.
  set (c := length (w_chans w)).
  set (i1 := {| table := t; writer := Stdout; notifyChan := Some c;
                fklinks := fk |}).
  set (w1 := noted (w_chans w ++ [true]) (ChMake c) w).
  assert (Hopen : w_chans w1 !! c = Some true).
  { simpl. by apply list_lookup_middle. }
  destruct (empty_run_closes E i1 c w1 eq_refl Hopen) as (w2 & Hrun1 & Hclosed).
  destruct (run_closed_channel E i1 c count bulksize dryRun w2 eq_refl Hclosed)
    as (w3 & Hrun2).
  exists i1, c, w1, w2, w3. split; [done|]. split; [exact Hrun1|].
  split; [|exact Hrun2].
  unfold Int64.div. rewrite decide_False by lia. by eexists.
Qed.

Lemma C10_witness :
  (1 ≤ 2)%Z ∧
  ∃ i1 c w1 w2 w3,
    NotifyChan (New Shop.orders Shop.policy) Shop.world0 = Ok (i1, c) w1 ∧
    Run Shop.calm i1 0 1 w1 = Ok (0%Z, None) w2 ∧
    is_Some (Int64.div 3 2) ∧
    run Shop.calm i1 3 2 true w2 = Panic "close of closed channel" w3.
Proof.
  assert (H1 : (1 ≤ 2)%Z) by lia.
  split; [done|].
  exact (C10_run_panics_on_kept_channel Shop.calm Shop.orders Shop.policy
           3 2 true Shop.world0 H1).
Defined.

(** The second run of that scenario: the first statement is written,
    its notification is refused by the closed channel, and the
    deferred close panics in turn. *)
Example second_run_panics :
  ∃ w3,
    run Shop.calm Shop.listening 3 2 true
      {| w_clock := 1; w_log := []; w_stmts := []; w_sampled := [];
         w_chans := [false];
         w_notes := [ChMake 0; ChSend 0 0 false; ChClose 0] |}
    = Panic "close of closed channel" w3 ∧
    st_rows <$> w_stmts w3 = [2%Z].
Proof. eexists. vm_compute. split; reflexivity. Qed.

(** * Further properties of the engine *)

(** ** What a run sends on its channel *)

Lemma sent_single E i n w : sent i (notification E i n w) [n].
Proof.
  unfold sent, notification. destruct (notifyChan i) as [c|]; [|done].
  by eexists [_].
Qed.

Lemma sent_cons E i n w evs ns :
  sent i evs ns → sent i (notification E i n w ++ evs) (n :: ns).
Proof.
  unfold sent, notification. destruct (notifyChan i) as [c|].
  - intros (ds & Hlen & ->). eexists (_ :: ds). split; [simpl; by rewrite Hlen|done].
  - by intros ->.
Qed.

Lemma sent_none i evs ns : notifyChan i = None → sent i evs ns → evs = [].
Proof. unfold sent. by intros ->. Qed.

Section Trace.

Variable E : Env.

(** A chunk of at least one row is one statement, answered by the
    environment. *)
Lemma insert_answered i count dryRun w :
  (1 ≤ count)%Z → table_wf E (table i) →
  ∃ s w',
    insert E i count dryRun w = Ok (committed s, failure s) w' ∧
    w_stmts w' = w_stmts w ++ [s] ∧ w_chans w' = w_chans w ∧
    w_notes w' = w_notes w ∧ st_rows s = count ∧ answered E s.
Proof.
  intros Hcount Hwf. destruct dryRun.
  - destruct (insert_dry_spec E i count w Hcount Hwf)
      as (ch & w1 & _ & Hq & _ & Hins).
    simpl in Hins. eexists _, _. split; [exact Hins|].
    destruct Hq as [_ _ Hst Hch Hno]. simpl.
    split; [by rewrite Hst|]. do 3 (split; [done|]).
    unfold answered. simpl. by eexists.
  - destruct (insert_exec_spec E i count w Hcount Hwf)
      as (ch & w1 & w2 & _ & Hq & _ & Hins & Hq2).
    simpl in Hins. eexists _, _. split; [exact Hins|].
    destruct Hq as [_ _ Hst Hch Hno]. destruct Hq2 as [_ _ Hst2 Hch2 Hno2].
    simpl in *.
    split; [by rewrite Hst2, Hst|]. split; [congruence|].
    split; [congruence|]. split; [done|].
    unfold answered. simpl. by eexists.
Qed.

(** The loop of [run] for a bulk size of at least one, with the
    channel operations it makes. *)
Lemma runLoop_trace i bulksize remainder dryRun :
  (1 ≤ bulksize)%Z → table_wf E (table i) →
  ∀ todo okCount w, chan_ready i w →
  ∃ res w' ss evs ns,
    runLoop E i todo bulksize remainder dryRun okCount w = Ok res w' ∧
    w_stmts w' = w_stmts w ++ ss ∧ w_chans w' = w_chans w ∧
    w_notes w' = w_notes w ++ evs ∧ sent i evs ns ∧
    Forall (answered E) ss ∧
    notified todo remainder ss res.2 ns.
Proof.
  intros Hbulk Hwf. induction todo as [|todo IH]; intros okCount w Hready.
  - cbn [runLoop]. destruct (decide (1 ≤ remainder)%Z) as [Hrem|Hrem].
    + destruct (insert_answered i remainder dryRun w Hrem Hwf)
        as (s & w1 & Hins & Hst & Hch & Hno & Hrows & Hans).
      destruct (notify_spec E i (committed s) w1) as (w2 & Hnot & Hst2 & Hch2 & Hno2).
      { by eapply chan_ready_chans. }
      erewrite bind_ok by exact Hins. cbn [fst snd].
      erewrite bind_ok by exact Hnot.
      exists (Int64.add okCount (committed s), failure s), w2, [s],
        (notification E i (committed s) w1), [committed s].
      split; [reflexivity|]. split; [congruence|]. split; [congruence|].
      split; [congruence|]. split; [apply sent_single|].
      split; [by constructor|]. cbn [snd].
      destruct (failure s) as [e|] eqn:Hf.
      * right. right. exists [], s, e. do 2 (split; [done|]).
        do 3 (split; [done|]). by rewrite (failure_committed _ _ Hf).
      * left. split; [by constructor|]. split; [done|].
        rewrite decide_True by done. by rewrite app_nil_r.
    + destruct (notify_spec E i 0%Z w Hready) as (w2 & Hnot & Hst2 & Hch2 & Hno2).
      erewrite bind_ok by (apply insert_skip; lia). cbn [fst snd].
      erewrite bind_ok by exact Hnot.
      eexists (_, _), w2, [], (notification E i 0%Z w), [0%Z].
      split; [reflexivity|]. rewrite app_nil_r. do 3 (split; [done|]).
      split; [apply sent_single|]. split; [constructor|].
      left. split; [constructor|]. split; [done|].
      by rewrite decide_False.
  - cbn [runLoop].
    destruct (insert_answered i bulksize dryRun w Hbulk Hwf)
      as (s & w1 & Hins & Hst & Hch & Hno & Hrows & Hans).
    erewrite bind_ok by exact Hins. cbn [fst snd].
    destruct (failure s) as [e|] eqn:Hf.
    + eexists (_, _), w1, [s], [], [].
      split; [reflexivity|]. rewrite app_nil_r. do 3 (split; [done|]).
      split; [unfold sent; destruct (notifyChan i); [by exists []|done]|].
      split; [by constructor|].
      right. left. exists [], s, e. do 4 (split; [done|]).
      split; [simpl; lia|done].
    + destruct (notify_spec E i (committed s) w1) as (w2 & Hnot & Hst2 & Hch2 & Hno2).
      { by eapply chan_ready_chans. }
      erewrite bind_ok by exact Hnot.
      destruct (IH (Int64.add okCount (committed s)) w2)
        as (res & w' & ss & evs & ns & Hrun & Hst3 & Hch3 & Hno3 & Hsent & Hans' & Hout).
      { eapply chan_ready_chans; [|exact Hready]. congruence. }
      exists res, w', (s :: ss), (notification E i (committed s) w1 ++ evs),
        (committed s :: ns).
      split; [exact Hrun|].
      split; [rewrite Hst3, Hst2, Hst; by rewrite <- app_assoc|].
      split; [congruence|].
      split; [rewrite Hno3, Hno2, Hno; by rewrite <- app_assoc|].
      split; [by apply sent_cons|]. split; [by constructor|].
      destruct Hout as [(Hall & Herr & Hns)
                       |[(pre & s' & e & -> & Hpre & Hf' & Herr & Hlen & Hns)
                        |(pre & s' & e & -> & Hpre & Hf' & Herr & Hlen & Hns)]].
      * left. split; [by constructor|]. split; [done|].
        by rewrite Hns, fmap_cons.
      * right. left. exists (s :: pre), s', e. split; [done|].
        split; [by constructor|]. do 2 (split; [done|]).
        split; [simpl; lia|]. by rewrite Hns, fmap_cons.
      * right. right. exists (s :: pre), s', e. split; [done|].
        split; [by constructor|]. do 2 (split; [done|]).
        split; [simpl; lia|]. by rewrite Hns, fmap_cons.
Qed.

End Trace.

Section RunTrace.

Variable E : Env.

(** Everything a run with a bulk size of at least one does, in one
    place: statements, answers, notifications, and the close. *)
Lemma run_trace i count bulksize dryRun w :
  Int64.in_range count → Int64.in_range bulksize → (1 ≤ bulksize)%Z →
  table_wf E (table i) → chan_ready i w →
  ∃ okCount err w' ss evs ns,
    run E i count bulksize dryRun w = Ok (okCount, err) w' ∧
    w_stmts w' = w_stmts w ++ ss ∧
    w_notes w' = w_notes w ++ evs
                 ++ (match notifyChan i with Some c => [ChClose c] | None => [] end) ∧
    sent i evs ns ∧
    Forall (answered E) ss ∧
    notified (Z.to_nat (count ÷ bulksize))
             (count - count ÷ bulksize * bulksize) ss err ns ∧
    okCount = Int64.wrap (sumZ (committed <$> ss)) ∧
    Forall (rendered E i) ss ∧ Forall (fun s => is_dry s = dryRun) ss ∧
    run_outcome ss err (planned count bulksize).
Proof.
  intros Hc Hb H1 Hwf Hready.
  destruct (plan_arith count bulksize Hc Hb H1) as [Hdiv Hrem].
  destruct (runLoop_trace E i bulksize (count - count ÷ bulksize * bulksize)
              dryRun H1 Hwf (Z.to_nat (count ÷ bulksize)) 0%Z w Hready)
    as ([okCount err] & w1 & ss & evs & ns & Hrun & Hst & Hch & Hno & Hsent & Hans & Hnot).
  assert (Hbody : runBody E i count bulksize dryRun w = Ok (okCount, err) w1).
  { unfold runBody. erewrite bind_ok by (by rewrite Hdiv). cbn beta.
    by rewrite Hrem. }
  destruct (run_spec E i count bulksize dryRun w Hc Hb H1 Hwf Hready)
    as (okCount' & err' & w' & ss' & Hrun' & Hst' & Hsum & Hrend & Hdry & Hout & _).
  assert (Hrun2 : ∃ w2, run E i count bulksize dryRun w = Ok (okCount, err) w2 ∧
            w_stmts w2 = w_stmts w1 ∧
            w_notes w2 = w_notes w1
              ++ (match notifyChan i with Some c => [ChClose c] | None => [] end)).
  { unfold run, chan_ready in *. destruct (notifyChan i) as [c|].
    - eexists. split.
      + unfold deferred. rewrite Hbody, close_chan_open; [done|]. by rewrite Hch.
      + done.
    - exists w1. by rewrite app_nil_r. }
  destruct Hrun2 as (w2 & Hrun2 & Hst2 & Hno2).
  rewrite Hrun2 in Hrun'. injection Hrun' as <- <- <-.
  assert (ss' = ss) as ->.
  { rewrite Hst2, Hst in Hst'. by apply app_inv_head in Hst'. }
  exists okCount, err, w2, ss, evs, ns.
  split; [done|]. split; [congruence|].
  split; [rewrite Hno2, Hno; by rewrite <- app_assoc|]. done.
Qed.

End RunTrace.

(** X1.  [NotifyChan] on an [Insert] whose channel is nil or open:
    the channel it returns did not exist before and is open, the
    [Insert] returned holds it and is otherwise the same, the channel
    held before is closed, every other channel is as it was, and no
    statement is issued. *)
Theorem NotifyChan_fresh_channel (i : Insert) (w : World) :
  chan_ready i w →
  ∃ c w',
    NotifyChan i w
    = Ok ({| table := table i; writer := writer i; notifyChan := Some c;
             fklinks := fklinks i |}, c) w' ∧
    w_chans w !! c = None ∧
    w_chans w' !! c = Some true ∧
    (∀ old, notifyChan i = Some old → w_chans w' !! old = Some false) ∧
    (∀ c', c' ≠ c → notifyChan i ≠ Some c' →
           w_chans w' !! c' = w_chans w !! c') ∧
    w_stmts w' = w_stmts w.
Proof.
  unfold chan_ready. intros Hready.
  exists (length (w_chans w)).
  destruct (notifyChan i) as [old|] eqn:Hold.
  - assert (Hlt : old < length (w_chans w)) by by eapply lookup_lt_Some.
    eexists. split.
    { unfold NotifyChan. rewrite Hold.
      erewrite bind_ok by (by apply close_chan_open).
      unfold bind, make_chan, ret. simpl. rewrite length_insert. reflexivity. }
    simpl. split; [by apply lookup_ge_None|].
    split.
    { rewrite lookup_app_r by (by rewrite length_insert).
      by rewrite length_insert, Nat.sub_diag. }
    split.
    { intros ? [= <-]. rewrite lookup_app_l by (by rewrite length_insert).
      by apply list_lookup_insert_eq. }
    split; [|done].
    intros c' Hc' Hne.
    destruct (decide (c' < length (w_chans w))) as [Hlt'|Hge].
    + rewrite lookup_app_l by (by rewrite length_insert).
      apply list_lookup_insert_ne. congruence.
    + rewrite lookup_ge_None_2 by (rewrite length_app, length_insert; simpl; lia).
      symmetry. apply lookup_ge_None. lia.
  - eexists. split; [unfold NotifyChan; rewrite Hold; reflexivity|]. simpl.
    split; [by apply lookup_ge_None|].
    split; [by apply list_lookup_middle|].
    split; [done|]. split; [|done].
    intros c' Hc' _.
    destruct (decide (c' < length (w_chans w))) as [Hlt'|Hge].
    + by rewrite lookup_app_l.
    + rewrite lookup_ge_None_2 by (rewrite length_app; simpl; lia).
      symmetry. apply lookup_ge_None. lia.
Qed.

Lemma NotifyChan_fresh_channel_witness :
  chan_ready Shop.listening Shop.world1 ∧
  ∃ c w',
    NotifyChan Shop.listening Shop.world1
    = Ok ({| table := table Shop.listening; writer := writer Shop.listening;
             notifyChan := Some c; fklinks := fklinks Shop.listening |}, c) w' ∧
    w_chans Shop.world1 !! c = None ∧
    w_chans w' !! c = Some true ∧
    (∀ old, notifyChan Shop.listening = Some old → w_chans w' !! old = Some false) ∧
    (∀ c', c' ≠ c → notifyChan Shop.listening ≠ Some c' →
           w_chans w' !! c' = w_chans Shop.world1 !! c') ∧
    w_stmts w' = w_stmts Shop.world1.
Proof.
  assert (H1 : chan_ready Shop.listening Shop.world1) by reflexivity.
  split; [done|].
  exact (NotifyChan_fresh_channel Shop.listening Shop.world1 H1).
Defined.

(** X2.  A run on an [Insert] with an open channel leaves that channel
    closed, and the close is the last channel operation, on every way
    out: when [run] returns, with or without an error, and when the
    division by a zero bulk size panics. *)
Theorem run_closes_channel_on_every_exit (E : Env) (i : Insert)
    (count bulksize : Z) (dryRun : bool) (w : World) (c : nat) :
  notifyChan i = Some c → w_chans w !! c = Some true →
  table_wf E (table i) →
  ∃ w',
    ((bulksize ≠ 0%Z ∧ ∃ r, run E i count bulksize dryRun w = Ok r w') ∨
     (bulksize = 0%Z ∧
      run E i count bulksize dryRun w = Panic "integer divide by zero" w')) ∧
    w_chans w' = <[c := false]> (w_chans w) ∧
    last (w_notes w') = Some (ChClose c).
Proof.
  intros Hc Hopen Hwf.
  assert (Hready : chan_ready i w) by (unfold chan_ready; by rewrite Hc).
  destruct (decide (bulksize = 0%Z)) as [->|Hb].
  - exists (noted (<[c := false]> (w_chans w)) (ChClose c) w). split.
    + right. split; [done|]. unfold run. rewrite Hc.
      unfold deferred, runBody.
      erewrite bind_panic by reflexivity. by rewrite close_chan_open.
    + split; [done|]. apply last_snoc.
  - assert (Hdiv : Int64.div count bulksize
                   = Some (Int64.wrap (count ÷ bulksize))).
    { unfold Int64.div. by rewrite decide_False. }
    destruct (run_quot E i count bulksize dryRun w _ Hdiv Hwf Hready)
      as (okCount & err & w' & ss & Hrun & _ & _ & _ & _ & _ & Hchan).
    rewrite Hc in Hchan. exists w'. split; [|done].
    left. split; [done|]. by eexists.
Qed.

Lemma run_closes_channel_on_every_exit_witness :
  (notifyChan Shop.listening = Some 0 ∧ w_chans Shop.world1 !! 0 = Some true ∧
   table_wf Shop.failing_writer (table Shop.listening)) ∧
  ∃ w',
    ((2 ≠ 0)%Z ∧ (∃ r, run Shop.failing_writer Shop.listening 5 2 true Shop.world1
                      = Ok r w') ∨
     ((2 = 0)%Z ∧
      run Shop.failing_writer Shop.listening 5 2 true Shop.world1
      = Panic "integer divide by zero" w')) ∧
    w_chans w' = <[0 := false]> (w_chans Shop.world1) ∧
    last (w_notes w') = Some (ChClose 0).
Proof.
  assert (H1 : notifyChan Shop.listening = Some 0) by reflexivity.
  assert (H2 : w_chans Shop.world1 !! 0 = Some true) by reflexivity.
  assert (H3 : table_wf Shop.failing_writer (table Shop.listening))
    by (right; vm_compute; lia).
  split; [done|].
  exact (run_closes_channel_on_every_exit Shop.failing_writer Shop.listening
           5 2 true Shop.world1 0 H1 H2 H3).
Defined.

(** X3.  When no statement of a run fails, the run notifies the rows
    reported for every statement, in the order of the statements, then
    a zero if the remainder is below one (the remainder insert is
    skipped but still notified), and closes the channel last. *)
Theorem run_notifies_every_statement (E : Env) (i : Insert)
    (count bulksize : Z) (dryRun : bool) (w : World) (c : nat) :
  Int64.in_range count → Int64.in_range bulksize → (1 ≤ bulksize)%Z →
  table_wf E (table i) →
  notifyChan i = Some c → w_chans w !! c = Some true →
  ∃ okCount err w' ss ds,
    run E i count bulksize dryRun w = Ok (okCount, err) w' ∧
    w_stmts w' = w_stmts w ++ ss ∧
    (Forall (fun s => failure s = None) ss →
       let ns := (committed <$> ss)
                 ++ (if decide (1 ≤ count - count ÷ bulksize * bulksize)%Z
                     then [] else [0%Z]) in
       length ds = length ns ∧
       w_notes w' = w_notes w ++ zip_with (ChSend c) ns ds ++ [ChClose c]).
Proof.
  intros Hc Hb H1 Hwf Hchan Hopen.
  assert (Hready : chan_ready i w) by (unfold chan_ready; by rewrite Hchan).
  destruct (run_trace E i count bulksize dryRun w Hc Hb H1 Hwf Hready)
    as (okCount & err & w' & ss & evs & ns & Hrun & Hst & Hno & Hsent & _ & Hnot & _).
  unfold sent in Hsent. rewrite Hchan in Hsent, Hno.
  destruct Hsent as (ds & Hlen & ->).
  exists okCount, err, w', ss, ds. do 2 (split; [done|]).
  intros Hall.
  destruct Hnot as [(_ & _ & Hns)
                   |[(pre & s & e & -> & _ & Hf & _)
                    |(pre & s & e & -> & _ & Hf & _)]].
  - simpl. by rewrite <- Hns.
  - apply Forall_app in Hall as [_ Hs]. apply Forall_inv in Hs.
    simpl in Hs. congruence.
  - apply Forall_app in Hall as [_ Hs]. apply Forall_inv in Hs.
    simpl in Hs. congruence.
Qed.

Lemma run_notifies_every_statement_witness :
  (Int64.in_range 4 ∧ Int64.in_range 2 ∧ (1 ≤ 2)%Z ∧
   table_wf Shop.calm (table Shop.listening) ∧
   notifyChan Shop.listening = Some 0 ∧ w_chans Shop.world1 !! 0 = Some true) ∧
  ∃ okCount err w' ss ds,
    run Shop.calm Shop.listening 4 2 true Shop.world1 = Ok (okCount, err) w' ∧
    w_stmts w' = w_stmts Shop.world1 ++ ss ∧
    (Forall (fun s => failure s = None) ss →
       let ns := (committed <$> ss)
                 ++ (if decide (1 ≤ 4 - 4 ÷ 2 * 2)%Z then [] else [0%Z]) in
       length ds = length ns ∧
       w_notes w' = w_notes Shop.world1 ++ zip_with (ChSend 0) ns ds ++ [ChClose 0]).
Proof.
  assert (H1 : Int64.in_range 4) by (vm_compute; split; discriminate).
  assert (H2 : Int64.in_range 2) by (vm_compute; split; discriminate).
  assert (H3 : (1 ≤ 2)%Z) by lia.
  assert (H4 : table_wf Shop.calm (table Shop.listening))
    by (right; vm_compute; lia).
  assert (H5 : notifyChan Shop.listening = Some 0) by reflexivity.
  assert (H6 : w_chans Shop.world1 !! 0 = Some true) by reflexivity.
  split; [done|].
  exact (run_notifies_every_statement Shop.calm Shop.listening 4 2 true
           Shop.world1 0 H1 H2 H3 H4 H5 H6).
Defined.

(** The run of that witness: four rows in chunks of two send 2, 2 and
    then 0 for the empty remainder, nobody listening. *)
Example notifications_of_four_rows :
  ∃ w',
    DryRun Shop.calm Shop.listening 4 2 Shop.world1 = Ok (4%Z, None) w' ∧
    w_notes w' = [ChMake 0; ChSend 0 2 false; ChSend 0 2 false;
                  ChSend 0 0 false; ChClose 0].
Proof. eexists. vm_compute. split; reflexivity. Qed.

(** X4.  When the statement at position k fails, the run has notified
    the rows of the statements before it and nothing for the failing
    one if it is a statement of the loop; if it is the remainder
    statement, a zero is notified for it as well.  The channel is
    closed after that. *)
Theorem run_notifications_on_failure (E : Env) (i : Insert)
    (count bulksize : Z) (dryRun : bool) (w : World) (c : nat) :
  Int64.in_range count → Int64.in_range bulksize → (1 ≤ bulksize)%Z →
  table_wf E (table i) →
  notifyChan i = Some c → w_chans w !! c = Some true →
  ∃ okCount err w' ss ds,
    run E i count bulksize dryRun w = Ok (okCount, err) w' ∧
    w_stmts w' = w_stmts w ++ ss ∧
    (∀ k s e, ss !! k = Some s → failure s = Some e →
       let ns := (committed <$> take k ss)
                 ++ (if decide (k < Z.to_nat (count ÷ bulksize))
                     then [] else [0%Z]) in
       length ds = length ns ∧
       w_notes w' = w_notes w ++ zip_with (ChSend c) ns ds ++ [ChClose c]).
Proof.
  intros Hc Hb H1 Hwf Hchan Hopen.
  assert (Hready : chan_ready i w) by (unfold chan_ready; by rewrite Hchan).
  destruct (run_trace E i count bulksize dryRun w Hc Hb H1 Hwf Hready)
    as (okCount & err & w' & ss & evs & ns & Hrun & Hst & Hno & Hsent & _ & Hnot & _).
  unfold sent in Hsent. rewrite Hchan in Hsent, Hno.
  destruct Hsent as (ds & Hlen & ->).
  exists okCount, err, w', ss, ds. do 2 (split; [done|]).
  intros k s e Hk Hfail.
  assert (Hlast : ∀ pre s', ss = pre ++ [s'] →
            Forall (fun s => failure s = None) pre → k = length pre).
  { intros pre s' -> Hpre.
    destruct (Nat.lt_trichotomy k (length pre)) as [Hlt|[->|Hgt]]; [|done|].
    - rewrite lookup_app_l in Hk by done.
      rewrite Forall_lookup in Hpre. specialize (Hpre k s Hk). simpl in Hpre.
      congruence.
    - apply lookup_lt_Some in Hk. rewrite length_app in Hk. simpl in Hk. lia. }
  destruct Hnot as [(Hall & _)
                   |[(pre & s' & e' & Hss & Hpre & _ & _ & Hlt & Hns)
                    |(pre & s' & e' & Hss & Hpre & _ & _ & Heq & Hns)]].
  - rewrite Forall_lookup in Hall. specialize (Hall k s Hk). simpl in Hall.
    congruence.
  - pose proof (Hlast pre s' Hss Hpre) as ->. subst ss.
    rewrite take_app_length. simpl.
    rewrite decide_True, app_nil_r by done. by rewrite <- Hns.
  - pose proof (Hlast pre s' Hss Hpre) as ->. subst ss.
    rewrite take_app_length. simpl.
    rewrite decide_False by lia. by rewrite <- Hns.
Qed.

Lemma run_notifications_on_failure_witness :
  (Int64.in_range 5 ∧ Int64.in_range 2 ∧ (1 ≤ 2)%Z ∧
   table_wf Shop.failing_writer (table Shop.listening) ∧
   notifyChan Shop.listening = Some 0 ∧ w_chans Shop.world1 !! 0 = Some true) ∧
  ∃ okCount err w' ss ds,
    run Shop.failing_writer Shop.listening 5 2 true Shop.world1
    = Ok (okCount, err) w' ∧
    w_stmts w' = w_stmts Shop.world1 ++ ss ∧
    (∀ k s e, ss !! k = Some s → failure s = Some e →
       let ns := (committed <$> take k ss)
                 ++ (if decide (k < Z.to_nat (5 ÷ 2)) then [] else [0%Z]) in
       length ds = length ns ∧
       w_notes w' = w_notes Shop.world1 ++ zip_with (ChSend 0) ns ds ++ [ChClose 0]).
Proof.
  assert (H1 : Int64.in_range 5) by (vm_compute; split; discriminate).
  assert (H2 : Int64.in_range 2) by (vm_compute; split; discriminate).
  assert (H3 : (1 ≤ 2)%Z) by lia.
  assert (H4 : table_wf Shop.failing_writer (table Shop.listening))
    by (right; vm_compute; lia).
  assert (H5 : notifyChan Shop.listening = Some 0) by reflexivity.
  assert (H6 : w_chans Shop.world1 !! 0 = Some true) by reflexivity.
  split; [done|].
  exact (run_notifications_on_failure Shop.failing_writer Shop.listening 5 2 true
           Shop.world1 0 H1 H2 H3 H4 H5 H6).
Defined.

(** ** Runs without a channel, totals, and odd bulk sizes *)

Lemma chunks_small todo bulksize remainder :
  (bulksize < 1)%Z →
  chunks todo bulksize remainder
  = if decide (1 ≤ remainder)%Z then [remainder] else [].
Proof.
  intros Hb. induction todo as [|todo IH]; [apply chunks_O|].
  rewrite chunks_S, decide_False by lia. exact IH.
Qed.

Lemma planned_sum count bulksize :
  (0 ≤ count)%Z → (1 ≤ bulksize)%Z → sumZ (planned count bulksize) = count.
Proof.
  intros Hc Hb. rewrite planned_nonneg by done.
  destruct (quot_nonneg_bounds count bulksize Hc Hb) as (Hq & Hq1 & Hr).
  rewrite Hq in *.
  rewrite sumZ_app, sumZ_replicate, Z2Nat.id by lia.
  case_decide; simpl; lia.
Qed.

Lemma planned_length count bulksize :
  (0 ≤ count)%Z → (1 ≤ bulksize)%Z →
  Z.of_nat (length (planned count bulksize))
  = ((count + bulksize - 1) `div` bulksize)%Z.
Proof.
  intros Hc Hb. rewrite planned_nonneg by done.
  destruct (quot_nonneg_bounds count bulksize Hc Hb) as (Hq & Hq1 & Hr).
  rewrite Hq in *.
  rewrite length_app, length_replicate, Nat2Z.inj_add, Z2Nat.id by lia.
  set (q := (count `div` bulksize)%Z) in *.
  case_decide as Hrem; simpl.
  - apply (Z.div_unique _ _ _ (bulksize - 1)); lia.
  - apply (Z.div_unique _ _ _ (count - q * bulksize - 1)); lia.
Qed.

Lemma planned_entries count bulksize :
  (1 ≤ bulksize)%Z →
  Forall (fun n => 1 ≤ n ≤ bulksize)%Z (planned count bulksize).
Proof.
  intros Hb. destruct (Z.le_gt_cases 0 count) as [Hpos|Hneg].
  - rewrite planned_nonneg by done.
    destruct (quot_nonneg_bounds count bulksize Hpos Hb) as (Hq & Hq1 & Hr).
    rewrite Hq in *. apply Forall_app. split.
    + apply Forall_replicate. lia.
    + case_decide; constructor; [lia|constructor].
  - rewrite planned_nonpos by lia. constructor.
Qed.

(** The plan for a negative bulk size: the quotient wraps at most once
    and the remainder is [Z.rem]. *)
Lemma plan_arith_neg count bulksize :
  Int64.in_range count → Int64.in_range bulksize → (bulksize ≤ -1)%Z →
  ∃ q, Int64.div count bulksize = Some q ∧
       Int64.sub count (Int64.mul q bulksize) = Z.rem count bulksize.
Proof.
  intros Hc Hb Hneg. unfold Int64.div. rewrite decide_False by lia.
  eexists. split; [reflexivity|].
  destruct (decide (count = Int64.min_int ∧ bulksize = (-1)%Z)) as [[-> ->]|Hcase].
  { vm_compute. reflexivity. }
  rewrite Z.rem_eq by lia.
  set (p := (- bulksize)%Z).
  assert (Hp : (1 ≤ p)%Z) by (unfold p; lia).
  assert (Hquot : (count ÷ bulksize = - (count ÷ p))%Z).
  { unfold p. rewrite Z.quot_opp_r by lia. lia. }
  rewrite Hquot.
  set (x := (count ÷ p)%Z) in *.
  assert (Hx : (Z.abs x ≤ Z.abs count ∧ Z.abs (count - x * p) < p ∧
                Z.abs (x * p) ≤ Z.abs count)%Z).
  { destruct (Z.le_ge_cases 0 count) as [Hpos|Hnp].
    - destruct (quot_nonneg_bounds count p Hpos Hp) as (_ & ? & ?).
      fold x in H, H0. lia.
    - destruct (quot_nonpos_bounds count p ltac:(lia) Hp) as (? & ?).
      fold x in H, H0. lia. }
  unfold Int64.in_range, Int64.min_int, Int64.max_int in *.
  assert (Hxne : x ≠ (- 2 ^ 63)%Z).
  { intros Hx63. apply Hcase. rewrite Hx63 in Hx.
    destruct (Z.le_ge_cases 0 count) as [Hpos|Hnp]; [lia|].
    destruct (quot_nonpos_bounds count p ltac:(lia) Hp) as (? & ?).
    fold x in H, H0. rewrite Hx63 in H, H0. unfold p in *. lia. }
  unfold Int64.sub, Int64.mul.
  rewrite (wrap_id (- x)) by (unfold Int64.in_range, Int64.min_int, Int64.max_int; lia).
  replace (- x * bulksize)%Z with (x * p)%Z by (unfold p; lia).
  rewrite (wrap_id (x * p)) by (unfold Int64.in_range, Int64.min_int, Int64.max_int; lia).
  rewrite wrap_id by (unfold Int64.in_range, Int64.min_int, Int64.max_int; lia).
  unfold p. lia.
Qed.

Section Silent.

Variable E : Env.

Lemma runLoop_silent i bulksize remainder dryRun :
  notifyChan i = None → table_wf E (table i) →
  ∀ todo okCount w,
  ∃ res w',
    runLoop E i todo bulksize remainder dryRun okCount w = Ok res w' ∧
    w_notes w' = w_notes w ∧ w_chans w' = w_chans w.
Proof.
  intros Hnone Hwf.
  assert (Hins : ∀ n w, ∃ r w',
            insert E i n dryRun w = Ok r w' ∧
            w_notes w' = w_notes w ∧ w_chans w' = w_chans w).
  { intros n w. destruct (decide (1 ≤ n)%Z) as [Hn|Hn].
    - destruct (insert_answered E i n dryRun w Hn Hwf)
        as (s & w' & Hrun & _ & Hch & Hno & _).
      by eexists _, w'.
    - exists (0%Z, None), w. split; [apply insert_skip; lia|done]. }
  assert (Hnot : ∀ n w, notify E i n w = Ok tt w).
  { intros n w. unfold notify. by rewrite Hnone. }
  induction todo as [|todo IH]; intros okCount w.
  - cbn [runLoop]. destruct (Hins remainder w) as (r & w1 & Hrun & Hno & Hch).
    erewrite bind_ok by exact Hrun. erewrite bind_ok by apply Hnot.
    by eexists _, w1.
  - cbn [runLoop]. destruct (Hins bulksize w) as (r & w1 & Hrun & Hno & Hch).
    erewrite bind_ok by exact Hrun. destruct (r.2) as [e|].
    + by eexists _, w1.
    + erewrite bind_ok by apply Hnot.
      destruct (IH (Int64.add okCount r.1) w1) as (res & w' & Hloop & Hno' & Hch').
      exists res, w'. split; [done|]. split; congruence.
Qed.

End Silent.

(** X5.  An [Insert] that was never asked for a channel (as [New]
    returns it) makes no channel operation in a run, whatever the bulk
    size: the channels and the record of channel operations are the
    same after the run, also when the division panics. *)
Theorem run_without_channel_is_silent (E : Env) (i : Insert)
    (count bulksize : Z) (dryRun : bool) (w : World) :
  notifyChan i = None → table_wf E (table i) →
  ∃ w',
    ((bulksize ≠ 0%Z ∧ ∃ r, run E i count bulksize dryRun w = Ok r w') ∨
     (bulksize = 0%Z ∧
      run E i count bulksize dryRun w = Panic "integer divide by zero" w')) ∧
    w_notes w' = w_notes w ∧ w_chans w' = w_chans w.
Proof.
  intros Hnone Hwf. unfold run. rewrite Hnone.
  destruct (decide (bulksize = 0%Z)) as [->|Hb].
  - exists w. split; [|done]. right. split; [done|].
    unfold runBody. by erewrite bind_panic by reflexivity.
  - unfold runBody, Int64.div. rewrite decide_False by done.
    destruct (runLoop_silent E i bulksize
                (Int64.sub count (Int64.mul (Int64.wrap (count ÷ bulksize)) bulksize))
                dryRun Hnone Hwf (Z.to_nat (Int64.wrap (count ÷ bulksize))) 0%Z w)
      as (res & w' & Hrun & Hno & Hch).
    exists w'. split; [|done]. left. split; [done|]. exists res.
    by erewrite bind_ok by reflexivity.
Qed.

Lemma run_without_channel_is_silent_witness :
  (notifyChan (New Shop.orders Shop.policy) = None ∧
   table_wf Shop.calm (table (New Shop.orders Shop.policy))) ∧
  ∃ w',
    ((3 ≠ 0)%Z ∧ (∃ r, run Shop.calm (New Shop.orders Shop.policy) 7 3 false
                      Shop.world1 = Ok r w') ∨
     ((3 = 0)%Z ∧
      run Shop.calm (New Shop.orders Shop.policy) 7 3 false Shop.world1
      = Panic "integer divide by zero" w')) ∧
    w_notes w' = w_notes Shop.world1 ∧ w_chans w' = w_chans Shop.world1.
Proof.
  assert (H1 : notifyChan (New Shop.orders Shop.policy) = None) by reflexivity.
  assert (H2 : table_wf Shop.calm (table (New Shop.orders Shop.policy)))
    by (right; vm_compute; lia).
  split; [done|].
  exact (run_without_channel_is_silent Shop.calm (New Shop.orders Shop.policy)
           7 3 false Shop.world1 H1 H2).
Defined.

Lemma sumZ_const (k : Z) (l : list Z) :
  Forall (fun n => n = k) l → sumZ l = (k * Z.of_nat (length l))%Z.
Proof.
  induction 1 as [|n l -> _ IH]; [simpl; lia|].
  cbn [sumZ foldr length]. fold (sumZ l). rewrite IH. lia.
Qed.

(** X6.  A dry run of a count that is not negative, on a writer that
    takes every write, returns exactly the count asked for and no
    error; every statement is a write to the writer of the [Insert],
    and the rows of the statements add up to the count. *)
Theorem DryRun_returns_count (E : Env) (i : Insert) (count bulksize : Z)
    (w : World) :
  Int64.in_range count → Int64.in_range bulksize → (1 ≤ bulksize)%Z →
  (0 ≤ count)%Z → table_wf E (table i) → chan_ready i w →
  (∀ t wr data, writer_Write E t wr data = None) →
  ∃ w' ss,
    DryRun E i count bulksize w = Ok (count, None) w' ∧
    w_stmts w' = w_stmts w ++ ss ∧
    Forall (fun s => ∃ data, st_call s = CallWrite (writer i) data None) ss ∧
    sumZ (st_rows <$> ss) = count.
Proof.
  intros Hc Hb H1 Hpos Hwf Hready Hwrite.
  destruct (run_trace E i count bulksize true w Hc Hb H1 Hwf Hready)
    as (okCount & err & w' & ss & evs & ns & Hrun & Hst & _ & _ & Hans & _
        & Hsum & Hrend & Hdry & Hout).
  assert (Hcalls : Forall (fun s => ∃ data, st_call s = CallWrite (writer i) data None) ss).
  { rewrite Forall_forall in Hans, Hrend, Hdry. apply Forall_forall. intros s Hs.
    specialize (Hans s Hs). specialize (Hrend s Hs). specialize (Hdry s Hs).
    unfold answered, rendered, is_dry in *.
    destruct (st_call s) as [wr d res|q res]; [|done].
    destruct Hans as [t ->]. destruct Hrend as (vs & _ & -> & _).
    rewrite Hwrite. by eexists. }
  assert (Hok : Forall (fun s => failure s = None) ss).
  { eapply Forall_impl; [exact Hcalls|]. intros s [d Hs].
    unfold failure. by rewrite Hs. }
  destruct Hout as [(_ & -> & Hplan)|(pre & s & e & -> & _ & Hf & _)].
  2:{ apply Forall_app in Hok as [_ Hs]. apply Forall_inv in Hs.
      simpl in Hs. congruence. }
  assert (Htotal : sumZ (st_rows <$> ss) = count).
  { rewrite Hplan. by apply planned_sum. }
  exists w', ss. split.
  { unfold DryRun. rewrite Hrun, Hsum.
    rewrite (committed_dry ss Hdry Hok), Htotal, wrap_id by done. done. }
  done.
Qed.

Lemma DryRun_returns_count_witness :
  (Int64.in_range 11 ∧ Int64.in_range 4 ∧ (1 ≤ 4)%Z ∧ (0 ≤ 11)%Z ∧
   table_wf Shop.calm (table Shop.ins) ∧ chan_ready Shop.ins Shop.world0 ∧
   (∀ t wr data, writer_Write Shop.calm t wr data = None)) ∧
  ∃ w' ss,
    DryRun Shop.calm Shop.ins 11 4 Shop.world0 = Ok (11%Z, None) w' ∧
    w_stmts w' = w_stmts Shop.world0 ++ ss ∧
    Forall (fun s => ∃ data, st_call s = CallWrite (writer Shop.ins) data None) ss ∧
    sumZ (st_rows <$> ss) = 11%Z.
Proof.
  assert (H1 : Int64.in_range 11) by (vm_compute; split; discriminate).
  assert (H2 : Int64.in_range 4) by (vm_compute; split; discriminate).
  assert (H3 : (1 ≤ 4)%Z) by lia.
  assert (H4 : (0 ≤ 11)%Z) by lia.
  assert (H5 : table_wf Shop.calm (table Shop.ins)) by (right; vm_compute; lia).
  assert (H6 : chan_ready Shop.ins Shop.world0) by exact I.
  assert (H7 : ∀ t wr data, writer_Write Shop.calm t wr data = None)
    by reflexivity.
  split; [done|].
  exact (DryRun_returns_count Shop.calm Shop.ins 11 4 Shop.world0
           H1 H2 H3 H4 H5 H6 H7).
Defined.

(** X7.  The count [Run] returns is what the database reports, not the
    rows that were asked for: against a database that answers every
    statement with [k] affected rows, [Run] executes the whole plan and
    returns [k] times the number of statements (reduced to 64 bits)
    and no error. *)
Theorem Run_returns_rows_affected (E : Env) (i : Insert) (count bulksize k : Z)
    (w : World) :
  Int64.in_range count → Int64.in_range bulksize → (1 ≤ bulksize)%Z →
  table_wf E (table i) → chan_ready i w →
  (∀ t q, db_Exec E t q = inr k) →
  ∃ w' ss,
    Run E i count bulksize w
    = Ok (Int64.wrap (k * Z.of_nat (length ss)), None) w' ∧
    w_stmts w' = w_stmts w ++ ss ∧
    st_rows <$> ss = planned count bulksize ∧
    Forall (fun s => ∃ q, st_call s = CallExec q (inr k)) ss.
Proof.
  intros Hc Hb H1 Hwf Hready Hexec.
  destruct (run_trace E i count bulksize false w Hc Hb H1 Hwf Hready)
    as (okCount & err & w' & ss & evs & ns & Hrun & Hst & _ & _ & Hans & _
        & Hsum & _ & Hdry & Hout).
  assert (Hcalls : Forall (fun s => ∃ q, st_call s = CallExec q (inr k)) ss).
  { rewrite Forall_forall in Hans, Hdry. apply Forall_forall. intros s Hs.
    specialize (Hans s Hs). specialize (Hdry s Hs).
    unfold answered, is_dry in *.
    destruct (st_call s) as [wr d res|q res]; [done|].
    destruct Hans as [t ->]. rewrite Hexec. by eexists. }
  assert (Hok : Forall (fun s => failure s = None) ss).
  { eapply Forall_impl; [exact Hcalls|]. intros s [q Hs].
    unfold failure. by rewrite Hs. }
  destruct Hout as [(_ & -> & Hplan)|(pre & s & e & -> & _ & Hf & _)].
  2:{ apply Forall_app in Hok as [_ Hs]. apply Forall_inv in Hs.
      simpl in Hs. congruence. }
  exists w', ss. split; [|done].
  unfold Run. rewrite Hrun, Hsum. do 3 f_equal.
  rewrite (sumZ_const k), length_fmap; [done|].
  apply Forall_fmap. eapply Forall_impl; [exact Hcalls|]. intros s [q Hs].
  unfold committed. simpl. by rewrite Hs.
Qed.

Lemma Run_returns_rows_affected_witness :
  (Int64.in_range 7 ∧ Int64.in_range 3 ∧ (1 ≤ 3)%Z ∧
   table_wf Shop.calm (table Shop.ins) ∧ chan_ready Shop.ins Shop.world0 ∧
   (∀ t q, db_Exec Shop.calm t q = inr 1%Z)) ∧
  ∃ w' ss,
    Run Shop.calm Shop.ins 7 3 Shop.world0
    = Ok (Int64.wrap (1 * Z.of_nat (length ss)), None) w' ∧
    w_stmts w' = w_stmts Shop.world0 ++ ss ∧
    st_rows <$> ss = planned 7 3 ∧
    Forall (fun s => ∃ q, st_call s = CallExec q (inr 1%Z)) ss.
Proof.
  assert (H1 : Int64.in_range 7) by (vm_compute; split; discriminate).
  assert (H2 : Int64.in_range 3) by (vm_compute; split; discriminate).
  assert (H3 : (1 ≤ 3)%Z) by lia.
  assert (H4 : table_wf Shop.calm (table Shop.ins)) by (right; vm_compute; lia).
  assert (H5 : chan_ready Shop.ins Shop.world0) by exact I.
  assert (H6 : ∀ t q, db_Exec Shop.calm t q = inr 1%Z) by reflexivity.
  split; [done|].
  exact (Run_returns_rows_affected Shop.calm Shop.ins 7 3 1 Shop.world0
           H1 H2 H3 H4 H5 H6).
Defined.

(** The run of that witness: seven rows are sent in three statements
    and the database, which reports one row for each, makes [Run]
    return 3. *)
Example seven_rows_reported_as_three :
  ∃ w', Run Shop.calm Shop.ins 7 3 Shop.world0 = Ok (3%Z, None) w' ∧
        st_rows <$> w_stmts w' = [3; 3; 1]%Z.
Proof. eexists. vm_compute. split; reflexivity. Qed.

(** X8.  [SetWriter] decides where a dry run writes: after
    [SetWriter(wr)] every statement of a dry run is a write to [wr],
    none is executed; and a real run executes every statement and
    writes none, whatever the writer. *)
Theorem SetWriter_directs_dry_run (E : Env) (i : Insert) (wr : Writer)
    (count bulksize : Z) (dryRun : bool) (w : World) :
  Int64.in_range count → Int64.in_range bulksize → (1 ≤ bulksize)%Z →
  table_wf E (table i) → chan_ready i w →
  ∃ okCount err w' ss,
    run E (SetWriter i wr) count bulksize dryRun w = Ok (okCount, err) w' ∧
    w_stmts w' = w_stmts w ++ ss ∧
    Forall (fun s => match st_call s with
                     | CallWrite wr' _ _ => dryRun = true ∧ wr' = wr
                     | CallExec _ _ => dryRun = false
                     end) ss.
Proof.
  intros Hc Hb H1 Hwf Hready.
  destruct (run_spec E (SetWriter i wr) count bulksize dryRun w Hc Hb H1 Hwf Hready)
    as (okCount & err & w' & ss & Hrun & Hst & _ & Hrend & Hdry & _).
  exists okCount, err, w', ss. do 2 (split; [done|]).
  rewrite Forall_forall in Hrend, Hdry. apply Forall_forall. intros s Hs.
  specialize (Hrend s Hs). specialize (Hdry s Hs).
  unfold rendered, is_dry in *.
  destruct (st_call s) as [wr' d res|q res]; [|done].
  destruct Hrend as (vs & _ & -> & _). done.
Qed.

Lemma SetWriter_directs_dry_run_witness :
  (Int64.in_range 5 ∧ Int64.in_range 2 ∧ (1 ≤ 2)%Z ∧
   table_wf Shop.calm (table Shop.ins) ∧ chan_ready Shop.ins Shop.world0) ∧
  ∃ okCount err w' ss,
    run Shop.calm (SetWriter Shop.ins (CustomWriter 1)) 5 2 true Shop.world0
    = Ok (okCount, err) w' ∧
    w_stmts w' = w_stmts Shop.world0 ++ ss ∧
    Forall (fun s => match st_call s with
                     | CallWrite wr' _ _ => true = true ∧ wr' = CustomWriter 1
                     | CallExec _ _ => true = false
                     end) ss.
Proof.
  assert (H1 : Int64.in_range 5) by (vm_compute; split; discriminate).
  assert (H2 : Int64.in_range 2) by (vm_compute; split; discriminate).
  assert (H3 : (1 ≤ 2)%Z) by lia.
  assert (H4 : table_wf Shop.calm (table Shop.ins)) by (right; vm_compute; lia).
  assert (H5 : chan_ready Shop.ins Shop.world0) by exact I.
  split; [done|].
  exact (SetWriter_directs_dry_run Shop.calm Shop.ins (CustomWriter 1) 5 2 true
           Shop.world0 H1 H2 H3 H4 H5).
Defined.

(** X9.  For a count that is not negative every statement of a run
    has between one and [bulksize] rows; and when none fails, the rows
    of the statements add up to the count, there are
    ceil(count / bulksize) statements, and every statement but the last
    has exactly [bulksize] rows. *)
Theorem run_plan_totals (E : Env) (i : Insert) (count bulksize : Z)
    (dryRun : bool) (w : World) :
  Int64.in_range count → Int64.in_range bulksize → (1 ≤ bulksize)%Z →
  (0 ≤ count)%Z → table_wf E (table i) → chan_ready i w →
  ∃ okCount err w' ss,
    run E i count bulksize dryRun w = Ok (okCount, err) w' ∧
    w_stmts w' = w_stmts w ++ ss ∧
    Forall (fun s => 1 ≤ st_rows s ≤ bulksize)%Z ss ∧
    (Forall (fun s => failure s = None) ss →
       sumZ (st_rows <$> ss) = count ∧
       Z.of_nat (length ss) = ((count + bulksize - 1) `div` bulksize)%Z ∧
       ∀ k s, ss !! k = Some s → S k < length ss → st_rows s = bulksize).
Proof.
  intros Hc Hb H1 Hpos Hwf Hready.
  destruct (run_spec E i count bulksize dryRun w Hc Hb H1 Hwf Hready)
    as (okCount & err & w' & ss & Hrun & Hst & _ & _ & _ & Hout & _).
  exists okCount, err, w', ss. do 2 (split; [done|]).
  assert (Hpfx : (st_rows <$> ss) `prefix_of` planned count bulksize).
  { destruct Hout as [(_ & _ & ->)|(pre & s & e & _ & _ & _ & _ & Hp)]; done. }
  split.
  { destruct Hpfx as [rest Hrest].
    pose proof (planned_entries count bulksize H1) as Hent.
    rewrite Hrest in Hent. apply Forall_app in Hent as [Hent _].
    by apply Forall_fmap in Hent. }
  intros Hok.
  destruct Hout as [(_ & _ & Hplan)|(pre & s & e & -> & _ & Hf & _)].
  2:{ apply Forall_app in Hok as [_ Hs]. apply Forall_inv in Hs.
      simpl in Hs. congruence. }
  split; [rewrite Hplan; by apply planned_sum|].
  split.
  { rewrite <- (length_fmap st_rows), Hplan. by apply planned_length. }
  intros k s Hk Hlt.
  assert (Hrow : (st_rows <$> ss) !! k = Some (st_rows s))
    by by rewrite list_lookup_fmap, Hk.
  rewrite <- (length_fmap st_rows) in Hlt.
  rewrite Hplan in Hrow, Hlt. rewrite planned_nonneg in Hrow, Hlt by done.
  rewrite length_app, length_replicate in Hlt.
  rewrite lookup_app_l in Hrow.
  - by apply lookup_replicate in Hrow as [-> _].
  - rewrite length_replicate. case_decide; simpl in Hlt; lia.
Qed.

Lemma run_plan_totals_witness :
  (Int64.in_range 11 ∧ Int64.in_range 4 ∧ (1 ≤ 4)%Z ∧ (0 ≤ 11)%Z ∧
   table_wf Shop.calm (table Shop.ins) ∧ chan_ready Shop.ins Shop.world0) ∧
  ∃ okCount err w' ss,
    run Shop.calm Shop.ins 11 4 false Shop.world0 = Ok (okCount, err) w' ∧
    w_stmts w' = w_stmts Shop.world0 ++ ss ∧
    Forall (fun s => 1 ≤ st_rows s ≤ 4)%Z ss ∧
    (Forall (fun s => failure s = None) ss →
       sumZ (st_rows <$> ss) = 11%Z ∧
       Z.of_nat (length ss) = ((11 + 4 - 1) `div` 4)%Z ∧
       ∀ k s, ss !! k = Some s → S k < length ss → st_rows s = 4%Z).
Proof.
  assert (H1 : Int64.in_range 11) by (vm_compute; split; discriminate).
  assert (H2 : Int64.in_range 4) by (vm_compute; split; discriminate).
  assert (H3 : (1 ≤ 4)%Z) by lia.
  assert (H4 : (0 ≤ 11)%Z) by lia.
  assert (H5 : table_wf Shop.calm (table Shop.ins)) by (right; vm_compute; lia).
  assert (H6 : chan_ready Shop.ins Shop.world0) by exact I.
  split; [done|].
  exact (run_plan_totals Shop.calm Shop.ins 11 4 false Shop.world0
           H1 H2 H3 H4 H5 H6).
Defined.

(** X10.  A negative bulk size does not panic and does not loop: every
    complete insert is asked for a size below one and skipped, so the
    run issues at most one statement, of [count rem bulksize] rows when
    that is at least one; fewer than [-bulksize] rows are inserted
    whatever the count. *)
Theorem run_negative_bulksize (E : Env) (i : Insert) (count bulksize : Z)
    (dryRun : bool) (w : World) :
  Int64.in_range count → Int64.in_range bulksize → (bulksize ≤ -1)%Z →
  table_wf E (table i) → chan_ready i w →
  ∃ okCount err w' ss,
    run E i count bulksize dryRun w = Ok (okCount, err) w' ∧
    w_stmts w' = w_stmts w ++ ss ∧
    (st_rows <$> ss) `prefix_of`
      (if decide (1 ≤ Z.rem count bulksize)%Z
       then [Z.rem count bulksize] else []) ∧
    (Z.rem count bulksize < - bulksize)%Z ∧
    (Forall (fun s => failure s = None) ss →
       err = None ∧
       st_rows <$> ss = if decide (1 ≤ Z.rem count bulksize)%Z
                        then [Z.rem count bulksize] else []).
Proof.
  intros Hc Hb Hneg Hwf Hready.
  destruct (plan_arith_neg count bulksize Hc Hb Hneg) as (q & Hdiv & Hrem).
  destruct (run_quot E i count bulksize dryRun w q Hdiv Hwf Hready)
    as (okCount & err & w' & ss & Hrun & Hst & _ & _ & _ & Hout & _).
  rewrite Hrem, chunks_small in Hout by lia.
  exists okCount, err, w', ss. do 2 (split; [done|]).
  split.
  { destruct Hout as [(_ & _ & ->)|(pre & s & e & _ & _ & _ & _ & Hp)]; done. }
  split.
  { destruct (Z.le_ge_cases 0 count) as [Hpos|Hnp].
    - pose proof (Z.rem_bound_neg_pos count bulksize ltac:(lia) Hpos). lia.
    - pose proof (Z.rem_nonpos count bulksize ltac:(lia) Hnp). lia. }
  intros Hok.
  destruct Hout as [(_ & -> & Hplan)|(pre & s & e & -> & _ & Hf & _)]; [done|].
  apply Forall_app in Hok as [_ Hs]. apply Forall_inv in Hs.
  simpl in Hs. congruence.
Qed.

Lemma run_negative_bulksize_witness :
  (Int64.in_range 5 ∧ Int64.in_range (-2) ∧ (-2 ≤ -1)%Z ∧
   table_wf Shop.calm (table Shop.ins) ∧ chan_ready Shop.ins Shop.world0) ∧
  ∃ okCount err w' ss,
    run Shop.calm Shop.ins 5 (-2) true Shop.world0 = Ok (okCount, err) w' ∧
    w_stmts w' = w_stmts Shop.world0 ++ ss ∧
    (st_rows <$> ss) `prefix_of`
      (if decide (1 ≤ Z.rem 5 (-2))%Z then [Z.rem 5 (-2)] else []) ∧
    (Z.rem 5 (-2) < - -2)%Z ∧
    (Forall (fun s => failure s = None) ss →
       err = None ∧
       st_rows <$> ss = if decide (1 ≤ Z.rem 5 (-2))%Z
                        then [Z.rem 5 (-2)] else []).
Proof.
  assert (H1 : Int64.in_range 5) by (vm_compute; split; discriminate).
  assert (H2 : Int64.in_range (-2)) by (vm_compute; split; discriminate).
  assert (H3 : (-2 ≤ -1)%Z) by lia.
  assert (H4 : table_wf Shop.calm (table Shop.ins)) by (right; vm_compute; lia).
  assert (H5 : chan_ready Shop.ins Shop.world0) by exact I.
  split; [done|].
  exact (run_negative_bulksize Shop.calm Shop.ins 5 (-2) true Shop.world0
           H1 H2 H3 H4 H5).
Defined.

(** The run of that witness: five rows with a bulk size of -2 end as
    one statement of one row. *)
Example five_rows_bulksize_minus_two :
  ∃ w', DryRun Shop.calm Shop.ins 5 (-2) Shop.world0 = Ok (1%Z, None) w' ∧
        st_rows <$> w_stmts w' = [1%Z].
Proof. eexists. vm_compute. split; reflexivity. Qed.

(** ** The chunk behind a statement *)

(** X11.  The two goroutines of [genQuery] may run in any order: for
    every interleaving of their stores that keeps the order of each
    writer, the text [genQuery] returns is the rendering of the buffer
    those stores leave. *)
Theorem genQuery_any_interleaving (E : Env) (i : Insert) (count : Z)
    (w : World) :
  (1 ≤ count)%Z → table_wf E (table i) →
  ∃ ch w',
    fillChunk E i count (logged (debug_log E i) w) = Ok ch w' ∧
    ∀ ws', (∀ p, filter (fun cw => cw_by cw = p) ws'
                 = filter (fun cw => cw_by cw = p) (writes ch)) →
      genQuery E i count w
      = Ok (Some (renderValues E i
                    (replay ws'
                       (make_values count
                          (length (FieldsToGenerate E (table i))
                           + length (FieldsToSample E (table i))))))) w'.
Proof.
  intros Hcount Hwf.
  destruct (genQuery_spec E i count w Hcount Hwf)
    as (ch & w' & calls & Hfill & Hgen & _ & _ & _ & Hown & _).
  exists ch, w'. split; [done|]. intros ws' Hsame.
  rewrite (stores_interleave _ _ (writes ch) ws' _ Hown Hsame).
  by rewrite <- (fillChunk_recorded E i count _ ch w' Hfill).
Qed.

Lemma genQuery_any_interleaving_witness :
  ((1 ≤ 2)%Z ∧ table_wf Shop.calm (table Shop.ins)) ∧
  ∃ ch w',
    fillChunk Shop.calm Shop.ins 2
      (logged (debug_log Shop.calm Shop.ins) Shop.world0) = Ok ch w' ∧
    ∀ ws', (∀ p, filter (fun cw => cw_by cw = p) ws'
                 = filter (fun cw => cw_by cw = p) (writes ch)) →
      genQuery Shop.calm Shop.ins 2 Shop.world0
      = Ok (Some (renderValues Shop.calm Shop.ins
                    (replay ws'
                       (make_values 2
                          (length (FieldsToGenerate Shop.calm (table Shop.ins))
                           + length (FieldsToSample Shop.calm (table Shop.ins)))))))
           w'.
Proof.
  assert (H1 : (1 ≤ 2)%Z) by lia.
  assert (H2 : table_wf Shop.calm (table Shop.ins)) by (right; vm_compute; lia).
  split; [done|].
  exact (genQuery_any_interleaving Shop.calm Shop.ins 2 Shop.world0 H1 H2).
Defined.

(** The stores of a chunk of two rows with the sampler first and the
    rows generated in between give the text of the sequential order. *)
Example sampler_first_same_text :
  let amount := Some (NewRandomInt "amount" 0x7FFFFFFF false) in
  let id := Some (SampledValue "7") in
  let ws' := [ mkCellWrite (Sampling 0) 0 2 id;
               mkCellWrite Generation 0 0 None;
               mkCellWrite Generation 0 1 amount;
               mkCellWrite (Sampling 0) 1 2 id;
               mkCellWrite Generation 1 0 None;
               mkCellWrite Generation 1 1 amount ] in
  ∃ w', genQuery Shop.calm Shop.ins 2 Shop.world0
        = Ok (Some (renderValues Shop.calm Shop.ins
                      (replay ws' (make_values 2 3)))) w'.
Proof. eexists. vm_compute. reflexivity. Qed.

(** X12.  The sampler of a constraint is the uniform one exactly when
    the 1-1 map reads the referenced table for this table, or the
    random-1-N map does not and the default is "1-1"; in every other
    case, whatever the default string is, it is the random one.  The
    maps are read as Go reads them, an absent table as the empty
    name. *)
Theorem sampler_choice (r : ForeignKeyLinks) (tableName : string)
    (c : Constraint) (subSlice : list Slice) :
  let sampler := createSamplerFromForeignkeyLinks
                   (relationship r tableName (ReferencedTableName c))
                   c subSlice in
  let uniform := NewUniformSample (ReferencedFields c)
                   (ReferencedTableSchema c) (ReferencedTableName c) subSlice in
  let random := NewDBRandomSample (ReferencedFields c)
                  (ReferencedTableSchema c) (ReferencedTableName c) subSlice in
  let one_to_one :=
    map_index (OneToOne r) tableName = ReferencedTableName c ∨
    (map_index (DBRandomOneToMany r) tableName ≠ ReferencedTableName c ∧
     DefaultRelationship r = "1-1") in
  (sampler = uniform ↔ one_to_one) ∧ (sampler = random ↔ ¬ one_to_one).
Proof.
  intros sampler uniform random one_to_one.
  subst sampler uniform random one_to_one.
  unfold relationship, createSamplerFromForeignkeyLinks.
  destruct (decide (map_index (OneToOne r) tableName = ReferencedTableName c))
    as [H11|H11]; simpl.
  { split; split; try done; [by left|tauto]. }
  destruct (decide (map_index (DBRandomOneToMany r) tableName
                    = ReferencedTableName c)) as [H1n|H1n]; simpl.
  { split; split; try done; tauto. }
  destruct (decide (DefaultRelationship r = "1-1")) as [Hd|Hd].
  { split; split; try done; [by right|tauto]. }
  destruct (decide (DefaultRelationship r = "db-random-1-n"));
    (split; split; try done; tauto).
Qed.

(** X13.  [insert] never dereferences a nil statement: [genQuery]
    returns nil exactly for a count below one, and for such a count
    [insert] returns zero and no error before it calls anything; for
    every other count it gets a text and issues it. *)
Theorem insert_never_dereferences_nil (E : Env) (i : Insert) (count : Z)
    (dryRun : bool) (w : World) :
  table_wf E (table i) →
  ∃ q w1 r w',
    genQuery E i count w = Ok q w1 ∧
    (q = None ↔ (count < 1)%Z) ∧
    insert E i count dryRun w = Ok r w' ∧
    ((count < 1)%Z → r = (0%Z, None) ∧ w' = w) ∧
    ((1 ≤ count)%Z → ∃ s, w_stmts w' = w_stmts w ++ [s] ∧ st_rows s = count).
Proof.
  intros Hwf. destruct (decide (count < 1)%Z) as [Hlt|Hge].
  - exists None, w, (0%Z, None), w.
    split; [unfold genQuery; by rewrite decide_True|].
    split; [done|]. split; [by apply insert_skip|].
    split; [done|]. lia.
  - destruct (genQuery_spec E i count w ltac:(lia) Hwf)
      as (ch & w1 & calls & _ & Hgen & _).
    destruct (insert_issue E i count dryRun w ltac:(lia) Hwf)
      as (s & w' & Hins & Hst & _ & _ & Hrows & _).
    eexists _, w1, _, w'. split; [exact Hgen|].
    split; [split; [done|lia]|]. split; [exact Hins|].
    split; [lia|]. intros _. by exists s.
Qed.

Lemma insert_never_dereferences_nil_witness :
  table_wf Shop.calm (table Shop.ins) ∧
  ∃ q w1 r w',
    genQuery Shop.calm Shop.ins 0 Shop.world0 = Ok q w1 ∧
    (q = None ↔ (0 < 1)%Z) ∧
    insert Shop.calm Shop.ins 0 false Shop.world0 = Ok r w' ∧
    ((0 < 1)%Z → r = (0%Z, None) ∧ w' = Shop.world0) ∧
    ((1 ≤ 0)%Z → ∃ s, w_stmts w' = w_stmts Shop.world0 ++ [s] ∧
                      st_rows s = 0%Z).
Proof.
  assert (H1 : table_wf Shop.calm (table Shop.ins)) by (right; vm_compute; lia).
  split; [done|].
  exact (insert_never_dereferences_nil Shop.calm Shop.ins 0 false
           Shop.world0 H1).
Defined.

(** X14.  Behind the lines of [genQuery], [insert] logs one thing
    only: a statement the database refused, with its text and the
    error.  A write that fails in dry-run mode is returned but not
    logged, and a statement that goes through leaves no line. *)
Theorem insert_logs_only_failed_exec (E : Env) (i : Insert) (count : Z)
    (dryRun : bool) (w : World) :
  (1 ≤ count)%Z → table_wf E (table i) →
  ∃ q w1 s w',
    genQuery E i count w = Ok (Some q) w1 ∧
    insert E i count dryRun w = Ok (committed s, failure s) w' ∧
    w_stmts w' = w_stmts w ++ [s] ∧
    w_log w' = w_log w1 ++ exec_log s ∧
    match st_call s with
    | CallExec q' _ => q' = q ∧ dryRun = false
    | CallWrite wr data _ =>
        wr = writer i ∧ data = q +:+ newline ∧ dryRun = true
    end.
Proof.
  intros Hcount Hwf. destruct dryRun.
  - destruct (insert_dry_spec E i count w Hcount Hwf)
      as (ch & w1 & Hgen & Hq & _ & Hins).
    simpl in Hins. eexists _, w1, _, _. split; [exact Hgen|].
    split; [exact Hins|]. destruct Hq as [_ _ Hst _ _]. simpl.
    split; [by rewrite Hst|]. unfold exec_log. simpl.
    by rewrite app_nil_r.
  - destruct (genQuery_spec E i count w Hcount Hwf)
      as (ch & w1 & calls & _ & Hgen & Hq & _).
    destruct Hq as [_ _ Hst _ _].
    set (q := renderValues E i (values ch)) in *.
    set (res := db_Exec E (w_clock w1) q).
    set (s := mkStmt count (CallExec q res)).
    exists q, w1, s,
      (match res with
       | inl err => logged (LogError "failed to insert" (Some err)
                              [("query", q)]) (issued s (tick w1))
       | inr _ => issued s (tick w1)
       end).
    split; [done|]. split.
    { unfold insert. rewrite decide_False by lia.
      erewrite bind_ok by exact Hgen.
      erewrite bind_ok by reflexivity.
      erewrite bind_ok by reflexivity.
      unfold committed, failure. simpl. fold q. fold res. fold s.
      by destruct res. }
    unfold exec_log. simpl. fold res.
    destruct res; simpl; rewrite ?app_nil_r, Hst; done.
Qed.

Lemma insert_logs_only_failed_exec_witness :
  ((1 ≤ 2)%Z ∧ table_wf Shop.failing_writer (table Shop.ins)) ∧
  ∃ q w1 s w',
    genQuery Shop.failing_writer Shop.ins 2 Shop.world0 = Ok (Some q) w1 ∧
    insert Shop.failing_writer Shop.ins 2 true Shop.world0
    = Ok (committed s, failure s) w' ∧
    w_stmts w' = w_stmts Shop.world0 ++ [s] ∧
    w_log w' = w_log w1 ++ exec_log s ∧
    match st_call s with
    | CallExec q' _ => q' = q ∧ true = false
    | CallWrite wr data _ =>
        wr = writer Shop.ins ∧ data = q +:+ newline ∧ true = true
    end.
Proof.
  assert (H1 : (1 ≤ 2)%Z) by lia.
  assert (H2 : table_wf Shop.failing_writer (table Shop.ins))
    by (right; vm_compute; lia).
  split; [done|].
  exact (insert_logs_only_failed_exec Shop.failing_writer Shop.ins 2 true
           Shop.world0 H1 H2).
Defined.

(** ** The sampling goroutine *)

Section Sampling.

Variable E : Env.

Lemma mapM_reslice_overflow (vals : list Slice) lo hi cap :
  vals ≠ [] → Forall (fun v => sl_cap v = cap) vals → cap < hi →
  mapM (fun v => reslice v lo hi) vals = None.
Proof.
  intros Hne Hcap Hhi. apply mapM_None_2.
  destruct vals as [|v vals]; [done|]. apply Forall_cons in Hcap as [Hv _].
  left. unfold reslice. rewrite decide_False; [done|lia].
Qed.

(** One turn of the loop of [sampleFieldsTable] when the sub-slices fit. *)
Lemma sampleConstraints_step i vals cap c cs k colIdx ch w :
  Forall (fun v => sl_cap v = cap) vals →
  colIdx + length (ReferencedFields c) ≤ cap →
  let subSlice :=
    (fun v => {| sl_row := sl_row v; sl_off := sl_off v + colIdx;
                 sl_len := colIdx + length (ReferencedFields c) - colIdx;
                 sl_cap := sl_cap v - colIdx |}) <$> vals in
  let sampler :=
    createSamplerFromForeignkeyLinks
      (relationship (fklinks i) (Name (table i)) (ReferencedTableName c))
      c subSlice in
  let r := sampler_Sample E (w_clock w) sampler in
  let ch' := store_sample (Sampling k) subSlice r.1 ch in
  sampleConstraints E i vals (c :: cs) k colIdx ch w
  = match r.2 with
    | Some err =>
        Ok (Some (ErrWrap err "sampleFieldsTable"), ch')
           (sampled sampler (Some err) (tick w))
    | None =>
        sampleConstraints E i vals cs (S k)
          (colIdx + length (ReferencedFields c)) ch'
          (sampled sampler None (tick w))
    end.
Proof.
  intros Hcap Hfit. simpl. unfold bind at 1.
  rewrite (mapM_reslice vals colIdx (colIdx + length (ReferencedFields c)) cap)
    by (done || lia).
  simpl. unfold bind at 1. unfold Sample at 1. simpl.
  by destruct (sampler_Sample E (w_clock w) _).2.
Qed.

(** With more referenced fields than columns to sample the loop of
    [sampleFieldsTable] runs into the end of the rows, unless a
    sampler has failed before. *)
Lemma sampleConstraints_overflow i vals cap cs :
  vals ≠ [] → Forall (fun v => sl_cap v = cap) vals →
  ∀ k colIdx ch w,
  colIdx ≤ cap → cap < colIdx + sum_list (width <$> cs) →
  (∃ w', sampleConstraints E i vals cs k colIdx ch w
         = Panic "slice bounds out of range" w') ∨
  (∃ ch' w' e t s,
     sampleConstraints E i vals cs k colIdx ch w
     = Ok (Some (ErrWrap e "sampleFieldsTable"), ch') w' ∧
     (sampler_Sample E t s).2 = Some e).
Proof.
  intros Hne Hvals. induction cs as [|c cs IH]; intros k colIdx ch w Hle Hover.
  - simpl in Hover. lia.
  - change (sum_list (width <$> c :: cs))
      with (width c + sum_list (width <$> cs)) in Hover.
    unfold width at 1 in Hover.
    destruct (decide (colIdx + length (ReferencedFields c) ≤ cap)) as [Hfit|Hno].
    + rewrite (sampleConstraints_step i vals cap c cs k colIdx ch w Hvals Hfit).
      set (subSlice := (_ <$> vals)).
      set (sampler := createSamplerFromForeignkeyLinks _ c subSlice).
      set (r := sampler_Sample E (w_clock w) sampler).
      destruct (r.2) as [e|] eqn:Herr.
      * right. eexists _, _, e, (w_clock w), sampler.
        split; [reflexivity|exact Herr].
      * apply IH; lia.
    + left. simpl. unfold bind at 1.
      rewrite (mapM_reslice_overflow vals _ _ cap) by (done || lia).
      by eexists.
Qed.

(** The samplers [sampleFieldsTable] creates, in order: one for each
    constraint it reaches, with a view of every row that starts behind
    the columns of the constraints before it. *)
Lemma sampleConstraints_views i vals base cap cs :
  Forall (fun v => sl_off v = base ∧ sl_cap v = cap) vals →
  ∀ k colIdx ch w,
  colIdx + sum_list (width <$> cs) ≤ cap →
  ∃ r w' calls,
    sampleConstraints E i vals cs k colIdx ch w = Ok r w' ∧
    w_sampled w' = w_sampled w ++ calls ∧
    (length calls = length cs ∨
     ∃ pre s e, calls = pre ++ [(s, Some e)] ∧ length pre < length cs) ∧
    ∀ k' s e, calls !! k' = Some (s, e) →
      ∃ c, cs !! k' = Some c ∧
           s = createSamplerFromForeignkeyLinks
                 (relationship (fklinks i) (Name (table i))
                    (ReferencedTableName c)) c
                 ((fun v => {| sl_row := sl_row v;
                               sl_off := base + (colIdx + colStart cs k');
                               sl_len := width c;
                               sl_cap := cap - (colIdx + colStart cs k') |})
                    <$> vals).
Proof.
  intros Hvals. induction cs as [|c cs IH]; intros k colIdx ch w Hfit.
  - exists (None, ch), w, []. simpl. rewrite app_nil_r.
    do 2 (split; [done|]). split; [by left|]. intros k' s e Hk'. done.
  - change (sum_list (width <$> c :: cs))
      with (width c + sum_list (width <$> cs)) in Hfit.
    unfold width at 1 in Hfit.
    rewrite (sampleConstraints_step i vals cap c cs k colIdx ch w);
      [|eapply Forall_impl; [exact Hvals|]; by intros v [_ ?]| lia].
    set (subSlice := (_ <$> vals)).
    assert (Hsub : subSlice
                   = (fun v => {| sl_row := sl_row v;
                                  sl_off := base + (colIdx + colStart (c :: cs) 0);
                                  sl_len := width c;
                                  sl_cap := cap - (colIdx + colStart (c :: cs) 0) |})
                       <$> vals).
    { unfold subSlice. apply Forall_fmap_ext_1.
      eapply Forall_impl; [exact Hvals|]. intros v [Hoff Hcap].
      unfold colStart, width. simpl. f_equal; lia. }
    set (sampler := createSamplerFromForeignkeyLinks _ c subSlice).
    set (r := sampler_Sample E (w_clock w) sampler).
    destruct (r.2) as [e|] eqn:Herr.
    + eexists (_, _), _, [(sampler, Some e)]. simpl.
      do 2 (split; [reflexivity|]). split.
      { right. exists [], sampler, e. split; [done|]. simpl. lia. }
      intros [|k'] s e' Hk'; [|done]. injection Hk' as <- <-.
      exists c. split; [done|]. unfold sampler. by rewrite Hsub.
    + destruct (IH (S k) (colIdx + length (ReferencedFields c))
                   (store_sample (Sampling k) subSlice r.1 ch)
                   (sampled sampler None (tick w)))
        as (r' & w' & calls & Hrun & Hsm & Hlen & Hviews); [lia|].
      exists r', w', ((sampler, None) :: calls).
      split; [exact Hrun|].
      split; [rewrite Hsm; simpl; by rewrite <- app_assoc|]. split.
      { destruct Hlen as [Hlen|(pre & s & e & -> & Hpre)].
        - left. simpl. by rewrite Hlen.
        - right. exists ((sampler, None) :: pre), s, e. split; [done|].
          simpl. lia. }
      intros [|k'] s e Hk'.
      * injection Hk' as <- <-. exists c. split; [done|].
        unfold sampler. by rewrite Hsub.
      * destruct (Hviews k' s e Hk') as (c' & Hc' & ->).
        exists c'. split; [done|]. f_equal.
        apply Forall_fmap_ext_1, Forall_forall. intros v _.
        rewrite colStart_cons. unfold width. f_equal; lia.
Qed.

End Sampling.

(** X15.  A table whose constraints reference more fields than it has
    columns to sample breaks [genQuery] for every chunk of at least
    one row: the sub-slice of [sampleFieldsTable] runs over the end of
    the row and panics.  The only way around the panic is a sampler
    that fails before the loop gets there, which ends the sampling
    with a logged error. *)
Theorem genQuery_panics_when_constraints_overflow (E : Env) (i : Insert)
    (count : Z) (w : World) :
  (1 ≤ count)%Z →
  0 < length (FieldsToSample E (table i))
    < sum_list (width <$> Constraints (table i)) →
  (∃ w', genQuery E i count w = Panic "slice bounds out of range" w') ∨
  (∃ q w' e t s,
     genQuery E i count w = Ok (Some q) w' ∧
     (sampler_Sample E t s).2 = Some e ∧
     sampling_log e ∈ w_log w').
Proof.
  intros Hcount [Hpos Hover].
  set (fg := FieldsToGenerate E (table i)).
  set (fs := FieldsToSample E (table i)) in *.
  set (ch0 := {| values := make_values count (length fg + length fs);
                 writes := [] |}).
  set (w0 := logged (debug_log E i) w).
  set (vals := (fun r => {| sl_row := r; sl_off := length fg;
                            sl_len := length fg + length fs - length fg;
                            sl_cap := length fg + length fs - length fg |})
                 <$> seq 0 (Z.to_nat count)).
  assert (Hgen : ∃ ch1 w1,
    (if decide (length fg ≠ 0)
     then generationPhase E fg count (length fg + length fs) ch0
     else ret ch0) w0 = Ok ch1 w1).
  { case_decide.
    - destruct (generationPhase_spec E fg count (length fg + length fs) ch0 w0)
        as (ch1 & w1 & added & Hrun & _); [lia|]. by exists ch1, w1.
    - by exists ch0, w0. }
  destruct Hgen as (ch1 & w1 & Hgen).
  assert (Hstep : genQuery E i count w
    = match sampleConstraints E i vals (Constraints (table i)) 0 0 ch1 w1 with
      | Ok r w' =>
          Ok (Some (renderValues E i (values r.2)))
             (match r.1 with
              | Some err =>
                  logged (LogError "error when sampling field" (Some err) []) w'
              | None => w'
              end)
      | Panic msg w' => Panic msg w'
      end).
  { unfold genQuery. rewrite decide_False by lia.
    erewrite bind_ok by reflexivity.
    unfold fillChunk. fold fg fs ch0 w0.
    change (logged _ w) with w0.
    unfold bind at 1. unfold bind at 1. rewrite Hgen.
    rewrite decide_True by lia.
    unfold samplingPhase, sampleFieldsTable.
    unfold bind at 1.
    rewrite (mapM_row_slices (length fg + length fs) (length fg)) by lia.
    simpl. fold vals. unfold bind at 1.
    destruct (sampleConstraints E i vals _ 0 0 ch1 w1) as [r w'|msg w'];
      [|done].
    by destruct (r.1). }
  rewrite Hstep.
  destruct (sampleConstraints_overflow E i vals (length fs)
              (Constraints (table i))) with (k := 0) (colIdx := 0)
              (ch := ch1) (w := w1)
    as [[w' Hpanic]|(ch' & w' & e & t & s & Hrun & He)].
  { unfold vals. destruct (Z.to_nat count) eqn:Hn; [lia|done]. }
  { unfold vals. apply Forall_fmap, Forall_forall. intros r _. simpl. lia. }
  { lia. }
  { lia. }
  - left. exists w'. by rewrite Hpanic.
  - right. rewrite Hrun. simpl. eexists _, _, e, t, s.
    split; [reflexivity|]. split; [exact He|].
    simpl. apply elem_of_app. right. left.
Qed.

Lemma genQuery_panics_when_constraints_overflow_witness :
  ((1 ≤ 2)%Z ∧
   0 < length (FieldsToSample Shop.calm (table (New Shop.wide Shop.policy)))
     < sum_list (width <$> Constraints (table (New Shop.wide Shop.policy)))) ∧
  ((∃ w', genQuery Shop.calm (New Shop.wide Shop.policy) 2 Shop.world0
          = Panic "slice bounds out of range" w') ∨
   (∃ q w' e t s,
      genQuery Shop.calm (New Shop.wide Shop.policy) 2 Shop.world0
      = Ok (Some q) w' ∧
      (sampler_Sample Shop.calm t s).2 = Some e ∧
      sampling_log e ∈ w_log w')).
Proof.
  assert (H1 : (1 ≤ 2)%Z) by lia.
  assert (H2 : 0 < length (FieldsToSample Shop.calm
                             (table (New Shop.wide Shop.policy)))
               < sum_list (width <$> Constraints
                                       (table (New Shop.wide Shop.policy))))
    by (vm_compute; lia).
  split; [done|].
  exact (genQuery_panics_when_constraints_overflow Shop.calm
           (New Shop.wide Shop.policy) 2 Shop.world0 H1 H2).
Defined.

(** On that table the chunk panics once its rows are generated, before
    any sampler has run. *)
Example wide_constraint_panics :
  ∃ w', genQuery Shop.calm (New Shop.wide Shop.policy) 2 Shop.world0
        = Panic "slice bounds out of range" w' ∧
        w_sampled w' = [].
Proof. eexists. vm_compute. split; reflexivity. Qed.

(** X16.  The samplers of a chunk are created in the order of the
    constraints, the [k]-th for the [k]-th constraint, and each is
    handed one view per row of the chunk: the cells of that row from
    column [nGen + colStart k] on, as many as the constraint has
    referenced fields.  There are never more samplers than
    constraints, none when there is no column to sample, and one per
    constraint when none of them fails. *)
Theorem samplers_get_their_columns (E : Env) (i : Insert) (count : Z)
    (w : World) :
  table_wf E (table i) →
  let nGen := length (FieldsToGenerate E (table i)) in
  let nSample := length (FieldsToSample E (table i)) in
  let cs := Constraints (table i) in
  ∃ ch w' calls,
    fillChunk E i count w = Ok ch w' ∧
    w_sampled w' = w_sampled w ++ calls ∧
    length calls ≤ length cs ∧
    (∀ k s e, calls !! k = Some (s, e) →
       ∃ c, cs !! k = Some c ∧
            s = createSamplerFromForeignkeyLinks
                  (relationship (fklinks i) (Name (table i))
                     (ReferencedTableName c)) c
                  (sub_view nGen nSample (colStart cs k) c
                     <$> seq 0 (Z.to_nat count))) ∧
    (nSample = 0 → calls = []) ∧
    (nSample ≠ 0 → Forall (fun c => c.2 = None) calls →
       length calls = length cs).
Proof.
  intros Hwf nGen nSample cs.
  unfold fillChunk. fold nGen. fold nSample.
  set (fg := FieldsToGenerate E (table i)) in *.
  set (fs := FieldsToSample E (table i)) in *.
  set (ch0 := {| values := _; writes := [] |}).
  assert (Hgen : ∃ ch1 w1,
    (if decide (nGen ≠ 0)
     then generationPhase E fg count (nGen + nSample) ch0
     else ret ch0) w = Ok ch1 w1 ∧ w_sampled w1 = w_sampled w).
  { case_decide.
    - destruct (generationPhase_spec E fg count (nGen + nSample) ch0 w)
        as (ch1 & w1 & added & Hrun & _ & Hsm & _); [unfold nGen; lia|].
      by exists ch1, w1.
    - by exists ch0, w. }
  destruct Hgen as (ch1 & w1 & Hgen & Hsm1).
  erewrite bind_ok by exact Hgen.
  destruct (decide (nSample ≠ 0)) as [Hfs|Hfs].
  2:{ exists ch1, w1, []. rewrite app_nil_r. do 2 (split; [done|]).
      split; [simpl; lia|].
      split; [intros k s e Hk; by rewrite lookup_nil in Hk|].
      split; [done|]. intros Hne. by destruct Hfs. }
  destruct Hwf as [Hz|Hfit]; [by destruct Hfs|].
  unfold samplingPhase, sampleFieldsTable.
  unfold bind at 1.
  rewrite (mapM_row_slices (nGen + nSample) nGen) by lia. simpl.
  set (vals := _ <$> _).
  destruct (sampleConstraints_views E i vals nGen nSample cs)
    with (k := 0) (colIdx := 0) (ch := ch1) (w := w1)
    as (r & w2 & calls & Hrun & Hsm & Hlen & Hviews).
  { unfold vals. apply Forall_fmap, Forall_forall. intros r _. simpl. lia. }
  { fold cs in Hfit. unfold nSample, fs. lia. }
  unfold bind at 1. fold cs. rewrite Hrun.
  assert (Hrest : length calls ≤ length cs ∧
    (∀ k s e, calls !! k = Some (s, e) →
       ∃ c, cs !! k = Some c ∧
            s = createSamplerFromForeignkeyLinks
                  (relationship (fklinks i) (Name (table i))
                     (ReferencedTableName c)) c
                  (sub_view nGen nSample (colStart cs k) c
                     <$> seq 0 (Z.to_nat count))) ∧
    (nSample = 0 → calls = []) ∧
    (nSample ≠ 0 → Forall (fun c => c.2 = None) calls →
       length calls = length cs)).
  { split.
    { destruct Hlen as [->|(pre & s & e & -> & Hpre)]; [done|].
      rewrite length_app. simpl. lia. }
    split.
    { intros k s e Hk. destruct (Hviews k s e Hk) as (c & Hc & ->).
      exists c. split; [done|]. f_equal.
      unfold vals. rewrite <- list_fmap_compose.
      apply Forall_fmap_ext_1, Forall_forall. intros r' _.
      unfold sub_view, compose. simpl. f_equal. }
    split; [intros Hz; by destruct Hfs|].
    intros _ Hall.
    destruct Hlen as [Hlen|(pre & s & e & -> & _)]; [done|].
    apply Forall_app in Hall as [_ Hall]. apply Forall_inv in Hall.
    done. }
  destruct (r.1) as [err|].
  - eexists r.2, _, calls. split; [reflexivity|].
    split; [simpl; by rewrite Hsm, Hsm1|]. exact Hrest.
  - exists r.2, w2, calls. split; [done|]. split; [by rewrite Hsm, Hsm1|].
    exact Hrest.
Qed.

Lemma samplers_get_their_columns_witness :
  table_wf Shop.calm (table Shop.ins) ∧
  let nGen := length (FieldsToGenerate Shop.calm (table Shop.ins)) in
  let nSample := length (FieldsToSample Shop.calm (table Shop.ins)) in
  let cs := Constraints (table Shop.ins) in
  ∃ ch w' calls,
    fillChunk Shop.calm Shop.ins 2 Shop.world0 = Ok ch w' ∧
    w_sampled w' = w_sampled Shop.world0 ++ calls ∧
    length calls ≤ length cs ∧
    (∀ k s e, calls !! k = Some (s, e) →
       ∃ c, cs !! k = Some c ∧
            s = createSamplerFromForeignkeyLinks
                  (relationship (fklinks Shop.ins) (Name (table Shop.ins))
                     (ReferencedTableName c)) c
                  (sub_view nGen nSample (colStart cs k) c
                     <$> seq 0 (Z.to_nat 2))) ∧
    (nSample = 0 → calls = []) ∧
    (nSample ≠ 0 → Forall (fun c => c.2 = None) calls →
       length calls = length cs).
Proof.
  assert (H1 : table_wf Shop.calm (table Shop.ins)) by (right; vm_compute; lia).
  split; [done|].
  exact (samplers_get_their_columns Shop.calm Shop.ins 2 Shop.world0 H1).
Defined.

(** The sampler of that chunk: the random one, for [customers.id], with
    the third cell of each of the two rows. *)
Example sampler_of_two_rows :
  ∃ ch w',
    fillChunk Shop.calm Shop.ins 2 Shop.world0 = Ok ch w' ∧
    w_sampled w'
    = [ (NewDBRandomSample [Shop.column "id" "int"] "shop" "customers"
           [mkSlice 0 2 1 1; mkSlice 1 2 1 1], None) ].
Proof. eexists _, _. vm_compute. split; reflexivity. Qed.

(** ** The generated part of a chunk *)

Section Cells.

Variable E : Env.

(** The generation goroutine over the rows [rows]: every cell of a
    generate-column in one of these rows gets the value of the
    dispatch, and no other row is touched. *)
Lemma generationPhase_cells fieldsToGen width rows :
  length fieldsToGen ≤ width → NoDup rows →
  ∀ ch w,
  ∃ ch' w',
    foldM (fun ch i =>
             s <- checked "slice bounds out of range"
                    (reslice (row_slice width i) 0 (length fieldsToGen)) ;;
             generateFieldsRow E fieldsToGen s ch) rows ch w
    = Ok ch' w' ∧
    quiet w w' ∧ shape ch' = shape ch ∧
    (∀ r c, r ∉ rows → cell ch' r c = cell ch r c) ∧
    (∀ r c field, r ∈ rows → fieldsToGen !! c = Some field →
       is_Some (cell ch r c) →
       ∃ v, cell ch' r c = Some v ∧
            (recognized (DataType field) → is_Some v) ∧
            (¬ recognized (DataType field) →
               v = None ∧ unsupported_log field ∈ w_log w')).
Proof.
  intros Hwidth. induction rows as [|i rows IH]; intros Hnd ch w.
  - exists ch, w. split; [done|]. split; [apply quiet_refl|].
    do 2 (split; [done|]). intros r c field Hr. by apply elem_of_nil in Hr.
  - apply NoDup_cons in Hnd as [Hi Hnd].
    set (s := {| sl_row := i; sl_off := 0;
                 sl_len := length fieldsToGen; sl_cap := width |}).
    destruct (generateFieldsRow_loop E fieldsToGen s
                (seq 0 (length fieldsToGen)) ch w)
      as (ch1 & w1 & Hrun1 & Hq1 & _ & _ & Hs1 & Hframe1 & Hcells1).
    { apply NoDup_seq. }
    { intros j Hj%elem_of_seq. lia. }
    destruct (IH Hnd ch1 w1) as (ch' & w' & Hrun & Hq & Hs & Hframe & Hcells).
    exists ch', w'. split.
    { cbn [foldM]. erewrite bind_ok; [exact Hrun|].
      erewrite bind_ok by (apply checked_ok, reslice_row, Hwidth).
      exact Hrun1. }
    split; [by eapply quiet_trans|]. split; [congruence|]. split.
    { intros r c Hr. apply not_elem_of_cons in Hr as [Hri Hr].
      rewrite Hframe by done. apply Hframe1. by left. }
    intros r c field Hr Hfield Hsome.
    destruct (decide (r = i)) as [->|Hri].
    + rewrite Hframe by done.
      destruct (Hcells1 c field) as (v & Hv & Hrec & Hun).
      { apply elem_of_seq. apply lookup_lt_Some in Hfield. lia. }
      { done. }
      { done. }
      exists v. split; [exact Hv|]. split; [done|].
      intros Hn. destruct (Hun Hn) as [-> Hlog]. split; [done|].
      by eapply quiet_logged.
    + apply elem_of_cons in Hr as [?|Hr]; [done|].
      apply Hcells; [done..|]. by eapply shape_cell.
Qed.

(** The stores of the sampling goroutine leave the generate-columns as
    they are. *)
Lemma replay_keeps_column (ws : list CellWrite) (vs : list InsertValues)
    (n r c : nat) :
  Forall (fun cw => n ≤ cw_col cw) ws → c < n →
  cell_of (replay ws vs) r c = cell_of vs r c.
Proof.
  intros Hws Hc. rewrite cell_of_replay, filter_none.
  - simpl. by destruct (cell_of vs r c).
  - eapply Forall_impl; [exact Hws|]. intros cw Hcw [_ Hcol]. simpl in Hcw. lia.
Qed.

End Cells.

(** X17.  In the buffer of a chunk every row has its generate-columns
    filled by the type dispatch: a value for a column of a known type,
    nil and an error line for any other.  No sampler can change this:
    the views of the sampling goroutine start behind these columns. *)
Theorem chunk_generated_cells (E : Env) (i : Insert) (count : Z) (w : World) :
  table_wf E (table i) →
  ∃ ch w',
    fillChunk E i count w = Ok ch w' ∧
    ∀ r c field,
      r < Z.to_nat count → FieldsToGenerate E (table i) !! c = Some field →
      ∃ v, cell ch r c = Some v ∧
           (recognized (DataType field) → is_Some v) ∧
           (¬ recognized (DataType field) →
              v = None ∧ unsupported_log field ∈ w_log w').
Proof.
  intros Hwf. unfold fillChunk.
  set (fg := FieldsToGenerate E (table i)).
  set (fs := FieldsToSample E (table i)) in *.
  set (mv := make_values count (length fg + length fs)).
  set (ch0 := {| values := mv; writes := [] |}).
  assert (H0 : recorded mv ch0) by done.
  assert (Hcell0 : ∀ r c, r < Z.to_nat count → c < length fg →
            is_Some (cell ch0 r c)).
  { intros r c Hr Hc. unfold cell, ch0, mv, make_values. simpl.
    rewrite lookup_replicate_2 by done. simpl.
    rewrite lookup_replicate_2 by lia. by eexists. }
  assert (Hgen : ∃ ch1 w1,
    (if decide (length fg ≠ 0)
     then generationPhase E fg count (length fg + length fs) ch0
     else ret ch0) w = Ok ch1 w1 ∧
    recorded mv ch1 ∧
    ∀ r c field, r < Z.to_nat count → fg !! c = Some field →
      ∃ v, cell ch1 r c = Some v ∧
           (recognized (DataType field) → is_Some v) ∧
           (¬ recognized (DataType field) →
              v = None ∧ unsupported_log field ∈ w_log w1)).
  { destruct (decide (length fg ≠ 0)) as [Hfg|Hfg].
    - destruct (generationPhase_cells E fg (length fg + length fs)
                  (seq 0 (Z.to_nat count)) ltac:(lia)
                  (NoDup_seq _ _) ch0 w)
        as (ch1 & w1 & Hrun & _ & _ & _ & Hcells).
      exists ch1, w1. split; [exact Hrun|]. split.
      { by eapply recorded_generationPhase. }
      intros r c field Hr Hfield. apply Hcells; [|done|].
      + apply elem_of_seq. lia.
      + apply Hcell0; [done|]. by eapply lookup_lt_Some.
    - exists ch0, w. do 2 (split; [done|]).
      intros r c field _ Hfield. apply lookup_lt_Some in Hfield. lia. }
  destruct Hgen as (ch1 & w1 & Hgen & H1 & Hcells).
  erewrite bind_ok by exact Hgen.
  destruct (decide (length fs ≠ 0)) as [Hfs|Hfs]; [|by exists ch1, w1].
  destruct Hwf as [Hz|Hfit]; [by destruct Hfs|].
  unfold samplingPhase, sampleFieldsTable.
  unfold bind at 1.
  rewrite (mapM_row_slices (length fg + length fs) (length fg)) by lia.
  simpl. set (vals := _ <$> _).
  destruct (sampleConstraints_spec E i vals (length fg) (length fs)
              (Constraints (table i)))
    with (k := 0) (colIdx := 0) (ch := ch1) (w := w1)
    as (r & w2 & added & calls & Hrun & Hq & _ & Hw & _ & HP & _).
  { unfold vals. apply Forall_fmap, Forall_forall. intros r _. simpl. lia. }
  { fold fs in Hfit. lia. }
  pose proof (recorded_sampleConstraints E mv _ _ _ _ _ _ _ _ _ Hrun H1) as H2.
  assert (Hkeep : ∀ r' c, c < length fg → cell r.2 r' c = cell ch1 r' c).
  { intros r' c Hc. unfold cell. rewrite H2, Hw, replay_app, <- H1.
    apply (replay_keeps_column added (values ch1) (length fg)); [|done].
    eapply Forall_impl; [exact HP|]. intros cw (k' & _ & _ & Hcol). lia. }
  assert (Hfinal : ∀ w', w_log w2 `prefix_of` w_log w' →
    ∀ r' c field, r' < Z.to_nat count → fg !! c = Some field →
      ∃ v, cell r.2 r' c = Some v ∧
           (recognized (DataType field) → is_Some v) ∧
           (¬ recognized (DataType field) →
              v = None ∧ unsupported_log field ∈ w_log w')).
  { intros w' [l Hl] r' c field Hr Hfield.
    destruct (Hcells r' c field Hr Hfield) as (v & Hv & Hrec & Hun).
    exists v. split; [by rewrite Hkeep by by eapply lookup_lt_Some|].
    split; [done|]. intros Hn. destruct (Hun Hn) as [-> Hlog].
    split; [done|]. rewrite Hl. apply elem_of_app. left.
    by eapply quiet_logged. }
  unfold bind at 1. rewrite Hrun.
  destruct (r.1) as [err|].
  - eexists r.2, _. split; [reflexivity|]. apply Hfinal. simpl.
    by apply prefix_app_r.
  - exists r.2, w2. split; [done|]. by apply Hfinal.
Qed.

Lemma chunk_generated_cells_witness :
  table_wf Shop.failing_sampler (table Shop.ins) ∧
  ∃ ch w',
    fillChunk Shop.failing_sampler Shop.ins 2 Shop.world0 = Ok ch w' ∧
    ∀ r c field,
      r < Z.to_nat 2 →
      FieldsToGenerate Shop.failing_sampler (table Shop.ins) !! c = Some field →
      ∃ v, cell ch r c = Some v ∧
           (recognized (DataType field) → is_Some v) ∧
           (¬ recognized (DataType field) →
              v = None ∧ unsupported_log field ∈ w_log w').
Proof.
  assert (H1 : table_wf Shop.failing_sampler (table Shop.ins))
    by (right; vm_compute; lia).
  split; [done|].
  exact (chunk_generated_cells Shop.failing_sampler Shop.ins 2 Shop.world0 H1).
Defined.
